(** * Storage layer of the prompt manager (src/lib/storage.ts)

    A shallow embedding of the chunking, load, save, search, import and
    sync code of [storage.ts], and the properties of its specification.

    Conventions of the embedding:
    - a JavaScript string is the list of its UTF-16 code units, so that
      [length], [slice] and [join] count what the source counts;
    - an optional property is an [option]; a property that holds
      [undefined] and a property that is absent are both [None]: no read in
      [storage.ts] tells them apart, and JSON serialisation (which is how
      chrome.storage persists values) drops both;
    - an [async] function is a function from the state of the two storage
      areas to a settled outcome (resolved or rejected) and a new state;
      the promise of [getPrompts] stays pending when the callback of
      [storage.get] throws: [processCallback] is that callback on the plain
      object of the fragments, and [getPrompts] the load on the stores on
      which the callback returns ([loadsOwn]);
    - the built-ins whose tables are not part of the repository (case
      mapping, number printing, the JSON parser, the Notion client, the
      quota decisions of chrome.storage) are fields of two interfaces. *)

From Stdlib Require Import ZArith QArith List String Ascii Lia DecimalString.
From Stdlib Require Import Permutation.
From stdpp Require Import base gmap list strings.

Local Open Scope nat_scope.

(** ** JavaScript strings *)

Abbreviation jsstring := (list N) (only parsing).

(** A literal of the source, code unit by code unit (ASCII only). *)
Definition js (s : string) : jsstring :=
  map N_of_ascii (list_ascii_of_string s).

(** [s.slice(i, j)] for non-negative indices. *)
Definition slice (s : jsstring) (i j : nat) : jsstring :=
  take (j - i) (drop i s).

(** [chunks.join('')]. *)
Definition joinEmpty (chunks : list jsstring) : jsstring := concat chunks.

(** [parts.join(sep)]. *)
Fixpoint joinWith (sep : jsstring) (parts : list jsstring) : jsstring :=
  match parts with
  | [] => []
  | [p] => p
  | p :: rest => p ++ sep ++ joinWith sep rest
  end.

(** [s.includes(t)]: [t] occurs in [s] as a contiguous run of code units. *)
Fixpoint startsWith (t s : jsstring) : bool :=
  match t, s with
  | [], _ => true
  | _ :: _, [] => false
  | a :: t', b :: s' => (a =? b)%N && startsWith t' s'
  end.

Fixpoint includes (s t : jsstring) : bool :=
  startsWith t s ||
  match s with
  | [] => false
  | _ :: s' => includes s' t
  end.

(** White space and line terminators of ECMAScript, as [trim] strips them. *)
Definition isWhiteSpace (c : N) : bool :=
  ((9 <=? c) && (c <=? 13) || (c =? 32) || (c =? 160) || (c =? 5760)
   || (8192 <=? c) && (c <=? 8202) || (c =? 8232) || (c =? 8233)
   || (c =? 8239) || (c =? 8287) || (c =? 12288) || (c =? 65279))%N.

Fixpoint trimStart (s : jsstring) : jsstring :=
  match s with
  | c :: s' => if isWhiteSpace c then trimStart s' else s
  | [] => []
  end.

Definition trim (s : jsstring) : jsstring :=
  rev (trimStart (rev (trimStart s))).

(** ** Serialised size: [new Blob([JSON.stringify(v)]).size] *)

Definition isLeadSurrogate (c : N) : bool := ((55296 <=? c) && (c <=? 56319))%N.
Definition isTrailSurrogate (c : N) : bool := ((56320 <=? c) && (c <=? 57343))%N.

Definition hexDigit (n : N) : N := (if n <? 10 then 48 + n else 87 + n)%N.

(** The six code units of a [\uXXXX] escape. *)
Definition unicodeEscape (c : N) : jsstring :=
  [92; 117; hexDigit (c / 4096 mod 16); hexDigit (c / 256 mod 16);
   hexDigit (c / 16 mod 16); hexDigit (c mod 16)]%N.

(** QuoteJSONString without the enclosing quotes: the two-character escapes,
    [\uXXXX] for the other control characters and for lone surrogates,
    everything else verbatim. *)
Fixpoint quoteChars (s : jsstring) : jsstring :=
  match s with
  | [] => []
  | c :: s' =>
      if (c =? 8)%N then js "\b" ++ quoteChars s'
      else if (c =? 9)%N then js "\t" ++ quoteChars s'
      else if (c =? 10)%N then js "\n" ++ quoteChars s'
      else if (c =? 12)%N then js "\f" ++ quoteChars s'
      else if (c =? 13)%N then js "\r" ++ quoteChars s'
      else if (c =? 34)%N then [92; 34]%N ++ quoteChars s'
      else if (c =? 92)%N then [92; 92]%N ++ quoteChars s'
      else if (c <? 32)%N then unicodeEscape c ++ quoteChars s'
      else if isLeadSurrogate c then
        match s' with
        | d :: s'' =>
            if isTrailSurrogate d then c :: d :: quoteChars s''
            else unicodeEscape c ++ quoteChars s'
        | [] => unicodeEscape c
        end
      else if isTrailSurrogate c then unicodeEscape c ++ quoteChars s'
      else c :: quoteChars s'
  end.

Definition JSON_quote (s : jsstring) : jsstring :=
  [34%N] ++ quoteChars s ++ [34%N].

(** The decimal digits of an integer. *)
Definition integerToString (z : Z) : jsstring :=
  js (NilZero.string_of_int (Z.to_int z)).

(** Number of bytes of the UTF-8 encoding (a surrogate pair is one
    four-byte scalar, a lone surrogate is replaced by U+FFFD). *)
Fixpoint utf8Length (s : jsstring) : N :=
  match s with
  | [] => 0
  | c :: s' =>
      if (c <? 128)%N then 1 + utf8Length s'
      else if (c <? 2048)%N then 2 + utf8Length s'
      else if isLeadSurrogate c then
        match s' with
        | d :: s'' =>
            if isTrailSurrogate d then 4 + utf8Length s''
            else 3 + utf8Length s'
        | [] => 3
        end
      else 3 + utf8Length s'
  end%N.

(** ** The data model (types) *)

Inductive StorageType := local | notion.

#[global] Instance StorageType_eq_dec : EqDecision StorageType.
Proof. solve_decision. Defined.

(** The interface [Prompt]. The content is missing on a metadata shell
    ([chunkPrompt] writes [content: undefined]); the time stamps are
    optional here because an imported object need not have them. *)
Record Prompt := mkPrompt {
  id : jsstring;
  title : jsstring;
  content : option jsstring;
  tags : option (list jsstring);
  createdAt : option Z;
  updatedAt : option Z;
  chunkCount : option Z;
  originalSize : option Q;
}.

Record NotionConfig := { apiKey : jsstring; pageId : jsstring }.

Record SyncStatus := {
  lastSynced : option Z;       (* [null] is [None] *)
  inProgress : bool;
  error : option jsstring;     (* [null] is [None] *)
}.

(** An object found in a parsed JSON array: the properties of a prompt,
    each one present with its declared type, or not present. *)
Record RawPrompt := {
  raw_id : option jsstring;
  raw_title : option jsstring;
  raw_content : option jsstring;
  raw_tags : option (list jsstring);
  raw_createdAt : option Z;
  raw_updatedAt : option Z;
  raw_chunkCount : option Z;
  raw_originalSize : option Q;
}.

(** An element of a parsed JSON array, as far as the import looks at it:
    [null] (reading a property of it throws), a value that has none of the
    properties read (a number, a string, a boolean, an array), or an
    object. *)
Inductive JsonElement :=
  | ElNull
  | ElOther
  | ElObject (r : RawPrompt).

(** The result of [JSON.parse]. *)
Inductive Parsed :=
  | ParseSyntaxError (message : jsstring)
  | ParsedNotArray
  | ParsedArray (elements : list JsonElement).

(** Built-ins of the language that [storage.ts] calls. *)
Class Platform := {
  (** [Number::toString], the decimal text of a number *)
  Number_toString : Q -> jsstring;
  (** [String.prototype.toLowerCase] *)
  String_toLowerCase : jsstring -> jsstring;
  (** [JSON.parse] *)
  JSON_parse : jsstring -> Parsed;
}.

(** ** Exceptions

    The outcome of a call that may throw. *)
Inductive JsError :=
  | ErrorObject (message : jsstring)          (* an instance of Error *)
  | LastError (message : option jsstring).    (* chrome.runtime.lastError *)

Inductive Completion (A : Type) :=
  | Return (a : A)
  | Throw (e : JsError).
Arguments Return {A} a.
Arguments Throw {A} e.

Definition cannotReadLength : JsError :=
  ErrorObject (js "Cannot read properties of undefined (reading 'length')").

(** ** Constants *)

Definition MAX_PROMPT_SIZE_KB : Q := 7 # 1.
Definition CHUNK_SIZE_CHARS : nat := 3000.
Definition CHUNKS_MISSING : jsstring := js "[Error: Content chunks missing]".

Section Chunking.
Context {platform : Platform}.

(** ** JSON.stringify of a prompt

    Properties are written in the order of the interface declaration; the
    order of the properties of an object does not change the number of
    bytes, which is all the code uses. *)

Definition member (key : string) (value : jsstring) : jsstring :=
  JSON_quote (js key) ++ js ":" ++ value.

Definition optMember {A} (key : string) (print : A -> jsstring)
    (v : option A) : list jsstring :=
  match v with
  | Some a => [member key (print a)]
  | None => []
  end.

(** [JSON.stringify] of a number that is an integer. Below 1e21 in
    absolute value [Number::toString] writes an integer as digits without
    exponent, as many as the integer has (the last of them zeros when the
    integer is above 2^53: the number of bytes is the same); from 1e21 on
    it writes the exponent notation, which is left to the platform. *)
Definition integerToJSON (z : Z) : jsstring :=
  if (Z.abs z <? 10 ^ 21)%Z then integerToString z
  else Number_toString (inject_Z z).

Definition JSON_stringify_strings (l : list jsstring) : jsstring :=
  js "[" ++ joinWith (js ",") (map JSON_quote l) ++ js "]".

Definition JSON_stringify_prompt (p : Prompt) : jsstring :=
  js "{" ++
  joinWith (js ",")
    ([member "id" (JSON_quote (id p)); member "title" (JSON_quote (title p))]
     ++ optMember "content" JSON_quote (content p)
     ++ optMember "tags" JSON_stringify_strings (tags p)
     ++ optMember "createdAt" integerToJSON (createdAt p)
     ++ optMember "updatedAt" integerToJSON (updatedAt p)
     ++ optMember "chunkCount" integerToJSON (chunkCount p)
     ++ optMember "originalSize" Number_toString (originalSize p))
  ++ js "}".

(** [new Blob([JSON.stringify(prompt)]).size] *)
Definition promptSize (p : Prompt) : N := utf8Length (JSON_stringify_prompt p).

(** [promptSize / 1024] *)
Definition promptSizeKB (p : Prompt) : Q := Z.of_N (promptSize p) # 1024.

(** [promptSizeKB > MAX_PROMPT_SIZE_KB] *)
Definition exceedsLimit (p : Prompt) : bool :=
  negb (Qle_bool (promptSizeKB p) MAX_PROMPT_SIZE_KB).

(** ** chunkPrompt and reconstructPrompt *)

(** The loop [for (i = 0; i < content.length; i += size) chunks.push(...)],
    started at index [i] with the chunks pushed so far. *)
Fixpoint chunkLoop (size fuel : nat) (content : jsstring) (i : nat)
    (chunks : list jsstring) : list jsstring :=
  match fuel with
  | O => chunks
  | S fuel' =>
      if i <? length content
      then chunkLoop size fuel' content (i + size)
             (chunks ++ [slice content i (i + size)])
      else chunks
  end.

(** One iteration advances [i] by at least one, so [content.length]
    iterations are enough ([chunkLoop_fuel] below). *)
Definition splitContent (content : jsstring) : list jsstring :=
  chunkLoop CHUNK_SIZE_CHARS (length content) content 0 [].

Definition chunkPrompt (prompt : Prompt)
    : Completion (option Prompt * list jsstring) :=
  if Qle_bool (promptSizeKB prompt) MAX_PROMPT_SIZE_KB then
    Return (None, [])
  else
    match content prompt with
    | None => Throw cannotReadLength
    | Some c =>
        let chunks := splitContent c in
        let metadata :=
          {| id := id prompt; title := title prompt;
             content := None;
             tags := tags prompt;
             createdAt := createdAt prompt; updatedAt := updatedAt prompt;
             chunkCount := Some (Z.of_nat (length chunks));
             originalSize := Some (promptSizeKB prompt) |} in
        Return (Some metadata, chunks)
    end.

Definition reconstructPrompt (metadata : Prompt) (chunks : list jsstring)
    : Prompt :=
  {| id := id metadata; title := title metadata;
     content := Some (joinEmpty chunks);
     tags := tags metadata;
     createdAt := createdAt metadata; updatedAt := updatedAt metadata;
     chunkCount := None;
     originalSize := None |}.

End Chunking.

(** ** chrome.storage: two areas, and the calls made on them *)

(** The key under which a plain object inherits the accessor of its
    prototype. *)
Definition PROTO : jsstring := js "__proto__".

Inductive Area := SyncArea | LocalArea.

(** The keys of [STORAGE_KEYS], each present or not: the content of one
    area, and also the argument of one call to [set]. The fragment store,
    an object of declared type [{ [key: string]: string[] }], is the finite
    map of its own properties, from ids to lists of fragments. *)
Record Items := {
  PROMPTS : option (list Prompt);
  STORAGE_TYPE : option StorageType;
  NOTION_CONFIG : option NotionConfig;
  SYNC_STATUS : option SyncStatus;
  TAGS : option (list jsstring);
  PROMPT_CHUNKS : option (gmap jsstring (list jsstring));
}.

Definition noItems : Items :=
  {| PROMPTS := None; STORAGE_TYPE := None; NOTION_CONFIG := None;
     SYNC_STATUS := None; TAGS := None; PROMPT_CHUNKS := None |}.

Definition orElse {A} (new old : option A) : option A :=
  match new with
  | Some a => Some a
  | None => old
  end.

(** [set(items)] replaces the keys it names and keeps the others. *)
Definition writeItems (items stored : Items) : Items :=
  {| PROMPTS := orElse (PROMPTS items) (PROMPTS stored);
     STORAGE_TYPE := orElse (STORAGE_TYPE items) (STORAGE_TYPE stored);
     NOTION_CONFIG := orElse (NOTION_CONFIG items) (NOTION_CONFIG stored);
     SYNC_STATUS := orElse (SYNC_STATUS items) (SYNC_STATUS stored);
     TAGS := orElse (TAGS items) (TAGS stored);
     PROMPT_CHUNKS := orElse (PROMPT_CHUNKS items) (PROMPT_CHUNKS stored) |}.

Inductive Event :=
  | StorageGet (a : Area)
  | StorageSet (a : Area) (items : Items).

Record World := {
  syncArea : Items;
  localArea : Items;
  calls : list Event;      (* every call made on chrome.storage, oldest first *)
}.

Definition area (a : Area) (w : World) : Items :=
  match a with
  | SyncArea => syncArea w
  | LocalArea => localArea w
  end.

Definition record (e : Event) (w : World) : World :=
  {| syncArea := syncArea w; localArea := localArea w;
     calls := calls w ++ [e] |}.

Definition store (a : Area) (items : Items) (w : World) : World :=
  match a with
  | SyncArea =>
      {| syncArea := writeItems items (syncArea w); localArea := localArea w;
         calls := calls w |}
  | LocalArea =>
      {| syncArea := syncArea w; localArea := writeItems items (localArea w);
         calls := calls w |}
  end.

(** An asynchronous computation: from a state of the world to a settled
    promise ([Return]: resolved, [Throw]: rejected) and the state it leaves. *)
Definition Async (A : Type) : Type := World -> Completion A * World.

Definition resolve {A} (a : A) : Async A := fun w => (Return a, w).
Definition reject {A} (e : JsError) : Async A := fun w => (Throw e, w).

Definition await {A B} (c : Async A) (k : A -> Async B) : Async B :=
  fun w =>
    match c w with
    | (Return a, w') => k a w'
    | (Throw e, w') => (Throw e, w')
    end.

Definition tryCatch {A} (body : Async A) (handler : JsError -> Async A)
    : Async A :=
  fun w =>
    match body w with
    | (Return a, w') => (Return a, w')
    | (Throw e, w') => handler e w'
    end.

#[global] Instance Async_ret : MRet Async := @resolve.
#[global] Instance Async_bind : MBind Async := fun A B k c => await c k.

(** What the extension does not decide itself. *)
Class Environment := {
  (** [chrome.runtime.lastError] in the callback of [set(items)] on an area:
      [None] when the write went through, else the [message] property of
      the error (which may be missing) *)
  setError : Area -> Items -> World -> option (option jsstring);
  (** [syncWithNotion] of [./notion] *)
  notionSync : list Prompt -> Async (list Prompt);
  (** [Date.now()] in a state of the world: the time passes with the calls
      that have been made *)
  now : World -> Z;
}.

Section Storage.
Context {platform : Platform} {environment : Environment}.

Definition storageGet (a : Area) : Async Items :=
  fun w => (Return (area a w), record (StorageGet a) w).

(** A rejected write leaves the area as it was. *)
Definition storageSet (a : Area) (items : Items)
    : Async (option (option jsstring)) :=
  fun w =>
    match setError a items w with
    | Some lastError => (Return (Some lastError), record (StorageSet a items) w)
    | None => (Return None, store a items (record (StorageSet a items) w))
    end.

(** ** getPrompts *)

(** [prompt.chunkCount && prompt.chunkCount > 0] *)
Definition hasChunkCount (prompt : Prompt) : bool :=
  match chunkCount prompt with
  | Some n => negb (n =? 0)%Z && (0 <? n)%Z
  | None => false
  end.

(** *** The callback of [savedPrompts.map] on the plain object

    [chunks] is a plain object. The read [chunks[prompt.id]] gives the own
    property of that name when there is one, and else what the object
    inherits from [Object.prototype] under that name: one of its methods,
    or under [__proto__] the prototype itself. *)
Inductive Found :=
  | FoundFragments (promptChunks : list jsstring)
  | FoundMethod (length : Z)   (* an inherited function and its [length] *)
  | FoundPrototype             (* [Object.prototype], which has no [length] *)
  | FoundNothing.              (* [undefined] *)

(** The [length] of the methods of [Object.prototype]. *)
Definition inheritedLength (key : jsstring) : option Z :=
  if bool_decide
       (key ∈ [js "constructor"; js "hasOwnProperty"; js "isPrototypeOf";
               js "propertyIsEnumerable"; js "__lookupGetter__";
               js "__lookupSetter__"])
  then Some 1%Z
  else if bool_decide (key ∈ [js "__defineGetter__"; js "__defineSetter__"])
  then Some 2%Z
  else if bool_decide (key ∈ [js "toString"; js "toLocaleString"; js "valueOf"])
  then Some 0%Z
  else None.

Definition readChunks (chunks : gmap jsstring (list jsstring))
    (key : jsstring) : Found :=
  match chunks !! key with
  | Some promptChunks => FoundFragments promptChunks
  | None =>
      if decide (key = PROTO) then FoundPrototype
      else match inheritedLength key with
           | Some n => FoundMethod n
           | None => FoundNothing
           end
  end.

(** [promptChunks && promptChunks.length === prompt.chunkCount] *)
Definition isComplete (found : Found) (count : option Z) : bool :=
  match found with
  | FoundFragments promptChunks =>
      bool_decide (Some (Z.of_nat (length promptChunks)) = count)
  | FoundMethod n => bool_decide (Some n = count)
  | FoundPrototype | FoundNothing => false
  end.

(** [reconstructPrompt] calls [chunks.join]; a method has none. *)
Definition joinIsNotAFunction : JsError :=
  ErrorObject (js "chunks.join is not a function").

Definition loadCallback (chunks : gmap jsstring (list jsstring))
    (prompt : Prompt) : Completion Prompt :=
  if hasChunkCount prompt then
    let promptChunks := readChunks chunks (id prompt) in
    if isComplete promptChunks (chunkCount prompt) then
      match promptChunks with
      | FoundFragments fragments => Return (reconstructPrompt prompt fragments)
      | _ => Throw joinIsNotAFunction
      end
    else
      Return
        {| id := id prompt; title := title prompt;
           content := Some CHUNKS_MISSING;
           tags := tags prompt;
           createdAt := createdAt prompt; updatedAt := updatedAt prompt;
           chunkCount := chunkCount prompt;
           originalSize := originalSize prompt |}
  else Return prompt.

(** [array.map(callback)] with a callback that may throw. *)
Fixpoint mapThrowing {A B} (callback : A -> Completion B) (l : list A)
    : Completion (list B) :=
  match l with
  | [] => Return []
  | a :: rest =>
      match callback a with
      | Throw e => Throw e
      | Return b =>
          match mapThrowing callback rest with
          | Throw e => Throw e
          | Return bs => Return (b :: bs)
          end
      end
  end.

(** The body of [processPrompts] up to the call of [resolve]. It runs in
    the callback of [storage.get]: when it throws, [resolve] is not
    called and the promise of [getPrompts] stays pending. *)
Definition processCallback (result : Items)
    : Completion (list Prompt * StorageType) :=
  let storageType := default local (STORAGE_TYPE result) in
  let savedPrompts := default [] (PROMPTS result) in
  let chunks := default ∅ (PROMPT_CHUNKS result) in
  match mapThrowing (loadCallback chunks) savedPrompts with
  | Throw e => Throw e
  | Return prompts => Return (prompts, storageType)
  end.

(** *** The load that settles

    [loadEntry] is the record that the callback returns for an entry whose
    fragments are read from the own properties of [chunks], and
    [getPrompts] the load on the stores for which the callback returns
    ([loadsOwn] and [processCallback_own] below). *)
Definition loadEntry (chunks : gmap jsstring (list jsstring)) (prompt : Prompt)
    : Prompt :=
  if hasChunkCount prompt then
    let missing :=
      {| id := id prompt; title := title prompt;
         content := Some CHUNKS_MISSING;
         tags := tags prompt;
         createdAt := createdAt prompt; updatedAt := updatedAt prompt;
         chunkCount := chunkCount prompt;
         originalSize := originalSize prompt |} in
    match chunks !! id prompt with
    | Some promptChunks =>
        if decide (Some (Z.of_nat (length promptChunks)) = chunkCount prompt)
        then reconstructPrompt prompt promptChunks
        else missing
    | None => missing
    end
  else prompt.

Definition processPrompts (result : Items) : list Prompt * StorageType :=
  let storageType := default local (STORAGE_TYPE result) in
  let savedPrompts := default [] (PROMPTS result) in
  let chunks := default ∅ (PROMPT_CHUNKS result) in
  (map (loadEntry chunks) savedPrompts, storageType).

Definition getPrompts : Async (list Prompt * StorageType) :=
  result ← storageGet SyncArea;
  if negb (bool_decide (is_Some (PROMPTS result)))
     && negb (bool_decide (is_Some (STORAGE_TYPE result)))
  then
    localResult ← storageGet LocalArea;
    resolve (processPrompts localResult)
  else resolve (processPrompts result).

(** ** savePrompts *)

(** [allTags.add(tag)] on a [Set], kept in insertion order. *)
Definition addTag (allTags : list jsstring) (tag : jsstring) : list jsstring :=
  if bool_decide (tag ∈ allTags) then allTags else allTags ++ [tag].

(** The first [forEach]: the union of the tags of all prompts. *)
Definition collectTags (prompts : list Prompt) : list jsstring :=
  foldl (fun allTags prompt =>
           match tags prompt with
           | Some ts => foldl addTag allTags ts
           | None => allTags
           end) [] prompts.

(** [allChunks[id] = chunks] on the object literal [allChunks]. The
    assignment to the key [__proto__] calls the setter that the object
    inherits from [Object.prototype]: it changes the prototype and adds no
    own property, and chrome.storage persists the own properties. Every
    other key becomes an own property. *)
Definition assignChunks (key : jsstring) (chunks : list jsstring)
    (allChunks : gmap jsstring (list jsstring))
    : gmap jsstring (list jsstring) :=
  if decide (key = PROTO) then allChunks else <[key := chunks]> allChunks.

Record Partition := {
  regularPrompts : list Prompt;
  chunkedPromptsMetadata : list Prompt;
  allChunks : gmap jsstring (list jsstring);
}.

Definition emptyPartition : Partition :=
  {| regularPrompts := []; chunkedPromptsMetadata := []; allChunks := ∅ |}.

(** The body of the second [forEach]. The log line reads
    [prompt.content.length] before anything else. *)
Definition partitionStep (acc : Partition) (prompt : Prompt)
    : Completion Partition :=
  match content prompt with
  | None => Throw cannotReadLength
  | Some _ =>
      if exceedsLimit prompt then
        match chunkPrompt prompt with
        | Throw e => Throw e
        | Return (Some metadata, chunks) =>
            if 0 <? length chunks then
              Return
                {| regularPrompts := regularPrompts acc;
                   chunkedPromptsMetadata :=
                     chunkedPromptsMetadata acc ++ [metadata];
                   allChunks :=
                     assignChunks (id prompt) chunks (allChunks acc) |}
            else Return acc
        | Return (None, _) => Return acc
        end
      else
        Return
          {| regularPrompts := regularPrompts acc ++ [prompt];
             chunkedPromptsMetadata := chunkedPromptsMetadata acc;
             allChunks := allChunks acc |}
  end.

Fixpoint partitionPrompts (acc : Partition) (prompts : list Prompt)
    : Completion Partition :=
  match prompts with
  | [] => Return acc
  | prompt :: rest =>
      match partitionStep acc prompt with
      | Return acc' => partitionPrompts acc' rest
      | Throw e => Throw e
      end
  end.

(** [dataToSave], or the exception thrown while it is built. *)
Definition dataToSave (prompts : list Prompt) (storageType : StorageType)
    : Completion Items :=
  let allTags := collectTags prompts in
  match partitionPrompts emptyPartition prompts with
  | Throw e => Throw e
  | Return acc =>
      Return
        {| PROMPTS := Some (regularPrompts acc ++ chunkedPromptsMetadata acc);
           STORAGE_TYPE := Some storageType;
           NOTION_CONFIG := None;
           SYNC_STATUS := None;
           TAGS := Some allTags;
           PROMPT_CHUNKS := Some (allChunks acc) |}
  end.

(** [message?.includes('QUOTA_BYTES') || message?.includes('QUOTA_BYTES_PER_ITEM')] *)
Definition isQuotaError (message : option jsstring) : bool :=
  match message with
  | Some m => includes m (js "QUOTA_BYTES") || includes m (js "QUOTA_BYTES_PER_ITEM")
  | None => false
  end.

Definition quotaExceeded : JsError :=
  ErrorObject
    (js "Storage quota exceeded. Please reduce prompt content size or clear some prompts.").

(** [storageType === 'local' ? chrome.storage.local : chrome.storage.sync] *)
Definition selectedStorage (storageType : StorageType) : Area :=
  if bool_decide (storageType = local) then LocalArea else SyncArea.

Definition savePrompts (prompts : list Prompt) (storageType : StorageType)
    : Async unit :=
  match dataToSave prompts storageType with
  | Throw e => reject e
  | Return data =>
      let storage := selectedStorage storageType in
      lastError ← storageSet storage data;
      match lastError with
      | Some message =>
          if negb (bool_decide (storageType = local)) && isQuotaError message
          then
            lastError' ← storageSet LocalArea data;
            match lastError' with
            | Some _ => reject quotaExceeded
            | None => resolve tt
            end
          else reject (LastError message)
      | None => resolve tt
      end
  end.

(** ** Notion configuration and sync status *)

Definition getNotionConfig : Async (option NotionConfig) :=
  result ← storageGet SyncArea;
  resolve (NOTION_CONFIG result).

Definition getSyncStatus : Async SyncStatus :=
  result ← storageGet SyncArea;
  resolve
    (default {| lastSynced := None; inProgress := false; error := None |}
       (SYNC_STATUS result)).

(** [Partial<SyncStatus>]: the properties the caller wrote. *)
Record SyncStatusPatch := {
  set_lastSynced : option (option Z);
  set_inProgress : option bool;
  set_error : option (option jsstring);
}.

(** [{ ...currentStatus, ...status }] *)
Definition patchStatus (current : SyncStatus) (status : SyncStatusPatch)
    : SyncStatus :=
  {| lastSynced := default (lastSynced current) (set_lastSynced status);
     inProgress := default (inProgress current) (set_inProgress status);
     error := default (error current) (set_error status) |}.

Definition updateSyncStatus (status : SyncStatusPatch) : Async unit :=
  currentStatus ← getSyncStatus;
  let newStatus := patchStatus currentStatus status in
  lastError ←
    storageSet SyncArea
      {| PROMPTS := None; STORAGE_TYPE := None; NOTION_CONFIG := None;
         SYNC_STATUS := Some newStatus; TAGS := None; PROMPT_CHUNKS := None |};
  match lastError with
  | Some message => reject (LastError message)
  | None => resolve tt
  end.

(** ** syncWithNotion *)

Definition Date_now : Async Z := fun w => (Return (now w), w).

(** [error instanceof Error ? error.message : "Unknown error during sync"] *)
Definition syncErrorText (e : JsError) : jsstring :=
  match e with
  | ErrorObject message => message
  | LastError _ => js "Unknown error during sync"
  end.

(** The [try] block. *)
Definition syncBody (prompts : list Prompt) : Async (list Prompt) :=
  _ ← updateSyncStatus
        {| set_lastSynced := None; set_inProgress := Some true;
           set_error := Some None |};
  syncedPrompts ← notionSync prompts;
  _ ← savePrompts syncedPrompts notion;
  t ← Date_now;
  _ ← updateSyncStatus
        {| set_lastSynced := Some (Some t); set_inProgress := Some false;
           set_error := None |};
  resolve syncedPrompts.

(** The [catch] block. *)
Definition syncFailed (e : JsError) : Async (list Prompt) :=
  _ ← updateSyncStatus
        {| set_lastSynced := None; set_inProgress := Some false;
           set_error := Some (Some (syncErrorText e)) |};
  reject e.

Definition notConfigured : JsError := ErrorObject (js "Notion is not configured").

Definition syncWithNotion : Async (list Prompt) :=
  '(prompts, _) ← getPrompts;
  config ← getNotionConfig;
  match config with
  | None => reject notConfigured
  | Some _ => tryCatch (syncBody prompts) syncFailed
  end.

(** ** searchPrompts *)

Definition cannotReadToLowerCase : JsError :=
  ErrorObject (js "Cannot read properties of undefined (reading 'toLowerCase')").

(** [tags.some((tag) => prompt.tags?.includes(tag))] *)
Definition someTagIncluded (required : list jsstring) (own : list jsstring)
    : bool :=
  existsb (fun tag => bool_decide (tag ∈ own)) required.

(** The callback of [prompts.filter]. *)
Definition searchMatches (normalizedQuery : jsstring) (required : list jsstring)
    (prompt : Prompt) : Completion bool :=
  let rejectedByTags :=
    (0 <? length required) &&
    match tags prompt with
    | None => true
    | Some own => negb (someTagIncluded required own)
    end in
  if rejectedByTags then Return false
  else if 0 <? length normalizedQuery then
    let titleMatch := includes (String_toLowerCase (title prompt)) normalizedQuery in
    match content prompt with
    | None => Throw cannotReadToLowerCase
    | Some c =>
        let contentMatch := includes (String_toLowerCase c) normalizedQuery in
        Return (titleMatch || contentMatch)
    end
  else Return true.

(** [array.filter(callback)] with a callback that may throw. *)
Fixpoint filterThrowing {A} (callback : A -> Completion bool) (l : list A)
    : Completion (list A) :=
  match l with
  | [] => Return []
  | a :: rest =>
      match callback a with
      | Throw e => Throw e
      | Return keep =>
          match filterThrowing callback rest with
          | Throw e => Throw e
          | Return kept => Return (if keep then a :: kept else kept)
          end
      end
  end.

Definition searchPrompts (query : jsstring) (required : list jsstring)
    : Async (list Prompt) :=
  '(prompts, _) ← getPrompts;
  if negb (0 <? length query) && (length required =? 0) then resolve prompts
  else
    let normalizedQuery := trim (String_toLowerCase query) in
    match filterThrowing (searchMatches normalizedQuery required) prompts with
    | Throw e => reject e
    | Return found => resolve found
    end.

(** ** importPromptsFromJson *)

(** A JavaScript [Map] keyed by id, in insertion order: [set] on a key
    that is present replaces the value where it stands. *)
Fixpoint mapSet (k : jsstring) (v : Prompt) (m : list (jsstring * Prompt))
    : list (jsstring * Prompt) :=
  match m with
  | [] => [(k, v)]
  | (k', v') :: m' =>
      if decide (k = k') then (k, v) :: m' else (k', v') :: mapSet k v m'
  end.

(** [new Map(entries)] continued by [forEach(p => map.set(p.id, p))]. *)
Definition setAll (m : list (jsstring * Prompt)) (prompts : list Prompt)
    : list (jsstring * Prompt) :=
  foldl (fun m p => mapSet (id p) p m) m prompts.

Definition mergePrompts (currentPrompts importedPrompts : list Prompt)
    : list Prompt :=
  let currentPromptsMap := setAll [] currentPrompts in
  map snd (setAll currentPromptsMap importedPrompts).

Definition nonEmpty (s : option jsstring) : bool :=
  match s with
  | Some (_ :: _) => true
  | _ => false
  end.

Definition invalidPrompt (index : nat) : JsError :=
  ErrorObject
    (js "Invalid prompt format at index " ++ integerToString (Z.of_nat index)
     ++ js ": Missing required fields (id, title, or content)").

Definition cannotReadId : JsError :=
  ErrorObject (js "Cannot read properties of null (reading 'id')").

(** The body of the validating [forEach]; an element that passes is the
    prompt the rest of the function works with. *)
Definition validateElement (index : nat) (element : JsonElement)
    : Completion Prompt :=
  match element with
  | ElNull => Throw cannotReadId
  | ElOther => Throw (invalidPrompt index)
  | ElObject r =>
      if negb (nonEmpty (raw_id r)) || negb (nonEmpty (raw_title r))
         || negb (nonEmpty (raw_content r))
      then Throw (invalidPrompt index)
      else
        Return
          {| id := default [] (raw_id r); title := default [] (raw_title r);
             content := raw_content r; tags := raw_tags r;
             createdAt := raw_createdAt r; updatedAt := raw_updatedAt r;
             chunkCount := raw_chunkCount r;
             originalSize := raw_originalSize r |}
  end.

Fixpoint validateFrom (index : nat) (elements : list JsonElement)
    : Completion (list Prompt) :=
  match elements with
  | [] => Return []
  | element :: rest =>
      match validateElement index element with
      | Throw e => Throw e
      | Return prompt =>
          match validateFrom (S index) rest with
          | Throw e => Throw e
          | Return prompts => Return (prompt :: prompts)
          end
      end
  end.

Definition notAnArray : JsError :=
  ErrorObject (js "Invalid format: Expected an array of prompts").

Definition importPromptsFromJson (json : jsstring) : Async (list Prompt) :=
  match JSON_parse json with
  | ParseSyntaxError message => reject (ErrorObject message)
  | ParsedNotArray => reject notAnArray
  | ParsedArray elements =>
      match validateFrom 0 elements with
      | Throw e => reject e
      | Return importedPrompts =>
          '(currentPrompts, storageType) ← getPrompts;
          let mergedPrompts := mergePrompts currentPrompts importedPrompts in
          _ ← savePrompts mergedPrompts storageType;
          resolve mergedPrompts
      end
  end.

End Storage.

(** ** A platform and inputs for the examples *)

Definition asciiLowerUnit (c : N) : N :=
  (if (65 <=? c) && (c <=? 90) then c + 32 else c)%N.

(** Lower case of a string of Basic Latin letters. *)
Definition asciiLower (s : jsstring) : jsstring := map asciiLowerUnit s.

Fixpoint fractionDigits (fuel : nat) (num den : Z) : jsstring :=
  match fuel with
  | O => []
  | S fuel' =>
      if (num =? 0)%Z then []
      else (48 + Z.to_N (num * 10 / den))%N
           :: fractionDigits fuel' ((num * 10) mod den)%Z den
  end.

(** A rational below 1e21 in absolute value with a short terminating
    expansion in decimal notation. *)
Definition decimalToString (q : Q) : jsstring :=
  let n := Z.abs (Qnum q) in
  let d := Z.pos (Qden q) in
  (if (Qnum q <? 0)%Z then js "-" else [])
  ++ integerToString (n / d)
  ++ (if (n mod d =? 0)%Z then [] else js "." ++ fractionDigits 20 (n mod d)%Z d).

(** A parser given by the table of the texts it is asked about. *)
Definition parseByTable (table : list (jsstring * Parsed)) (json : jsstring)
    : Parsed :=
  match list_find (fun entry => entry.1 = json) table with
  | Some (_, (_, parsed)) => parsed
  | None => ParseSyntaxError (js "Unexpected token")
  end.

Definition examplePlatform (table : list (jsstring * Parsed)) : Platform :=
  {| Number_toString := decimalToString;
     String_toLowerCase := asciiLower;
     JSON_parse := parseByTable table |}.

(** The large prompt of [test-chunking.js]: ten thousand letters, then a
    text with two emoji (two surrogate pairs). *)
Definition largePrompt : Prompt :=
  {| id := js "test-large-prompt";
     title := js "Test Large Prompt for Chunking";
     content :=
       Some (repeat 65%N (N.to_nat 10000) ++ js " Special content with emoji "
             ++ [55357; 56613; 55357; 56960]%N ++ js " and numbers 12345");
     tags := Some [js "test"; js "large"; js "chunking"];
     createdAt := Some 1700000000000%Z;
     updatedAt := Some 1700000000000%Z;
     chunkCount := None;
     originalSize := None |}.

(** The small prompt of [test-chunking.js]. *)
Definition smallPrompt : Prompt :=
  {| id := js "test-small-prompt";
     title := js "Test Small Prompt";
     content := Some (js "This is a small prompt that should not need chunking.");
     tags := Some [js "test"; js "small"];
     createdAt := Some 1700000000000%Z;
     updatedAt := Some 1700000000000%Z;
     chunkCount := None;
     originalSize := None |}.

(** A store in which a shell announces three fragments and two are there
    (the fourth testable property of the specification), next to a record
    stored whole. *)
Definition damagedShell : Prompt :=
  {| id := js "p1"; title := js "Damaged"; content := None;
     tags := Some [js "General"];
     createdAt := Some 1700000000000%Z; updatedAt := Some 1700000000000%Z;
     chunkCount := Some 3%Z; originalSize := Some (9 # 1) |}.

Definition damagedItems : Items :=
  {| PROMPTS := Some [damagedShell; smallPrompt];
     STORAGE_TYPE := Some notion;
     NOTION_CONFIG := None;
     SYNC_STATUS := None;
     TAGS := Some [js "General"; js "test"; js "small"];
     PROMPT_CHUNKS := Some {[ js "p1" := [js "first"; js "second"] ]} |}.

Definition damagedWorld : World :=
  {| syncArea := damagedItems; localArea := noItems; calls := [] |}.

(** A clock for the examples: it starts at a time of November 2023 and
    advances by a millisecond with each call on chrome.storage. *)
Definition wallClock (w : World) : Z :=
  (1700000000000 + Z.of_nat (length (calls w)))%Z.

(** Chrome refuses every write to the sync area for its quota, and accepts
    the writes to the local area. The Notion client returns what it is given. *)
Definition syncQuotaFull : Environment :=
  {| setError a _ _ :=
       match a with
       | SyncArea => Some (Some (js "QUOTA_BYTES quota exceeded"))
       | LocalArea => None
       end;
     notionSync prompts := resolve prompts;
     now := wallClock |}.

(** Every write fails, for a reason that is not the quota. *)
Definition storageBroken : Environment :=
  {| setError _ _ _ := Some (Some (js "IO error: lock held by another process"));
     notionSync prompts := resolve prompts;
     now := wallClock |}.

(** Every write goes through. *)
Definition storageWorks : Environment :=
  {| setError _ _ _ := None;
     notionSync prompts := resolve prompts;
     now := wallClock |}.

Definition emptyWorld : World :=
  {| syncArea := noItems; localArea := noItems; calls := [] |}.

(** The two malformed payloads of the specification,
    an object and an array whose element has only a title. *)
Definition quoted (s : string) : jsstring := [34%N] ++ js s ++ [34%N].

Definition notAnArrayText : jsstring :=
  js "{" ++ quoted "not" ++ js ":" ++ quoted "an array" ++ js "}".

Definition titleOnlyText : jsstring :=
  js "[{" ++ quoted "title" ++ js ":" ++ quoted "x" ++ js "}]".

Definition titleOnly : RawPrompt :=
  {| raw_id := None; raw_title := Some (js "x"); raw_content := None;
     raw_tags := None; raw_createdAt := None; raw_updatedAt := None;
     raw_chunkCount := None; raw_originalSize := None |}.

Definition malformedTexts : list (jsstring * Parsed) :=
  [(notAnArrayText, ParsedNotArray);
   (titleOnlyText, ParsedArray [ElObject titleOnly])].

(** A store with one short record, for the search examples. *)
Definition shortPrompt : Prompt :=
  {| id := js "p2"; title := js "a"; content := Some (js "b");
     tags := None; createdAt := Some 1700000000000%Z;
     updatedAt := Some 1700000000000%Z;
     chunkCount := None; originalSize := None |}.

Definition shortWorld : World :=
  {| syncArea :=
       {| PROMPTS := Some [shortPrompt]; STORAGE_TYPE := Some notion;
          NOTION_CONFIG := None; SYNC_STATUS := None; TAGS := Some [];
          PROMPT_CHUNKS := Some ∅ |};
     localArea := noItems; calls := [] |}.

(** The Notion client fails; chrome.storage works. *)
Definition notionDown : Environment :=
  {| setError _ _ _ := None;
     notionSync _ := reject (ErrorObject (js "Notion API request failed"));
     now := wallClock |}.

(** The prompts cannot be written, for a reason that is not the quota;
    the other keys can. *)
Definition promptsNotWritable : Environment :=
  {| setError _ items _ :=
       if bool_decide (is_Some (PROMPTS items))
       then Some (Some (js "IO error: lock held by another process"))
       else None;
     notionSync prompts := resolve prompts;
     now := wallClock |}.

(** The one-record store, with a Notion credential. *)
Definition configuredWorld : World :=
  {| syncArea :=
       {| PROMPTS := Some [shortPrompt]; STORAGE_TYPE := Some notion;
          NOTION_CONFIG := Some {| apiKey := js "secret"; pageId := js "page" |};
          SYNC_STATUS := None; TAGS := Some [];
          PROMPT_CHUNKS := Some ∅ |};
     localArea := noItems; calls := [] |}.

(** A record of more than 7 KB whose content is empty: the title alone
    has eight thousand letters. *)
Definition emptyOversized : Prompt :=
  {| id := js "p3"; title := repeat 84%N (N.to_nat 8000); content := Some [];
     tags := Some [js "General"];
     createdAt := Some 1700000000000%Z; updatedAt := Some 1700000000000%Z;
     chunkCount := None; originalSize := None |}.

(** ** Notions used in the statements *)

(** The area whose content [processPrompts] is given: the sync area, or the
    local area when the sync area has neither prompts nor a storage type. *)
Definition consulted (w : World) : Items :=
  if negb (bool_decide (is_Some (PROMPTS (syncArea w))))
     && negb (bool_decide (is_Some (STORAGE_TYPE (syncArea w))))
  then localArea w else syncArea w.

Definition readsOf (w : World) : list Event :=
  if negb (bool_decide (is_Some (PROMPTS (syncArea w))))
     && negb (bool_decide (is_Some (STORAGE_TYPE (syncArea w))))
  then [StorageGet SyncArea; StorageGet LocalArea] else [StorageGet SyncArea].

Definition afterCalls (events : list Event) (w : World) : World :=
  {| syncArea := syncArea w; localArea := localArea w;
     calls := calls w ++ events |}.

(** The content of an area with another list of stored entries. *)
Definition withPrompts (entries : list Prompt) (items : Items) : Items :=
  {| PROMPTS := Some entries; STORAGE_TYPE := STORAGE_TYPE items;
     NOTION_CONFIG := NOTION_CONFIG items; SYNC_STATUS := SYNC_STATUS items;
     TAGS := TAGS items; PROMPT_CHUNKS := PROMPT_CHUNKS items |}.

(** The read [chunks[prompt.id]] of the callback finds what [loadEntry]
    reads: an own property or, when there is none, nothing that passes for
    the fragments of the entry (no method of [Object.prototype] whose
    [length] is the [chunkCount] of the entry). *)
Definition readsOwn (chunks : gmap jsstring (list jsstring)) (entry : Prompt)
    : Prop :=
  hasChunkCount entry = true -> chunks !! id entry = None ->
  inheritedLength (id entry) <> chunkCount entry.

(** The content of an area on which the callback of the load returns. *)
Definition loadsOwn (items : Items) : Prop :=
  Forall (readsOwn (default ∅ (PROMPT_CHUNKS items)))
    (default [] (PROMPTS items)).

(** A key under which a plain object inherits nothing. *)
Definition ownKey (key : jsstring) : Prop :=
  key <> PROTO /\ inheritedLength key = None.

(** The error-sentinel record of [processPrompts]. *)
Definition chunksMissing (prompt : Prompt) : Prompt :=
  {| id := id prompt; title := title prompt; content := Some CHUNKS_MISSING;
     tags := tags prompt; createdAt := createdAt prompt;
     updatedAt := updatedAt prompt; chunkCount := chunkCount prompt;
     originalSize := originalSize prompt |}.

(** Unfolds the sequencing of asynchronous calls. *)
Ltac run :=
  unfold mbind, Async_bind, await, tryCatch, resolve, reject; simpl.


(** An element of an imported array lacks a non-empty [id], [title] or
    [content]. *)
Definition missingOrEmpty (s : option jsstring) : Prop := s = None \/ s = Some [].

Definition lacksRequiredField (element : JsonElement) : Prop :=
  match element with
  | ElObject r =>
      missingOrEmpty (raw_id r) \/ missingOrEmpty (raw_title r)
      \/ missingOrEmpty (raw_content r)
  | ElNull | ElOther => True
  end.

(** The records [getPrompts] returns in a state of the world. *)
Definition loaded (w : World) : list Prompt := (processPrompts (consulted w)).1.


Definition isSubstringOf (t s : jsstring) : Prop :=
  exists before after, s = before ++ t ++ after.

Section SearchCriteria.
Context {platform : Platform}.






End SearchCriteria.

(** The sync status [getSyncStatus] returns in a state of the world. *)
Definition currentStatus (w : World) : SyncStatus :=
  default {| lastSynced := None; inProgress := false; error := None |}
    (SYNC_STATUS (syncArea w)).

(** The state in which the [try] block of [syncWithNotion] starts: the
    prompts and the configuration have been read. *)
Definition beforeSync (w : World) : World :=
  afterCalls (readsOf w ++ [StorageGet SyncArea]) w.

(** The argument of [updateSyncStatus] in the [catch] block. *)
Definition failurePatch (e : JsError) : SyncStatusPatch :=
  {| set_lastSynced := None; set_inProgress := Some false;
     set_error := Some (Some (syncErrorText e)) |}.

(** ** What [savePrompts] makes of each prompt *)

Section Partition.
Context {platform : Platform}.

Definition contentOf (prompt : Prompt) : jsstring := default [] (content prompt).

(** Stored whole. *)
Definition isRegular (prompt : Prompt) : bool := negb (exceedsLimit prompt).

(** Stored as a shell and fragments. *)
Definition isChunked (prompt : Prompt) : bool :=
  exceedsLimit prompt && (0 <? length (splitContent (contentOf prompt))).

(** The metadata shell [chunkPrompt] makes. *)
Definition shellOf (prompt : Prompt) : Prompt :=
  {| id := id prompt; title := title prompt; content := None;
     tags := tags prompt; createdAt := createdAt prompt;
     updatedAt := updatedAt prompt;
     chunkCount := Some (Z.of_nat (length (splitContent (contentOf prompt))));
     originalSize := Some (promptSizeKB prompt) |}.

Definition insertChunks (chunks : gmap jsstring (list jsstring))
    (prompt : Prompt) : gmap jsstring (list jsstring) :=
  assignChunks (id prompt) (splitContent (contentOf prompt)) chunks.

End Partition.

(** ** Notions for the merge of an import *)

(** [map.get(k)] *)
Fixpoint mapGet (m : list (jsstring * Prompt)) (k : jsstring) : option Prompt :=
  match m with
  | [] => None
  | (k', v) :: m' => if decide (k = k') then Some v else mapGet m' k
  end.

(** The last prompt of a list that has the id [k]. *)
Fixpoint latest (prompts : list Prompt) (k : jsstring) : option Prompt :=
  match prompts with
  | [] => None
  | prompt :: rest =>
      match latest rest k with
      | Some later => Some later
      | None => if decide (id prompt = k) then Some prompt else None
      end
  end.

Definition entryOf (prompt : Prompt) : jsstring * Prompt := (id prompt, prompt).

(** The value of an entry after the prompts of [imported] have been set. *)
Definition overwrittenBy (imported : list Prompt) (prompt : Prompt) : Prompt :=
  default prompt (latest imported (id prompt)).

Section ImportNotions.
Context {platform : Platform}.

(** A record of the data model: it has a content, the storage layer's
    [chunkCount] and [originalSize] are absent, and if it is above the
    threshold its content is not empty (what [savePrompts] requires to
    store it). *)
Definition isRecord (prompt : Prompt) : Prop :=
  content prompt <> None
  /\ chunkCount prompt = None
  /\ originalSize prompt = None
  /\ (exceedsLimit prompt = true -> content prompt <> Some []).

(** The prompt [reconstructPrompt] gives for the shell and the fragments
    of a prompt. *)
Definition rebuilt (prompt : Prompt) : Prompt :=
  reconstructPrompt (shellOf prompt) (splitContent (contentOf prompt)).

(** What [savePrompts] stores for a list of prompts that all have a
    content, and what [getPrompts] makes of it. *)
Definition storedPrompts (prompts : list Prompt) : list Prompt :=
  List.filter isRegular prompts ++ map shellOf (List.filter isChunked prompts).

Definition storedChunks (prompts : list Prompt) : gmap jsstring (list jsstring) :=
  foldl insertChunks ∅ (List.filter isChunked prompts).

Definition storedItems (prompts : list Prompt) (storageType : StorageType)
    : Items :=
  {| PROMPTS := Some (storedPrompts prompts);
     STORAGE_TYPE := Some storageType;
     NOTION_CONFIG := None;
     SYNC_STATUS := None;
     TAGS := Some (collectTags prompts);
     PROMPT_CHUNKS := Some (storedChunks prompts) |}.

Definition loadedAfter (prompts : list Prompt) : list Prompt :=
  map (loadEntry (storedChunks prompts)) (storedPrompts prompts).

(** The record [getPrompts] returns for a prompt that [savePrompts] has
    stored, when the ids of the stored prompts are distinct: a regular
    prompt comes back as it is, or with the error text as content if it
    carries a positive [chunkCount] (no fragments are stored for it); a
    chunked prompt comes back rebuilt. *)
Definition reloaded (prompt : Prompt) : Prompt :=
  if isRegular prompt then
    if hasChunkCount prompt then chunksMissing prompt else prompt
  else rebuilt prompt.

(** Two stored tag lists have the same members. *)
Definition sameTags (stored stored' : option (list jsstring)) : Prop :=
  match stored, stored' with
  | Some ts, Some ts' => forall tag, In tag ts <-> In tag ts'
  | None, None => True
  | _, _ => False
  end.

(** The two areas hold the same collection in two states of the world:
    the same entries, fragments, storage type, Notion configuration and
    sync status, and a tag index with the same members. *)
Definition sameCollection (w w' : World) : Prop :=
  forall a,
    PROMPTS (area a w) = PROMPTS (area a w')
    /\ PROMPT_CHUNKS (area a w) = PROMPT_CHUNKS (area a w')
    /\ STORAGE_TYPE (area a w) = STORAGE_TYPE (area a w')
    /\ NOTION_CONFIG (area a w) = NOTION_CONFIG (area a w')
    /\ SYNC_STATUS (area a w) = SYNC_STATUS (area a w')
    /\ sameTags (TAGS (area a w)) (TAGS (area a w')).

End ImportNotions.

(** ** An import for the examples *)

(** An array of two prompts: one replaces the record of [shortWorld], the
    other is new. *)
Definition importedShort : RawPrompt :=
  {| raw_id := Some (js "p2"); raw_title := Some (js "a, imported");
     raw_content := Some (js "imported content");
     raw_tags := Some [js "Imported"]; raw_createdAt := Some 1700000000001%Z;
     raw_updatedAt := Some 1700000000002%Z;
     raw_chunkCount := None; raw_originalSize := None |}.

Definition importedNew : RawPrompt :=
  {| raw_id := Some (js "p4"); raw_title := Some (js "New");
     raw_content := Some (js "new content");
     raw_tags := Some [js "Writing"]; raw_createdAt := None;
     raw_updatedAt := None;
     raw_chunkCount := None; raw_originalSize := None |}.

(** The text stands for the JSON text of the array; the table parser maps
    it to the parsed array. *)
Definition importText : jsstring := js "[p2, p4]".

Definition importTexts : list (jsstring * Parsed) :=
  [(importText, ParsedArray [ElObject importedShort; ElObject importedNew])].

(** The prompts that the validation makes of the two elements. *)
Definition importedPrompts : list Prompt :=
  match validateFrom 0 [ElObject importedShort; ElObject importedNew] with
  | Return prompts => prompts
  | Throw _ => []
  end.

(** A store that holds the large prompt of the test script in fragments. *)
Definition chunkedWorld : World :=
  {| syncArea := storedItems (platform := examplePlatform importTexts)
                   [largePrompt] notion;
     localArea := noItems; calls := [] |}.

#[global] Instance Area_eq_dec : EqDecision Area.
Proof. solve_decision. Defined.

(** ** Tags and Notion configuration (the other exports of storage.ts) *)

Definition DEFAULT_TAGS : list jsstring :=
  [js "General"; js "Education & Learning"; js "Personal";
   js "Coding & Development"; js "AI Roleplay & Agents"; js "Writing";
   js "Research"; js "Design"].

(** [!tags || tags.length === 0] *)
Definition noTags (stored : option (list jsstring)) : bool :=
  match stored with
  | None => true
  | Some ts => length ts =? 0
  end.

Section TagsAndConfig.
Context {environment : Environment}.

Definition getAllTags : Async (list jsstring) :=
  result ← storageGet SyncArea;
  let savedTags := TAGS result in
  if noTags savedTags then resolve DEFAULT_TAGS
  else resolve (default [] savedTags).

Definition initializeDefaultTags : Async unit :=
  result ← storageGet SyncArea;
  let existingTags := TAGS result in
  if noTags existingTags then
    lastError ←
      storageSet SyncArea
        {| PROMPTS := None; STORAGE_TYPE := None; NOTION_CONFIG := None;
           SYNC_STATUS := None; TAGS := Some DEFAULT_TAGS;
           PROMPT_CHUNKS := None |};
    match lastError with
    | Some message => reject (LastError message)
    | None => resolve tt
    end
  else resolve tt.

Definition saveNotionConfig (config : NotionConfig) : Async unit :=
  lastError ←
    storageSet SyncArea
      {| PROMPTS := None; STORAGE_TYPE := None; NOTION_CONFIG := Some config;
         SYNC_STATUS := None; TAGS := None; PROMPT_CHUNKS := None |};
  match lastError with
  | Some message => reject (LastError message)
  | None => resolve tt
  end.

End TagsAndConfig.

(** ** formatLastSyncTime (the settings component) *)

Section LastSyncTime.
(** [Date.prototype.toLocaleString] of the date of a time stamp *)
Variable toLocaleString : Z -> jsstring.

(** [now] is [new Date().getTime()], and a time stamp is a time value as
    [Date.now()] gives it: an integer of the range of [Date]. On these the
    division by [1000 * 60] under [Math.floor] is the floor division of
    integers; the test [diffInMinutes / 60 < 2] compares the exact
    quotient. *)
Definition formatLastSyncTime (now : Z) (timestamp : option Z) : jsstring :=
  match timestamp with
  | None => js "Never"
  | Some t =>
      if (t =? 0)%Z then js "Never"
      else
        let diffInMinutes := ((now - t) / (1000 * 60))%Z in
        if (diffInMinutes <? 1)%Z then js "Just now"
        else if (diffInMinutes <? 60)%Z then
          integerToString diffInMinutes ++ js " minute"
          ++ (if (diffInMinutes =? 1)%Z then [] else js "s") ++ js " ago"
        else if (diffInMinutes <? 24 * 60)%Z then
          integerToString (diffInMinutes / 60)%Z ++ js " hour"
          ++ (if negb (Qle_bool (2 # 1) (diffInMinutes # 60)) then []
              else js "s")
          ++ js " ago"
        else toLocaleString t
  end.

End LastSyncTime.


(** ** An import with an invalid element *)

(** The text stands for the JSON text of an array whose second element
    has only a title and whose third is [null]. *)
Definition invalidSecondText : jsstring := js "[p2, {title}, null]".

Definition invalidSecondTexts : list (jsstring * Parsed) :=
  [(invalidSecondText,
    ParsedArray [ElObject importedShort; ElObject titleOnly; ElNull])].

(** ** Notions for the statements on tags, configuration and status *)

(** The keys of an area other than the tags are the same. *)
Definition sameButTags (items items' : Items) : Prop :=
  PROMPTS items' = PROMPTS items
  /\ STORAGE_TYPE items' = STORAGE_TYPE items
  /\ NOTION_CONFIG items' = NOTION_CONFIG items
  /\ SYNC_STATUS items' = SYNC_STATUS items
  /\ PROMPT_CHUNKS items' = PROMPT_CHUNKS items.

(** The keys of an area other than the Notion configuration are the same. *)
Definition sameButConfig (items items' : Items) : Prop :=
  PROMPTS items' = PROMPTS items
  /\ STORAGE_TYPE items' = STORAGE_TYPE items
  /\ SYNC_STATUS items' = SYNC_STATUS items
  /\ TAGS items' = TAGS items
  /\ PROMPT_CHUNKS items' = PROMPT_CHUNKS items.

(** The keys of an area other than the sync status are the same. *)
Definition sameButStatus (items items' : Items) : Prop :=
  PROMPTS items' = PROMPTS items
  /\ STORAGE_TYPE items' = STORAGE_TYPE items
  /\ NOTION_CONFIG items' = NOTION_CONFIG items
  /\ TAGS items' = TAGS items
  /\ PROMPT_CHUNKS items' = PROMPT_CHUNKS items.

(** ** Notions for the statement on a sync that succeeds *)

(** The argument of [set] in [updateSyncStatus]. *)
Definition statusItems (status : SyncStatus) : Items :=
  {| PROMPTS := None; STORAGE_TYPE := None; NOTION_CONFIG := None;
     SYNC_STATUS := Some status; TAGS := None; PROMPT_CHUNKS := None |}.

(** The state in which [syncWithNotion] calls the Notion client, when the
    write of the status went through: the status says that a sync is in
    progress and holds no error. *)
Definition syncStarted (w : World) : World :=
  let items :=
    statusItems {| lastSynced := lastSynced (currentStatus w);
                   inProgress := true; error := None |} in
  store SyncArea items
    (afterCalls [StorageGet SyncArea; StorageSet SyncArea items] (beforeSync w)).

(** ** An import whose id names an inherited method *)

(** A valid element with the id constructor and a [chunkCount] of 1. *)
Definition importedConstructor : RawPrompt :=
  {| raw_id := Some (js "constructor"); raw_title := Some (js "t");
     raw_content := Some (js "c"); raw_tags := None;
     raw_createdAt := None; raw_updatedAt := None;
     raw_chunkCount := Some 1%Z; raw_originalSize := None |}.

(** The text stands for the JSON text of the array of that element. *)
Definition constructorText : jsstring := js "[constructor]".

Definition constructorTexts : list (jsstring * Parsed) :=
  [(constructorText, ParsedArray [ElObject importedConstructor])].

(** ** A prompt with the id __proto__ *)

(** The large prompt of the test script under the id [__proto__]. *)
Definition protoPrompt : Prompt :=
  {| id := PROTO; title := title largePrompt; content := content largePrompt;
     tags := tags largePrompt; createdAt := createdAt largePrompt;
     updatedAt := updatedAt largePrompt;
     chunkCount := None; originalSize := None |}.

(** ** A store with a shell that has lost its fragments *)

(** The only entry is a shell with a title of eight thousand letters; it
    announces three fragments, and none is stored. *)
Definition staleShell : Prompt :=
  {| id := js "p5"; title := repeat 84%N (N.to_nat 8000); content := None;
     tags := Some [js "General"];
     createdAt := Some 1700000000000%Z; updatedAt := Some 1700000000000%Z;
     chunkCount := Some 3%Z; originalSize := Some (9 # 1) |}.

Definition staleWorld : World :=
  {| syncArea :=
       {| PROMPTS := Some [staleShell]; STORAGE_TYPE := Some notion;
          NOTION_CONFIG := None; SYNC_STATUS := None;
          TAGS := Some [js "General"]; PROMPT_CHUNKS := Some ∅ |};
     localArea := noItems; calls := [] |}.
(** * Properties *)

(** ** The chunking loop *)

Section ChunkLoop.
Variable size : nat.
Hypothesis size_pos : 0 < size.

Lemma chunkLoop_acc fuel content i chunks :
  chunkLoop size fuel content i chunks
  = chunks ++ chunkLoop size fuel content i [].
Proof.
  revert i chunks. induction fuel as [|fuel IH]; intros i chunks; simpl.
  - by rewrite app_nil_r.
  - destruct (i <? length content); [|by rewrite app_nil_r].
    rewrite (IH _ (chunks ++ _)), (IH _ [_]). by rewrite <- app_assoc.
Qed.

Lemma chunkLoop_step fuel content i :
  i < length content ->
  chunkLoop size (S fuel) content i []
  = slice content i (i + size) :: chunkLoop size fuel content (i + size) [].
Proof.
  intros Hi. simpl. apply Nat.ltb_lt in Hi. rewrite Hi.
  by rewrite chunkLoop_acc.
Qed.

Lemma chunkLoop_done fuel content i :
  length content <= i -> chunkLoop size fuel content i [] = [].
Proof.
  intros Hi. destruct fuel; [done|]. simpl.
  apply Nat.ltb_ge in Hi. by rewrite Hi.
Qed.

(** More fuel than pending code units changes nothing: the loop has left
    through its test, not through the fuel. *)
Lemma chunkLoop_fuel fuel fuel' content i :
  length content - i <= fuel -> length content - i <= fuel' ->
  chunkLoop size fuel content i [] = chunkLoop size fuel' content i [].
Proof.
  revert fuel' i. induction fuel as [|fuel IH]; intros fuel' i Hf Hf'.
  - rewrite !chunkLoop_done by lia. done.
  - destruct (decide (i < length content)) as [Hi|Hi].
    + destruct fuel' as [|fuel']; [lia|].
      rewrite !chunkLoop_step by done. f_equal. apply IH; lia.
    + rewrite !chunkLoop_done by lia. done.
Qed.

Lemma slice_length content i :
  i < length content ->
  0 < length (slice content i (i + size)) <= size.
Proof.
  intros Hi. unfold slice. rewrite length_take, length_drop. lia.
Qed.

Lemma slice_full content i :
  i + size <= length content -> length (slice content i (i + size)) = size.
Proof.
  intros Hi. unfold slice. rewrite length_take, length_drop. lia.
Qed.

Lemma slice_drop content i :
  slice content i (i + size) ++ drop (i + size) content = drop i content.
Proof.
  unfold slice. replace (i + size - i) with size by lia.
  rewrite <- (take_drop size (drop i content)) at 2.
  by rewrite drop_drop.
Qed.

Lemma chunkLoop_concat fuel content i :
  length content - i <= fuel ->
  concat (chunkLoop size fuel content i []) = drop i content.
Proof.
  revert i. induction fuel as [|fuel IH]; intros i Hf.
  - simpl. rewrite drop_ge by lia. done.
  - destruct (decide (i < length content)) as [Hi|Hi].
    + rewrite chunkLoop_step by done. simpl.
      rewrite IH by lia. apply slice_drop.
    + rewrite chunkLoop_done by lia. rewrite drop_ge by lia. done.
Qed.

Lemma chunkLoop_bounds fuel content i :
  Forall (fun chunk => 0 < length chunk <= size)
    (chunkLoop size fuel content i []).
Proof.
  revert i. induction fuel as [|fuel IH]; intros i; [constructor|].
  destruct (decide (i < length content)) as [Hi|Hi].
  - rewrite chunkLoop_step by done. constructor; [|apply IH].
    by apply slice_length.
  - rewrite chunkLoop_done by lia. constructor.
Qed.

(** Every fragment that is followed by another one is full. *)
Lemma chunkLoop_full fuel content i k chunk :
  chunkLoop size fuel content i [] !! k = Some chunk ->
  S k < length (chunkLoop size fuel content i []) ->
  length chunk = size.
Proof.
  revert i k. induction fuel as [|fuel IH]; intros i k; [done|].
  destruct (decide (i < length content)) as [Hi|Hi].
  - rewrite chunkLoop_step by done.
    destruct k as [|k]; simpl.
    + intros [= <-] Hlen. apply slice_full.
      destruct (decide (i + size < length content)) as [Hn|Hn]; [lia|].
      rewrite chunkLoop_done in Hlen by lia. simpl in Hlen. lia.
    + intros Hk Hlen. apply (IH (i + size) k); [done|lia].
  - rewrite chunkLoop_done by lia. done.
Qed.

(** The number of fragments is the length divided by the size, rounded up. *)
Lemma chunkLoop_length fuel content i :
  length content - i <= fuel ->
  length (chunkLoop size fuel content i [])
  = (length content - i + size - 1) / size.
Proof.
  revert i. induction fuel as [|fuel IH]; intros i Hf.
  - simpl. replace (length content - i + size - 1) with (size - 1) by lia.
    rewrite Nat.div_small; lia.
  - destruct (decide (i < length content)) as [Hi|Hi].
    + rewrite chunkLoop_step by done. simpl.
      destruct (decide (i + size <= length content)) as [Hn|Hn].
      * rewrite IH by lia.
        replace (length content - i + size - 1)
          with (1 * size + (length content - (i + size) + size - 1)) by lia.
        rewrite Nat.div_add_l by lia. lia.
      * rewrite chunkLoop_done by lia. simpl.
        apply (Nat.div_unique _ _ 1 (length content - i - 1)); lia.
    + rewrite chunkLoop_done by lia.
      replace (length content - i + size - 1) with (size - 1) by lia.
      rewrite Nat.div_small; simpl; lia.
Qed.

End ChunkLoop.

(** ** chunkPrompt and reconstructPrompt *)

Section ChunkingProperties.
Context {platform : Platform}.

Lemma exceedsLimit_true prompt :
  (MAX_PROMPT_SIZE_KB < promptSizeKB prompt)%Q <-> exceedsLimit prompt = true.
Proof.
  unfold exceedsLimit. rewrite negb_true_iff.
  destruct (Qle_bool _ _) eqn:E.
  - apply Qle_bool_iff in E. split; [|done].
    intros Hlt. by apply Qlt_not_le in Hlt.
  - split; [done|]. intros _. apply Qnot_le_lt. intros Hle.
    apply Qle_bool_iff in Hle. congruence.
Qed.

Lemma chunkPrompt_large prompt c :
  content prompt = Some c ->
  exceedsLimit prompt = true ->
  chunkPrompt prompt
  = Return
      (Some {| id := id prompt; title := title prompt; content := None;
               tags := tags prompt; createdAt := createdAt prompt;
               updatedAt := updatedAt prompt;
               chunkCount := Some (Z.of_nat (length (splitContent c)));
               originalSize := Some (promptSizeKB prompt) |},
       splitContent c).
Proof.
  intros Hc Hbig. unfold chunkPrompt. unfold exceedsLimit in Hbig.
  apply negb_true_iff in Hbig. by rewrite Hbig, Hc.
Qed.

Lemma chunkPrompt_small prompt :
  exceedsLimit prompt = false -> chunkPrompt prompt = Return (None, []).
Proof.
  unfold exceedsLimit, chunkPrompt. rewrite negb_false_iff. by intros ->.
Qed.

Lemma splitContent_join c : joinEmpty (splitContent c) = c.
Proof.
  unfold joinEmpty, splitContent.
  rewrite chunkLoop_concat; [done| |lia].
  unfold CHUNK_SIZE_CHARS. lia.
Qed.

Lemma splitContent_bounds c :
  Forall (fun chunk => 0 < length chunk <= CHUNK_SIZE_CHARS) (splitContent c).
Proof. apply chunkLoop_bounds. unfold CHUNK_SIZE_CHARS. lia. Qed.

Lemma splitContent_nil c : splitContent c = [] <-> c = [].
Proof.
  split.
  - intros Hs. rewrite <- (splitContent_join c), Hs. done.
  - intros ->. done.
Qed.

(** C6: a record above the threshold is split into fragments of at most
    3000 code units, every fragment but the last of exactly 3000; joined in
    order they give back the content, and their number is the [chunkCount]
    of the metadata shell. *)
Theorem chunkPrompt_fragments prompt c :
  content prompt = Some c ->
  (MAX_PROMPT_SIZE_KB < promptSizeKB prompt)%Q ->
  exists metadata chunks,
    chunkPrompt prompt = Return (Some metadata, chunks)
    /\ joinEmpty chunks = c
    /\ Forall (fun chunk => length chunk <= 3000) chunks
    /\ (forall k chunk,
          chunks !! k = Some chunk -> S k < length chunks ->
          length chunk = 3000)
    /\ chunkCount metadata = Some (Z.of_nat (length chunks)).
Proof.
  intros Hc Hbig. apply exceedsLimit_true in Hbig.
  eexists _, _. split; [by apply chunkPrompt_large|].
  split; [apply splitContent_join|]. split; [|split; [|done]].
  - eapply Forall_impl; [apply splitContent_bounds|].
    intros chunk [_ Hle]. exact Hle.
  - intros k chunk Hk Hlen.
    unfold splitContent in Hk, Hlen.
    eapply (chunkLoop_full CHUNK_SIZE_CHARS); [|exact Hk|exact Hlen].
    unfold CHUNK_SIZE_CHARS. lia.
Qed.

(** C1: for a record above the threshold, rebuilding from the metadata
    shell and the fragments of [chunkPrompt] gives back the id, the title,
    the tags, the time stamps and, unchanged, the content, and leaves the
    storage layer's [chunkCount] and [originalSize] undefined; for a record
    of the data model, which does not carry these two, the result is the
    record itself, every field equal. *)
Theorem reconstruct_chunk_roundtrip prompt c :
  content prompt = Some c ->
  (MAX_PROMPT_SIZE_KB < promptSizeKB prompt)%Q ->
  exists metadata chunks,
    chunkPrompt prompt = Return (Some metadata, chunks)
    /\ reconstructPrompt metadata chunks
       = {| id := id prompt; title := title prompt; content := Some c;
            tags := tags prompt; createdAt := createdAt prompt;
            updatedAt := updatedAt prompt;
            chunkCount := None; originalSize := None |}
    /\ (chunkCount prompt = None -> originalSize prompt = None ->
        reconstructPrompt metadata chunks = prompt).
Proof.
  intros Hc Hbig. apply exceedsLimit_true in Hbig.
  eexists _, _. split; [by apply chunkPrompt_large|].
  unfold reconstructPrompt. simpl. rewrite splitContent_join.
  split; [done|]. intros Hcount Hsize.
  destruct prompt; simpl in *. by subst.
Qed.

End ChunkingProperties.

Lemma chunkPrompt_fragments_witness :
  exists metadata chunks,
    chunkPrompt (platform := examplePlatform []) largePrompt
    = Return (Some metadata, chunks)
    /\ joinEmpty chunks = default [] (content largePrompt)
    /\ Forall (fun chunk => length chunk <= 3000) chunks
    /\ (forall k chunk,
          chunks !! k = Some chunk -> S k < length chunks ->
          length chunk = 3000)
    /\ chunkCount metadata = Some (Z.of_nat (length chunks)).
Proof.
  apply (chunkPrompt_fragments (platform := examplePlatform []) largePrompt).
  - reflexivity.
  - vm_compute. reflexivity.
Defined.

Lemma reconstruct_chunk_roundtrip_witness :
  exists metadata chunks,
    chunkPrompt (platform := examplePlatform []) largePrompt
    = Return (Some metadata, chunks)
    /\ reconstructPrompt metadata chunks = largePrompt.
Proof.
  destruct (reconstruct_chunk_roundtrip (platform := examplePlatform [])
              largePrompt (default [] (content largePrompt)))
    as (metadata & chunks & Hchunk & _ & Hsame).
  - reflexivity.
  - vm_compute. reflexivity.
  - exists metadata, chunks. split; [exact Hchunk|].
    apply Hsame; reflexivity.
Defined.

(** The test script's expectations: four fragments of 3000, 3000, 3000 and
    1050 code units for the large prompt, none for the small one. *)
Example largePrompt_chunks :
  match chunkPrompt (platform := examplePlatform []) largePrompt with
  | Return (Some metadata, chunks) =>
      map length chunks = [3000; 3000; 3000; 1050]
      /\ chunkCount metadata = Some 4%Z
  | _ => False
  end.
Proof. vm_compute. split; reflexivity. Qed.

Example smallPrompt_not_chunked :
  chunkPrompt (platform := examplePlatform []) smallPrompt = Return (None, []).
Proof. vm_compute. reflexivity. Qed.

(** ** getPrompts *)

(** [getPrompts] always resolves, and changes nothing in the two areas. *)
Lemma getPrompts_run w :
  getPrompts w = (Return (processPrompts (consulted w)), afterCalls (readsOf w) w).
Proof.
  unfold getPrompts, consulted, readsOf, storageGet. run.
  destruct (negb _ && negb _); simpl; unfold afterCalls, record; simpl;
    by rewrite <- ?app_assoc.
Qed.

Lemma hasChunkCount_true prompt :
  hasChunkCount prompt = true <-> exists n, chunkCount prompt = Some n /\ (0 < n)%Z.
Proof.
  unfold hasChunkCount. destruct (chunkCount prompt) as [n|].
  - rewrite andb_true_iff, negb_true_iff, Z.eqb_neq, Z.ltb_lt. split.
    + intros [_ Hn]. eauto.
    + intros (m & [= <-] & Hm). lia.
  - split; [done|]. by intros (n & Hn & _).
Qed.

Lemma loadEntry_missing chunks prompt n :
  chunkCount prompt = Some n -> (0 < n)%Z ->
  (forall fragments,
     chunks !! id prompt = Some fragments -> Z.of_nat (length fragments) <> n) ->
  loadEntry chunks prompt = chunksMissing prompt.
Proof.
  intros Hn Hpos Hbad. unfold loadEntry.
  replace (hasChunkCount prompt) with true
    by (symmetry; apply hasChunkCount_true; eauto).
  destruct (chunks !! id prompt) as [fragments|] eqn:E; [|done].
  destruct (decide _) as [Heq|]; [|done].
  rewrite Hn in Heq. injection Heq as Heq. by apply Hbad in Heq.
Qed.

Lemma loadEntry_reconstruct chunks prompt fragments :
  hasChunkCount prompt = true ->
  chunks !! id prompt = Some fragments ->
  chunkCount prompt = Some (Z.of_nat (length fragments)) ->
  loadEntry chunks prompt = reconstructPrompt prompt fragments.
Proof.
  intros Hc Hf Hn. unfold loadEntry. rewrite Hc, Hf.
  by destruct (decide _) as [|Hne]; [|rewrite Hn in Hne].
Qed.

Lemma loadEntry_whole chunks prompt :
  hasChunkCount prompt = false -> loadEntry chunks prompt = prompt.
Proof. unfold loadEntry. by intros ->. Qed.

(** [loadEntry] is total, and takes one of three ways. *)
Lemma loadEntry_cases chunks entry :
  (hasChunkCount entry = false /\ loadEntry chunks entry = entry)
  \/ (exists fragments,
        hasChunkCount entry = true
        /\ chunks !! id entry = Some fragments
        /\ chunkCount entry = Some (Z.of_nat (length fragments))
        /\ loadEntry chunks entry = reconstructPrompt entry fragments)
  \/ (hasChunkCount entry = true
      /\ (forall fragments,
            chunks !! id entry = Some fragments ->
            chunkCount entry <> Some (Z.of_nat (length fragments)))
      /\ loadEntry chunks entry = chunksMissing entry).
Proof.
  destruct (hasChunkCount entry) eqn:Hc.
  - right. apply hasChunkCount_true in Hc as (n & Hcn & Hpos).
    destruct (chunks !! id entry) as [fragments|] eqn:Hf.
    + destruct (decide (chunkCount entry = Some (Z.of_nat (length fragments))))
        as [Hn|Hn].
      * left. exists fragments. repeat split; [done..|].
        apply loadEntry_reconstruct; [|done..].
        apply hasChunkCount_true. eauto.
      * right. split; [done|]. split; [congruence|].
        apply (loadEntry_missing _ _ n); [done..|]. congruence.
    + right. split; [done|]. split; [congruence|].
      apply (loadEntry_missing _ _ n); [done..|]. congruence.
  - left. split; [done|]. by apply loadEntry_whole.
Qed.

(** *** The callback on the plain object

    Where the read of the fragments is the read of an own property, the
    callback returns what [loadEntry] gives; elsewhere it throws. *)

Lemma loadCallback_cases chunks entry :
  (readsOwn chunks entry
   /\ loadCallback chunks entry = Return (loadEntry chunks entry))
  \/ (~ readsOwn chunks entry
      /\ hasChunkCount entry = true
      /\ chunks !! id entry = None
      /\ inheritedLength (id entry) = chunkCount entry
      /\ loadCallback chunks entry = Throw joinIsNotAFunction).
Proof.
  unfold readsOwn, loadCallback, loadEntry, readChunks.
  destruct (hasChunkCount entry) eqn:Hc; [|by left].
  destruct (chunks !! id entry) as [fragments|]; simpl.
  - left. split; [done|].
    destruct (decide _);
      [rewrite bool_decide_eq_true_2|rewrite bool_decide_eq_false_2]; done.
  - apply hasChunkCount_true in Hc as (n & Hn & Hpos).
    destruct (decide (id entry = PROTO)) as [Hid|Hid].
    + left. split; [|done]. intros _ _. rewrite Hid, Hn. by vm_compute.
    + destruct (inheritedLength (id entry)) as [k|] eqn:Hk; simpl.
      * destruct (decide (Some k = chunkCount entry)) as [Heq|Hne].
        -- right. rewrite bool_decide_eq_true_2 by done.
           repeat split; try done. intros Hown. by apply Hown.
        -- left. rewrite bool_decide_eq_false_2 by done. done.
      * left. split; [|done]. intros _ _. by rewrite Hn.
Qed.

Lemma loadCallback_own chunks entry :
  readsOwn chunks entry ->
  loadCallback chunks entry = Return (loadEntry chunks entry).
Proof.
  intros Hown.
  by destruct (loadCallback_cases chunks entry) as [[_ ?]|[? _]].
Qed.

Lemma mapThrowing_returns {A B} (callback : A -> Completion B) f l :
  Forall (fun a => callback a = Return (f a)) l ->
  mapThrowing callback l = Return (map f l).
Proof.
  induction 1 as [|a l Ha _ IH]; [done|]. simpl. by rewrite Ha, IH.
Qed.

Lemma mapThrowing_throws {A B} (callback : A -> Completion B) l e :
  mapThrowing callback l = Throw e ->
  exists a, In a l /\ callback a = Throw e.
Proof.
  induction l as [|a l IH]; simpl; [done|].
  destruct (callback a) as [b|e'] eqn:Ha.
  - destruct (mapThrowing callback l) as [bs|e'']; [done|].
    intros [= <-]. destruct (IH eq_refl) as (a' & Hin & Hthrow).
    exists a'. auto.
  - intros [= <-]. exists a. auto.
Qed.

(** The callback of the load returns exactly on the stores of [loadsOwn],
    with what [processPrompts] gives; on the others it throws the error of
    [join]. *)
Lemma processCallback_cases items :
  (loadsOwn items /\ processCallback items = Return (processPrompts items))
  \/ (~ loadsOwn items /\ processCallback items = Throw joinIsNotAFunction).
Proof.
  unfold loadsOwn, processCallback, processPrompts.
  set (chunks := default ∅ (PROMPT_CHUNKS items)).
  set (entries := default [] (PROMPTS items)).
  destruct (mapThrowing (loadCallback chunks) entries) as [prompts|e] eqn:Hmap.
  - left.
    assert (Forall (readsOwn chunks) entries) as Hown.
    { clear -Hmap. revert prompts Hmap.
      induction entries as [|entry entries IH]; intros prompts Hmap;
        [constructor|].
      simpl in Hmap.
      destruct (loadCallback_cases chunks entry)
        as [[Hown Hr]|(_ & _ & _ & _ & Hr)]; rewrite Hr in Hmap; [|done].
      destruct (mapThrowing (loadCallback chunks) entries) eqn:Hrest; [|done].
      constructor; [done|]. by eapply IH. }
    split; [done|].
    rewrite (mapThrowing_returns _ (loadEntry chunks)) in Hmap.
    + by injection Hmap as <-.
    + eapply Forall_impl; [exact Hown|]. apply loadCallback_own.
  - right. apply mapThrowing_throws in Hmap as (entry & Hin & Hthrow).
    destruct (loadCallback_cases chunks entry)
      as [[_ Hr]|(Hno & _ & _ & _ & Hr)]; rewrite Hr in Hthrow; [done|].
    injection Hthrow as <-. split; [|done].
    intros Hown. rewrite Forall_forall in Hown.
    by apply Hno, Hown, list_elem_of_In.
Qed.

Lemma processCallback_throws items e :
  processCallback items = Throw e ->
  e = joinIsNotAFunction
  /\ exists entry,
       In entry (default [] (PROMPTS items))
       /\ hasChunkCount entry = true
       /\ default ∅ (PROMPT_CHUNKS items) !! id entry = None
       /\ inheritedLength (id entry) = chunkCount entry.
Proof.
  unfold processCallback.
  destruct (mapThrowing _ _) as [prompts|e'] eqn:Hmap; [done|].
  intros [= <-]. apply mapThrowing_throws in Hmap as (entry & Hin & Hthrow).
  destruct (loadCallback_cases (default ∅ (PROMPT_CHUNKS items)) entry)
    as [[_ Hr]|(_ & Hc & Hnone & Hlen & Hr)]; rewrite Hr in Hthrow; [done|].
  injection Hthrow as <-. split; [done|]. by exists entry.
Qed.

Lemma processCallback_own items :
  loadsOwn items -> processCallback items = Return (processPrompts items).
Proof.
  intros Hown. by destruct (processCallback_cases items) as [[_ ?]|[? _]].
Qed.

(** Entries whose ids are keys under which a plain object inherits nothing
    are read from own properties. *)
Lemma loadsOwn_ownKey items :
  Forall (fun entry => ownKey (id entry)) (default [] (PROMPTS items)) ->
  loadsOwn items.
Proof.
  intros Hkeys. unfold loadsOwn. eapply Forall_impl; [exact Hkeys|].
  intros entry [_ Hnone] Hc _. rewrite Hnone.
  apply hasChunkCount_true in Hc as (n & -> & _). done.
Qed.

(** X25: a shell without its fragments, on a store on which the callback
    of the load returns. When the stored collection holds a metadata shell
    whose announced [chunkCount] is not the number of fragments stored
    under its id, or whose fragments are absent, [getPrompts] resolves;
    the shell is returned with the error text as content, between the
    records that are returned for the entries before it and after it, which
    are the records returned for the collection without the shell. *)
Theorem getPrompts_missing_chunks w before shell after n :
  loadsOwn (consulted w) ->
  PROMPTS (consulted w) = Some (before ++ shell :: after) ->
  chunkCount shell = Some n -> (0 < n)%Z ->
  (forall fragments,
     default ∅ (PROMPT_CHUNKS (consulted w)) !! id shell = Some fragments ->
     Z.of_nat (length fragments) <> n) ->
  exists others others' storageType w',
    processCallback (consulted w)
    = Return (others ++ chunksMissing shell :: others', storageType)
    /\ getPrompts w
       = (Return (others ++ chunksMissing shell :: others', storageType), w')
    /\ content (chunksMissing shell) = Some CHUNKS_MISSING
    /\ (processPrompts (withPrompts before (consulted w))).1 = others
    /\ (processPrompts (withPrompts after (consulted w))).1 = others'
    /\ (processPrompts (withPrompts (before ++ after) (consulted w))).1
       = others ++ others'.
Proof.
  intros Hown Hsaved Hn Hpos Hbad.
  rewrite getPrompts_run, (processCallback_own _ Hown).
  assert (processPrompts (consulted w)
          = (map (loadEntry (default ∅ (PROMPT_CHUNKS (consulted w)))) before
             ++ chunksMissing shell
             :: map (loadEntry (default ∅ (PROMPT_CHUNKS (consulted w)))) after,
             default local (STORAGE_TYPE (consulted w)))) as ->.
  { unfold processPrompts. rewrite Hsaved. simpl.
    rewrite map_app. simpl. by rewrite (loadEntry_missing _ _ n). }
  eexists _, _, _, _. split; [done|]. split; [done|]. split; [done|].
  unfold processPrompts. simpl. by rewrite map_app.
Qed.

(** C3 fails where the id of the shell names a method that the object of
    the fragments inherits. The import of one valid element with the id
    constructor and a [chunkCount] of 1 into the empty store leaves an
    entry with that [chunkCount] and no fragment under its id. At the next
    load the read of the fragments finds the function [Object], whose
    [length] is 1, and the callback throws in [reconstructPrompt] instead
    of returning the entry with the error text: the promise of
    [getPrompts] stays pending. *)
Theorem getPrompts_inherited_method :
  let w :=
    (importPromptsFromJson (platform := examplePlatform constructorTexts)
       (environment := storageWorks) constructorText emptyWorld).2 in
  exists shell,
    PROMPTS (consulted w) = Some [shell]
    /\ id shell = js "constructor"
    /\ chunkCount shell = Some 1%Z
    /\ default ∅ (PROMPT_CHUNKS (consulted w)) !! id shell = None
    /\ readChunks (default ∅ (PROMPT_CHUNKS (consulted w))) (id shell)
       = FoundMethod 1
    /\ processCallback (consulted w) = Throw joinIsNotAFunction.
Proof. eexists. vm_compute. repeat split; reflexivity. Qed.

(** C4, as the code has it. On a store on which the callback of the load
    throws, no record is returned. On every other store [getPrompts]
    resolves with what the callback returns, one record for each entry: a
    record rebuilt from its fragments has neither [chunkCount] nor
    [originalSize]; an entry without a positive [chunkCount] is returned as
    it is stored; the error-sentinel record returned when the fragments do
    not match keeps the [chunkCount] and the [originalSize] of its
    shell. *)
Theorem getPrompts_internal_fields w :
  match processCallback (consulted w) with
  | Throw e => e = joinIsNotAFunction /\ ~ loadsOwn (consulted w)
  | Return (loaded, storageType) =>
      loadsOwn (consulted w)
      /\ (exists w', getPrompts w = (Return (loaded, storageType), w'))
      /\ Forall2
           (fun entry prompt =>
              (hasChunkCount entry = false /\ prompt = entry)
              \/ (exists fragments,
                    default ∅ (PROMPT_CHUNKS (consulted w)) !! id entry
                    = Some fragments
                    /\ chunkCount entry = Some (Z.of_nat (length fragments))
                    /\ prompt = reconstructPrompt entry fragments
                    /\ chunkCount prompt = None
                    /\ originalSize prompt = None)
              \/ (hasChunkCount entry = true
                  /\ prompt = chunksMissing entry
                  /\ chunkCount prompt = chunkCount entry
                  /\ originalSize prompt = originalSize entry))
           (default [] (PROMPTS (consulted w))) loaded
  end.
Proof.
  destruct (processCallback_cases (consulted w)) as [[Hown ->]|[Hno ->]];
    [|done].
  rewrite getPrompts_run.
  destruct (processPrompts (consulted w)) as [loaded storageType] eqn:Hp.
  split; [done|]. split; [by eexists|].
  unfold processPrompts in Hp. injection Hp as <- _.
  apply Forall2_fmap_r, Forall_Forall2_diag, Forall_forall.
  intros entry _.
  destruct (loadEntry_cases (default ∅ (PROMPT_CHUNKS (consulted w))) entry)
    as [[Hc Hl]|[(fragments & Hc & Hf & Hn & Hl)|(Hc & Hbad & Hl)]];
    simpl in Hl |- *; rewrite Hl.
  - by left.
  - right. left. exists fragments. done.
  - right. right. done.
Qed.

(** C4 as stated fails on the damaged store: the record returned for the
    shell still carries [chunkCount]. *)
Lemma getPrompts_exposes_chunkCount :
  ~ (forall loaded storageType w',
       getPrompts damagedWorld = (Return (loaded, storageType), w') ->
       Forall (fun prompt => chunkCount prompt = None
                             /\ originalSize prompt = None) loaded).
Proof.
  intros Hclaim.
  specialize (Hclaim _ _ _ (getPrompts_run damagedWorld)).
  apply Forall_inv in Hclaim. destruct Hclaim as [Hcount _].
  vm_compute in Hcount. discriminate.
Qed.

(** What [getPrompts] returns for the damaged store. *)
Example getPrompts_damagedWorld :
  fst (getPrompts damagedWorld)
  = Return ([chunksMissing damagedShell; smallPrompt], notion).
Proof. vm_compute. reflexivity. Qed.

Lemma getPrompts_missing_chunks_witness :
  exists others others' storageType w',
    processCallback (consulted damagedWorld)
    = Return (others ++ chunksMissing damagedShell :: others', storageType)
    /\ getPrompts damagedWorld
       = (Return (others ++ chunksMissing damagedShell :: others', storageType),
          w')
    /\ content (chunksMissing damagedShell) = Some CHUNKS_MISSING
    /\ (processPrompts (withPrompts [] (consulted damagedWorld))).1 = others
    /\ (processPrompts (withPrompts [smallPrompt] (consulted damagedWorld))).1
       = others'
    /\ (processPrompts
          (withPrompts ([] ++ [smallPrompt]) (consulted damagedWorld))).1
       = others ++ others'.
Proof.
  apply (getPrompts_missing_chunks damagedWorld [] damagedShell [smallPrompt] 3).
  - apply loadsOwn_ownKey. repeat constructor; vm_compute; discriminate.
  - reflexivity.
  - reflexivity.
  - lia.
  - intros fragments Hf. vm_compute in Hf. injection Hf as <-. simpl. lia.
Defined.

(** ** savePrompts *)

Section SaveProperties.
Context {platform : Platform} {environment : Environment}.

Lemma storageSet_ok a items w :
  setError a items w = None ->
  storageSet a items w = (Return None, store a items (afterCalls [StorageSet a items] w)).
Proof. intros He. unfold storageSet. by rewrite He. Qed.

Lemma storageSet_failed a items w lastError :
  setError a items w = Some lastError ->
  storageSet a items w = (Return (Some lastError), afterCalls [StorageSet a items] w).
Proof. intros He. unfold storageSet. by rewrite He. Qed.

(** An exception while [dataToSave] is built rejects before any call. *)
Lemma savePrompts_throws prompts storageType e w :
  dataToSave prompts storageType = Throw e ->
  savePrompts prompts storageType w = (Throw e, w).
Proof. intros Hd. unfold savePrompts. by rewrite Hd. Qed.

Lemma savePrompts_ok prompts storageType data w :
  dataToSave prompts storageType = Return data ->
  setError (selectedStorage storageType) data w = None ->
  savePrompts prompts storageType w
  = (Return tt,
     store (selectedStorage storageType) data
       (afterCalls [StorageSet (selectedStorage storageType) data] w)).
Proof.
  intros Hd He. unfold savePrompts. rewrite Hd. run.
  by rewrite (storageSet_ok _ _ _ He).
Qed.

(** C2: when the write to the selected area fails, then (1) if the storage
    type is not "local" and the failure is a quota failure, the same data is
    written to the local area, and the save resolves when that write goes
    through; (2) if the storage type is "local" or the failure is not a
    quota failure, that one write is the only call made and the promise is
    rejected with the error of the write. *)
Theorem savePrompts_quota_fallback prompts storageType data w message :
  dataToSave prompts storageType = Return data ->
  setError (selectedStorage storageType) data w = Some message ->
  (storageType <> local -> isQuotaError message = true ->
   setError LocalArea data (afterCalls [StorageSet SyncArea data] w) = None ->
   savePrompts prompts storageType w
   = (Return tt,
      store LocalArea data
        (afterCalls [StorageSet SyncArea data; StorageSet LocalArea data] w)))
  /\ (storageType = local \/ isQuotaError message = false ->
      savePrompts prompts storageType w
      = (Throw (LastError message),
         afterCalls [StorageSet (selectedStorage storageType) data] w)).
Proof.
  intros Hd He. split.
  - intros Hst Hq He'. unfold savePrompts. rewrite Hd. run.
    assert (selectedStorage storageType = SyncArea) as Hsel
      by (unfold selectedStorage; by rewrite bool_decide_eq_false_2).
    rewrite Hsel in *. rewrite (storageSet_failed _ _ _ _ He).
    rewrite bool_decide_eq_false_2 by done. simpl. rewrite Hq.
    rewrite (storageSet_ok _ _ _ He').
    unfold afterCalls, store. simpl. by rewrite <- app_assoc.
  - intros Hcase. unfold savePrompts. rewrite Hd. run.
    rewrite (storageSet_failed _ _ _ _ He).
    destruct Hcase as [->|Hq].
    + done.
    + by rewrite Hq, andb_false_r.
Qed.

(** When the retry fails as well, the promise is rejected with the quota
    error of [savePrompts], and nothing has been written. *)
Lemma savePrompts_fallback_fails prompts storageType data w message message' :
  dataToSave prompts storageType = Return data ->
  setError (selectedStorage storageType) data w = Some message ->
  storageType <> local -> isQuotaError message = true ->
  setError LocalArea data (afterCalls [StorageSet SyncArea data] w)
  = Some message' ->
  savePrompts prompts storageType w
  = (Throw quotaExceeded,
     afterCalls [StorageSet SyncArea data; StorageSet LocalArea data] w).
Proof.
  intros Hd He Hst Hq He'. unfold savePrompts. rewrite Hd. run.
  assert (selectedStorage storageType = SyncArea) as Hsel
    by (unfold selectedStorage; by rewrite bool_decide_eq_false_2).
  rewrite Hsel in *. rewrite (storageSet_failed _ _ _ _ He).
  rewrite bool_decide_eq_false_2 by done. simpl. rewrite Hq.
  rewrite (storageSet_failed _ _ _ _ He').
  unfold afterCalls. simpl. by rewrite <- app_assoc.
Qed.

End SaveProperties.

Lemma savePrompts_quota_fallback_witness :
  (exists data,
     savePrompts (platform := examplePlatform []) (environment := syncQuotaFull)
       [smallPrompt] notion emptyWorld
     = (Return tt,
        store LocalArea data
          (afterCalls [StorageSet SyncArea data; StorageSet LocalArea data]
             emptyWorld)))
  /\ (exists data,
        savePrompts (platform := examplePlatform []) (environment := storageBroken)
          [smallPrompt] local emptyWorld
        = (Throw (LastError (Some (js "IO error: lock held by another process"))),
           afterCalls [StorageSet LocalArea data] emptyWorld)).
Proof.
  split; eexists.
  - refine (proj1 (savePrompts_quota_fallback (platform := examplePlatform [])
                     (environment := syncQuotaFull) [smallPrompt] notion _
                     emptyWorld (Some (js "QUOTA_BYTES quota exceeded")) _ _)
              _ _ _).
    + lazy. reflexivity.
    + reflexivity.
    + discriminate.
    + vm_compute. reflexivity.
    + reflexivity.
  - refine (proj2 (savePrompts_quota_fallback (platform := examplePlatform [])
                     (environment := storageBroken) [smallPrompt] local _
                     emptyWorld
                     (Some (js "IO error: lock held by another process")) _ _)
              _).
    + lazy. reflexivity.
    + reflexivity.
    + left. reflexivity.
Defined.

(** ** importPromptsFromJson: malformed payloads *)

Section ImportRejects.
Context {platform : Platform} {environment : Environment}.

Lemma nonEmpty_false s : nonEmpty s = false <-> missingOrEmpty s.
Proof.
  unfold missingOrEmpty. destruct s as [[|c s]|]; simpl.
  - split; [by right|done].
  - split; [done|]. intros [Hs|Hs]; discriminate.
  - split; [by left|done].
Qed.

Lemma validateElement_lacking index element :
  lacksRequiredField element ->
  exists e, validateElement index element = Throw e.
Proof.
  destruct element as [| |r]; simpl; [eauto..|].
  intros Hlack.
  assert (negb (nonEmpty (raw_id r)) || negb (nonEmpty (raw_title r))
          || negb (nonEmpty (raw_content r)) = true) as ->; [|eauto].
  rewrite !orb_true_iff, !negb_true_iff, !nonEmpty_false. tauto.
Qed.

Lemma validateFrom_lacking elements element :
  In element elements -> lacksRequiredField element ->
  forall index, exists e, validateFrom index elements = Throw e.
Proof.
  intros Hin Hlack.
  induction elements as [|first rest IH]; intros index; [done|]. simpl.
  destruct (validateElement index first) as [prompt|e] eqn:Hfirst; [|eauto].
  destruct Hin as [->|Hin].
  - destruct (validateElement_lacking index element Hlack) as [e He].
    congruence.
  - destruct (IH Hin (S index)) as [e ->]. eauto.
Qed.

(** C5: a text that parses to something that is not an array, or to an
    array with an element that lacks a non-empty [id], [title] or
    [content], makes [importPromptsFromJson] reject without any call on
    chrome.storage: the world, with both areas and the list of calls, is
    the one before. *)
Theorem importPromptsFromJson_malformed json w :
  JSON_parse json = ParsedNotArray
  \/ (exists elements element,
        JSON_parse json = ParsedArray elements
        /\ In element elements /\ lacksRequiredField element) ->
  exists e, importPromptsFromJson json w = (Throw e, w).
Proof.
  intros [Hparse|(elements & element & Hparse & Hin & Hlack)];
    unfold importPromptsFromJson; rewrite Hparse; [by eexists|].
  destruct (validateFrom_lacking elements element Hin Hlack 0) as [e ->].
  by eexists.
Qed.

(** A text that is not JSON is rejected in the same way. *)
Lemma importPromptsFromJson_syntax_error json message w :
  JSON_parse json = ParseSyntaxError message ->
  importPromptsFromJson json w = (Throw (ErrorObject message), w).
Proof. intros Hparse. unfold importPromptsFromJson. by rewrite Hparse. Qed.

End ImportRejects.

Lemma importPromptsFromJson_malformed_witness :
  (exists e,
     importPromptsFromJson (platform := examplePlatform malformedTexts)
       (environment := storageWorks) notAnArrayText damagedWorld
     = (Throw e, damagedWorld))
  /\ (exists e,
        importPromptsFromJson (platform := examplePlatform malformedTexts)
          (environment := storageWorks) titleOnlyText damagedWorld
        = (Throw e, damagedWorld)).
Proof.
  split.
  - apply (importPromptsFromJson_malformed
             (platform := examplePlatform malformedTexts)).
    left. reflexivity.
  - apply (importPromptsFromJson_malformed
             (platform := examplePlatform malformedTexts)).
    right. exists [ElObject titleOnly], (ElObject titleOnly).
    split; [reflexivity|]. split; [left; reflexivity|].
    left. left. reflexivity.
Defined.

(** ** searchPrompts *)

Lemma startsWith_spec t s :
  startsWith t s = true <-> exists after, s = t ++ after.
Proof.
  revert s. induction t as [|a t IH]; intros s; simpl.
  - split; [eauto|done].
  - destruct s as [|b s].
    + split; [done|]. by intros [after Hs].
    + rewrite andb_true_iff, N.eqb_eq, IH. split.
      * intros [-> [after ->]]. eauto.
      * intros [after [= -> ->]]. eauto.
Qed.

Lemma includes_spec s t : includes s t = true <-> isSubstringOf t s.
Proof.
  unfold isSubstringOf. induction s as [|b s IH]; simpl.
  - rewrite orb_false_r, startsWith_spec. split.
    + intros [after Hs]. by exists [], after.
    + intros (before & after & Hs). symmetry in Hs.
      apply app_eq_nil in Hs as [-> Hs]. apply app_eq_nil in Hs as [-> ->].
      by exists [].
  - rewrite orb_true_iff, startsWith_spec, IH. split.
    + intros [[after Hs]|(before & after & ->)].
      * by exists [], after.
      * by exists (b :: before), after.
    + intros ([|b' before] & after & Hs); simpl in Hs.
      * left. eauto.
      * right. injection Hs as -> ->. eauto.
Qed.



Section SearchProperties.
Context {platform : Platform}.





End SearchProperties.

(** The search of the seventh testable property, on the one-record store:
    the query is trimmed before it is compared. *)
Example searchPrompts_shortWorld :
  fst (searchPrompts (platform := examplePlatform []) (js " A") [] shortWorld)
  = Return [shortPrompt].
Proof. vm_compute. reflexivity. Qed.



(** ** syncWithNotion *)

Section SyncProperties.
Context {platform : Platform} {environment : Environment}.

Lemma getNotionConfig_run w :
  getNotionConfig w
  = (Return (NOTION_CONFIG (syncArea w)), afterCalls [StorageGet SyncArea] w).
Proof. done. Qed.

Lemma getSyncStatus_run w :
  getSyncStatus w = (Return (currentStatus w), afterCalls [StorageGet SyncArea] w).
Proof. done. Qed.


Lemma syncWithNotion_start w :
  syncWithNotion w
  = match NOTION_CONFIG (syncArea w) with
    | None => (Throw notConfigured, beforeSync w)
    | Some _ => tryCatch (syncBody (loaded w)) syncFailed (beforeSync w)
    end.
Proof.
  unfold syncWithNotion. run. rewrite getPrompts_run.
  unfold loaded. destruct (processPrompts (consulted w)) as [prompts st].
  simpl. unfold beforeSync, afterCalls, record. simpl.
  rewrite <- !app_assoc. by destruct (NOTION_CONFIG (syncArea w)).
Qed.


(** When the write of the [catch] block fails as well, the promise is
    rejected with the error of that write. *)
Lemma syncWithNotion_status_lost w e w2 e' w3 :
  NOTION_CONFIG (syncArea w) <> None ->
  syncBody (loaded w) (beforeSync w) = (Throw e, w2) ->
  updateSyncStatus (failurePatch e) w2 = (Throw e', w3) ->
  syncWithNotion w = (Throw e', w3).
Proof.
  intros Hconfig Hbody Hstatus. rewrite syncWithNotion_start.
  destruct (NOTION_CONFIG (syncArea w)); [|done].
  unfold tryCatch. rewrite Hbody. unfold syncFailed. run.
  fold (failurePatch e). by rewrite Hstatus.
Qed.

End SyncProperties.


(** With a credential and a failing Notion client, the status that is left
    carries the message of the error. *)
Example syncWithNotion_notionDown :
  let w3 := (syncWithNotion (platform := examplePlatform [])
               (environment := notionDown) configuredWorld).2 in
  SYNC_STATUS (syncArea w3)
  = Some {| lastSynced := None; inProgress := false;
            error := Some (js "Notion API request failed") |}.
Proof. vm_compute. reflexivity. Qed.

(** When saving the synced prompts fails with [chrome.runtime.lastError],
    which is not an Error, the status carries the fixed text. *)
Example syncWithNotion_promptsNotWritable :
  syncWithNotion (platform := examplePlatform [])
    (environment := promptsNotWritable) configuredWorld
  = (Throw (LastError (Some (js "IO error: lock held by another process"))),
     (syncWithNotion (platform := examplePlatform [])
        (environment := promptsNotWritable) configuredWorld).2)
  /\ SYNC_STATUS
       (syncArea
          (syncWithNotion (platform := examplePlatform [])
             (environment := promptsNotWritable) configuredWorld).2)
     = Some {| lastSynced := None; inProgress := false;
               error := Some (js "Unknown error during sync") |}.
Proof. vm_compute. split; reflexivity. Qed.


(** ** The partition made by savePrompts *)

Section PartitionProperties.
Context {platform : Platform}.

Lemma partitionStep_spec acc prompt :
  content prompt <> None ->
  partitionStep acc prompt
  = Return
      {| regularPrompts :=
           regularPrompts acc ++ List.filter isRegular [prompt];
         chunkedPromptsMetadata :=
           chunkedPromptsMetadata acc
           ++ map shellOf (List.filter isChunked [prompt]);
         allChunks :=
           foldl insertChunks (allChunks acc) (List.filter isChunked [prompt]) |}.
Proof.
  intros Hc. unfold partitionStep. destruct (content prompt) as [c|] eqn:Ec; [|done].
  simpl. unfold isRegular, isChunked, contentOf. rewrite Ec. simpl.
  destruct (exceedsLimit prompt) eqn:Hbig; simpl.
  - rewrite (chunkPrompt_large _ c) by done.
    destruct (0 <? length (splitContent c)); simpl.
    + unfold shellOf, insertChunks, contentOf. by rewrite Ec, app_nil_r.
    + rewrite !app_nil_r. by destruct acc.
  - rewrite !app_nil_r. done.
Qed.

Lemma partitionPrompts_spec prompts : forall acc,
  Forall (fun prompt => content prompt <> None) prompts ->
  partitionPrompts acc prompts
  = Return
      {| regularPrompts := regularPrompts acc ++ List.filter isRegular prompts;
         chunkedPromptsMetadata :=
           chunkedPromptsMetadata acc
           ++ map shellOf (List.filter isChunked prompts);
         allChunks :=
           foldl insertChunks (allChunks acc) (List.filter isChunked prompts) |}.
Proof.
  induction prompts as [|prompt prompts IH]; intros acc Hc.
  - simpl. rewrite !app_nil_r. by destruct acc.
  - apply Forall_cons in Hc as [Hp Hc].
    cbn [partitionPrompts]. rewrite partitionStep_spec by done.
    rewrite IH by done. cbn [regularPrompts chunkedPromptsMetadata allChunks].
    change (prompt :: prompts) with ([prompt] ++ prompts).
    rewrite !List.filter_app, List.map_app, foldl_app, !app_assoc. done.
Qed.

(** [savePrompts] gets past the partition only if every prompt has a
    content. *)
Lemma partitionPrompts_content prompts : forall acc acc',
  partitionPrompts acc prompts = Return acc' ->
  Forall (fun prompt => content prompt <> None) prompts.
Proof.
  induction prompts as [|prompt prompts IH]; intros acc acc' Hp; [constructor|].
  simpl in Hp. destruct (partitionStep acc prompt) as [acc1|] eqn:Hstep; [|done].
  constructor; [|by eapply IH].
  unfold partitionStep in Hstep. by destruct (content prompt).
Qed.

Lemma dataToSave_spec prompts storageType :
  Forall (fun prompt => content prompt <> None) prompts ->
  dataToSave prompts storageType
  = Return
      {| PROMPTS :=
           Some (List.filter isRegular prompts
                 ++ map shellOf (List.filter isChunked prompts));
         STORAGE_TYPE := Some storageType;
         NOTION_CONFIG := None;
         SYNC_STATUS := None;
         TAGS := Some (collectTags prompts);
         PROMPT_CHUNKS :=
           Some (foldl insertChunks ∅ (List.filter isChunked prompts)) |}.
Proof.
  intros Hc. unfold dataToSave. by rewrite partitionPrompts_spec.
Qed.

Lemma dataToSave_content prompts storageType data :
  dataToSave prompts storageType = Return data ->
  Forall (fun prompt => content prompt <> None) prompts.
Proof.
  unfold dataToSave.
  destruct (partitionPrompts emptyPartition prompts) as [acc|] eqn:Hp; [|done].
  intros _. by eapply partitionPrompts_content.
Qed.

Lemma lookup_assignChunks (key : jsstring) (chunks : list jsstring)
    (m : gmap jsstring (list jsstring)) (k : jsstring) :
  assignChunks key chunks m !! k
  = if decide (key = PROTO) then m !! k
    else if decide (key = k) then Some chunks else m !! k.
Proof.
  unfold assignChunks. destruct (decide (key = PROTO)); [done|].
  destruct (decide (key = k)) as [<-|Hne].
  - by rewrite lookup_insert_eq.
  - by rewrite lookup_insert_ne.
Qed.

(** Every entry of the fragment map is the split of the content of a
    chunked prompt. *)
Lemma insertChunks_lookup prompts : forall chunks k fragments,
  foldl insertChunks chunks prompts !! k = Some fragments ->
  chunks !! k = Some fragments
  \/ exists prompt, In prompt prompts
                    /\ fragments = splitContent (contentOf prompt).
Proof.
  induction prompts as [|prompt prompts IH]; intros chunks k fragments Hk;
    [by left|].
  simpl in Hk. apply IH in Hk as [Hk|(q & Hq & ->)].
  - unfold insertChunks in Hk. rewrite lookup_assignChunks in Hk.
    destruct (decide (id prompt = PROTO)); [by left|].
    destruct (decide (id prompt = k)) as [<-|Hne]; [|by left].
    injection Hk as <-. right. exists prompt. split; [by left|done].
  - right. exists q. split; [by right|done].
Qed.

Lemma isChunked_nonempty prompt :
  isChunked prompt = true -> joinEmpty (splitContent (contentOf prompt)) <> [].
Proof.
  unfold isChunked. rewrite andb_true_iff, Nat.ltb_lt. intros [_ Hlen].
  rewrite splitContent_join. intros Hnil.
  apply splitContent_nil in Hnil. rewrite Hnil in Hlen. simpl in Hlen. lia.
Qed.

End PartitionProperties.

(** ** savePrompts: a record that is too large and has no content *)

Section OmittedRecord.
Context {platform : Platform} {environment : Environment}.

(** A resolved [savePrompts] has written [dataToSave] to one of the areas. *)
Lemma savePrompts_resolved prompts storageType w w' :
  savePrompts prompts storageType w = (Return tt, w') ->
  exists data a,
    dataToSave prompts storageType = Return data
    /\ area a w' = writeItems data (area a w).
Proof.
  unfold savePrompts.
  destruct (dataToSave prompts storageType) as [data|] eqn:Hd; [|done].
  run. unfold storageSet.
  destruct (setError (selectedStorage storageType) data w) as [message|].
  - destruct (negb _ && isQuotaError message); [|done].
    destruct (setError LocalArea data _); [done|].
    intros [= <-]. by exists data, LocalArea.
  - intros [= <-]. exists data, (selectedStorage storageType).
    split; [done|]. by destruct (selectedStorage storageType).
Qed.

Lemma loadEntry_not_empty prompts entry :
  let chunks := foldl insertChunks ∅ (List.filter isChunked prompts) in
  hasChunkCount entry = true ->
  content (loadEntry chunks entry) <> Some [].
Proof.
  intros chunks Hc.
  destruct (loadEntry_cases chunks entry)
    as [[Hw _]|[(fragments & _ & Hf & _ & ->)|(_ & _ & ->)]].
  - congruence.
  - simpl. apply insertChunks_lookup in Hf as [Hf|(q & Hq & ->)]; [done|].
    apply List.filter_In in Hq as [_ Hq]. apply isChunked_nonempty in Hq.
    congruence.
  - done.
Qed.

(** C10: a prompt of more than 7 KB whose content is the empty string is
    chunked into zero fragments, and [savePrompts] stores neither the
    prompt nor its metadata shell; the prompts and the fragments it writes
    are those it writes for the list without that prompt, and loading the
    area it wrote does not return the prompt. *)
Theorem savePrompts_omits_empty_oversized before prompt after storageType w w' :
  content prompt = Some [] ->
  (MAX_PROMPT_SIZE_KB < promptSizeKB prompt)%Q ->
  savePrompts (before ++ prompt :: after) storageType w = (Return tt, w') ->
  exists a saved chunks shell,
    PROMPTS (area a w') = Some saved
    /\ PROMPT_CHUNKS (area a w') = Some chunks
    /\ chunkPrompt prompt = Return (Some shell, [])
    /\ ~ In prompt saved
    /\ ~ In shell saved
    /\ (exists data,
         dataToSave (before ++ after) storageType = Return data
         /\ PROMPTS data = Some saved /\ PROMPT_CHUNKS data = Some chunks)
    /\ ~ In prompt (processPrompts (area a w')).1.
Proof.
  intros Hempty Hbig Hsave. apply exceedsLimit_true in Hbig.
  apply savePrompts_resolved in Hsave as (data & a & Hdata & Harea).
  pose proof (dataToSave_content _ _ _ Hdata) as Hcontent.
  rewrite dataToSave_spec in Hdata by done. injection Hdata as <-.
  assert (isRegular prompt = false) as Hreg
    by (unfold isRegular; by rewrite Hbig).
  assert (isChunked prompt = false) as Hchunked.
  { unfold isChunked, contentOf. rewrite Hempty. simpl. apply andb_false_r. }
  assert (List.filter isRegular (before ++ prompt :: after)
          = List.filter isRegular (before ++ after)) as Hregs.
  { rewrite !List.filter_app. simpl. by rewrite Hreg. }
  assert (List.filter isChunked (before ++ prompt :: after)
          = List.filter isChunked (before ++ after)) as Hchunks.
  { rewrite !List.filter_app. simpl. by rewrite Hchunked. }
  assert (Forall (fun prompt => content prompt <> None) (before ++ after))
    as Hcontent'.
  { apply Forall_app in Hcontent as [Hb Ha]. apply Forall_cons in Ha as [_ Ha].
    by apply Forall_app. }
  exists a, (List.filter isRegular (before ++ prompt :: after)
             ++ map shellOf (List.filter isChunked (before ++ prompt :: after))),
    (foldl insertChunks ∅ (List.filter isChunked (before ++ prompt :: after))),
    (shellOf prompt).
  rewrite Harea. simpl.
  split; [done|]. split; [done|]. split.
  { rewrite (chunkPrompt_large _ []) by done. unfold shellOf, contentOf.
    by rewrite Hempty. }
  split.
  { rewrite in_app_iff, List.filter_In, in_map_iff.
    intros [[_ Hr]|(q & Hq & _)]; [congruence|].
    rewrite <- Hq in Hempty. done. }
  split.
  { rewrite in_app_iff, List.filter_In, in_map_iff.
    intros [[Hin _]|(q & Hq & Hin)].
    - rewrite Forall_forall in Hcontent.
      apply list_elem_of_In, Hcontent in Hin. done.
    - apply List.filter_In in Hin as [_ Hin].
      apply andb_true_iff in Hin as [_ Hlen]. apply Nat.ltb_lt in Hlen.
      assert (chunkCount (shellOf q) = chunkCount (shellOf prompt)) as Hcount
        by (by rewrite Hq).
      unfold shellOf, contentOf in Hcount. simpl in Hcount.
      rewrite Hempty in Hcount. simpl in Hcount. injection Hcount as Hcount.
      unfold contentOf in Hlen. lia. }
  split.
  { eexists. rewrite dataToSave_spec by done. split; [done|]. simpl.
    by rewrite Hregs, Hchunks. }
  unfold processPrompts. simpl. rewrite in_map_iff.
  intros (entry & Hload & Hin).
  destruct (hasChunkCount entry) eqn:Hc.
  - apply (loadEntry_not_empty (before ++ prompt :: after)) in Hc.
    rewrite Hload in Hc. done.
  - rewrite loadEntry_whole in Hload by done. subst entry.
    apply in_app_iff in Hin as [Hin|Hin].
    + apply List.filter_In in Hin as [_ Hin]. congruence.
    + apply in_map_iff in Hin as (q & Hq & _). rewrite <- Hq in Hempty. done.
Qed.

End OmittedRecord.

Lemma savePrompts_omits_empty_oversized_witness :
  exists a saved chunks shell,
    let w' :=
      (savePrompts (platform := examplePlatform []) (environment := storageWorks)
         ([smallPrompt] ++ emptyOversized :: [largePrompt]) notion emptyWorld).2 in
    PROMPTS (area a w') = Some saved
    /\ PROMPT_CHUNKS (area a w') = Some chunks
    /\ chunkPrompt (platform := examplePlatform []) emptyOversized
       = Return (Some shell, [])
    /\ ~ In emptyOversized saved
    /\ ~ In shell saved
    /\ (exists data,
         dataToSave (platform := examplePlatform [])
           ([smallPrompt] ++ [largePrompt]) notion = Return data
         /\ PROMPTS data = Some saved /\ PROMPT_CHUNKS data = Some chunks)
    /\ ~ In emptyOversized (processPrompts (area a w')).1.
Proof.
  apply (savePrompts_omits_empty_oversized (platform := examplePlatform [])
           (environment := storageWorks) [smallPrompt] emptyOversized
           [largePrompt] notion emptyWorld).
  - reflexivity.
  - vm_compute. reflexivity.
  - vm_compute. reflexivity.
Defined.

(** ** The Map of importPromptsFromJson *)

Section MapProperties.

Lemma mapGet_mapSet k v m k' :
  mapGet (mapSet k v m) k' = if decide (k' = k) then Some v else mapGet m k'.
Proof.
  induction m as [|[k0 v0] m IH]; simpl.
  - done.
  - destruct (decide (k = k0)) as [->|Hne]; simpl.
    + by destruct (decide (k' = k0)).
    + destruct (decide (k' = k0)) as [->|Hne'].
      * destruct (decide (k0 = k)); [congruence|done].
      * done.
Qed.

Lemma mapSet_fresh k v m :
  ~ In k (map fst m) -> mapSet k v m = m ++ [(k, v)].
Proof.
  induction m as [|[k0 v0] m IH]; simpl; intros Hk; [done|].
  destruct (decide (k = k0)) as [->|Hne]; [tauto|].
  rewrite IH; [done|tauto].
Qed.

Lemma mapSet_present k v m :
  List.NoDup (map fst m) -> In k (map fst m) ->
  mapSet k v m
  = map (fun entry => (entry.1, if decide (entry.1 = k) then v else entry.2)) m.
Proof.
  induction m as [|[k0 v0] m IH]; simpl; intros Hnd Hk; [done|].
  apply List.NoDup_cons_iff in Hnd as [Hk0 Hnd].
  destruct (decide (k = k0)) as [->|Hne].
  - destruct (decide (k0 = k0)); [|done]. f_equal.
    rewrite <- (map_id m) at 1. apply map_ext_in. intros [k1 v1] Hin. simpl.
    destruct (decide (k1 = k0)) as [->|]; [|done].
    exfalso. apply Hk0. apply in_map_iff. by exists (k0, v1).
  - destruct (decide (k0 = k)); [congruence|]. f_equal.
    apply IH; [done|]. by destruct Hk.
Qed.

Lemma mapSet_keys_present k v m :
  In k (map fst m) -> map fst (mapSet k v m) = map fst m.
Proof.
  induction m as [|[k0 v0] m IH]; simpl; intros Hk; [done|].
  destruct (decide (k = k0)) as [->|Hne]; simpl; [done|].
  rewrite IH; [done|]. by destruct Hk.
Qed.

Lemma mapSet_keys_cases k v m :
  (In k (map fst m) /\ map fst (mapSet k v m) = map fst m)
  \/ (~ In k (map fst m) /\ map fst (mapSet k v m) = map fst m ++ [k]).
Proof.
  destruct (decide (k ∈ map fst m)) as [Hin|Hin];
    rewrite list_elem_of_In in Hin.
  - left. split; [done|]. by apply mapSet_keys_present.
  - right. split; [done|]. rewrite mapSet_fresh by done.
    by rewrite map_app.
Qed.

Lemma mapSet_NoDup k v m :
  List.NoDup (map fst m) -> List.NoDup (map fst (mapSet k v m)).
Proof.
  intros Hnd. destruct (mapSet_keys_cases k v m) as [[_ ->]|[Hin ->]]; [done|].
  apply List.NoDup_app; [done| |].
  - repeat constructor. by intros [].
  - intros k' Hk' [<-|[]]. done.
Qed.

Lemma mapSet_keys_incl k v m k' :
  In k' (map fst (mapSet k v m)) <-> k' = k \/ In k' (map fst m).
Proof.
  destruct (mapSet_keys_cases k v m) as [[Hin ->]|[_ ->]].
  - split; [by right|]. intros [->|?]; done.
  - rewrite in_app_iff. simpl. split; [intros [?|[<-|[]]]; auto|].
    intros [->|?]; auto.
Qed.

Lemma mapGet_setAll prompts : forall m k,
  mapGet (setAll m prompts) k
  = match latest prompts k with
    | Some prompt => Some prompt
    | None => mapGet m k
    end.
Proof.
  induction prompts as [|prompt prompts IH]; intros m k; [done|].
  unfold setAll in *. simpl. rewrite IH. destruct (latest prompts k); [done|].
  rewrite mapGet_mapSet.
  destruct (decide (k = id prompt)) as [->|Hne].
  - by destruct (decide (id prompt = id prompt)).
  - by destruct (decide (id prompt = k)); [congruence|].
Qed.

Lemma setAll_NoDup prompts : forall m,
  List.NoDup (map fst m) -> List.NoDup (map fst (setAll m prompts)).
Proof.
  induction prompts as [|prompt prompts IH]; intros m Hnd; [done|].
  unfold setAll in *. simpl. apply IH. by apply mapSet_NoDup.
Qed.

Lemma setAll_keys prompts : forall m k,
  In k (map fst (setAll m prompts)) <-> In k (map fst m) \/ In k (map id prompts).
Proof.
  induction prompts as [|prompt prompts IH]; intros m k.
  - simpl. tauto.
  - unfold setAll in *. simpl. rewrite IH, mapSet_keys_incl. split.
    + intros [[->|?]|?]; auto.
    + intros [?|[<-|?]]; auto.
Qed.

Lemma mapGet_In m k v :
  List.NoDup (map fst m) -> In (k, v) m -> mapGet m k = Some v.
Proof.
  induction m as [|[k0 v0] m IH]; simpl; intros Hnd Hin; [done|].
  apply List.NoDup_cons_iff in Hnd as [Hk0 Hnd].
  destruct Hin as [[= -> ->]|Hin].
  - by destruct (decide (k = k)).
  - destruct (decide (k = k0)) as [->|Hne]; [|by apply IH].
    exfalso. apply Hk0. apply in_map_iff. by exists (k0, v).
Qed.

Lemma latest_Some prompts k prompt :
  latest prompts k = Some prompt -> id prompt = k /\ In prompt prompts.
Proof.
  induction prompts as [|first rest IH]; simpl; [done|].
  destruct (latest rest k) as [later|].
  - intros [= <-]. destruct IH as [Hid Hin]; [done|]. auto.
  - destruct (decide (id first = k)); [|done]. intros [= <-]. auto.
Qed.

Lemma latest_None prompts k :
  latest prompts k = None <-> ~ In k (map id prompts).
Proof.
  induction prompts as [|first rest IH]; simpl; [tauto|].
  destruct (latest rest k) as [later|].
  - split; [done|]. intros Hk.
    assert (Some later = None) as Habs by (apply IH; tauto). done.
  - destruct (decide (id first = k)) as [Heq|Hne].
    + split; [done|]. tauto.
    + split; [|done]. intros _ [?|Hin]; [done|]. by apply IH in Hin.
Qed.

Lemma latest_app l1 l2 k :
  latest (l1 ++ l2) k
  = match latest l2 k with
    | Some prompt => Some prompt
    | None => latest l1 k
    end.
Proof.
  induction l1 as [|first rest IH]; simpl.
  - by destruct (latest l2 k).
  - rewrite IH. by destruct (latest l2 k).
Qed.

Lemma latest_NoDup prompts prompt :
  List.NoDup (map id prompts) -> In prompt prompts ->
  latest prompts (id prompt) = Some prompt.
Proof.
  induction prompts as [|first rest IH]; simpl; intros Hnd Hin; [done|].
  apply List.NoDup_cons_iff in Hnd as [Hfirst Hnd].
  destruct Hin as [->|Hin].
  - apply latest_None in Hfirst. rewrite Hfirst.
    by destruct (decide (id prompt = id prompt)).
  - by rewrite IH.
Qed.

(** Prompts with distinct ids, none of them a key yet, are appended in
    their order. *)
Lemma setAll_fresh prompts : forall m,
  List.NoDup (map fst m ++ map id prompts) ->
  setAll m prompts = m ++ map entryOf prompts.
Proof.
  induction prompts as [|prompt prompts IH]; intros m Hnd.
  - simpl. by rewrite app_nil_r.
  - unfold setAll in *. simpl in *.
    pose proof (NoDup_remove _ _ _ Hnd) as [_ Hfresh].
    rewrite mapSet_fresh by (rewrite in_app_iff in Hfresh; tauto).
    rewrite IH.
    + by rewrite <- app_assoc.
    + rewrite map_app. simpl. by rewrite <- app_assoc.
Qed.

(** Prompts whose ids are all keys already replace values where they
    stand. *)
Lemma setAll_present prompts : forall m,
  List.NoDup (map fst m) ->
  (forall prompt, In prompt prompts -> In (id prompt) (map fst m)) ->
  setAll m prompts
  = map (fun entry => (entry.1, default entry.2 (latest prompts entry.1))) m.
Proof.
  induction prompts as [|prompt prompts IH]; intros m Hnd Hin.
  - simpl. rewrite <- (map_id m) at 1. apply map_ext. by intros [k v].
  - unfold setAll in *. simpl.
    rewrite mapSet_present; [|done|apply Hin; by left].
    rewrite IH.
    + rewrite map_map. apply map_ext. intros [k v]. simpl.
      destruct (latest prompts k); simpl; [done|].
      destruct (decide (k = id prompt)) as [->|Hne].
      * by destruct (decide (id prompt = id prompt)).
      * by destruct (decide (id prompt = k)); [congruence|].
    + rewrite map_map. simpl. done.
    + intros p Hp. rewrite map_map. simpl. apply Hin. by right.
Qed.

End MapProperties.

(** ** mergePrompts *)

Section MergeProperties.

Lemma mergePrompts_entries current imported k v :
  In (k, v) (setAll (setAll [] current) imported) ->
  id v = k
  /\ match latest imported k with
     | Some prompt => v = prompt
     | None => latest current k = Some v
     end.
Proof.
  intros Hin. apply mapGet_In in Hin.
  - rewrite !mapGet_setAll in Hin. simpl in Hin.
    destruct (latest imported k) as [p|] eqn:Hi.
    + injection Hin as <-. apply latest_Some in Hi as [Hid _]. done.
    + destruct (latest current k) as [p|] eqn:Hc; [|done].
      injection Hin as <-. apply latest_Some in Hc as [Hid _]. done.
  - apply setAll_NoDup, setAll_NoDup. constructor.
Qed.

Lemma mergePrompts_ids current imported :
  map id (mergePrompts current imported)
  = map fst (setAll (setAll [] current) imported).
Proof.
  unfold mergePrompts. rewrite map_map. apply map_ext_in.
  intros [k v] Hin. simpl. by apply mergePrompts_entries in Hin as [Hid _].
Qed.

Lemma mergePrompts_NoDup current imported :
  List.NoDup (map id (mergePrompts current imported)).
Proof.
  rewrite mergePrompts_ids. apply setAll_NoDup, setAll_NoDup. constructor.
Qed.

(** The imported record always wins: a merged prompt whose id is an id of
    the import is the last imported prompt with that id, and a merged
    prompt with another id comes from the current collection. *)
Lemma mergePrompts_imported_wins current imported prompt :
  In prompt (mergePrompts current imported) ->
  match latest imported (id prompt) with
  | Some winner => prompt = winner
  | None => In prompt current
  end.
Proof.
  unfold mergePrompts. rewrite in_map_iff. intros ([k v] & <- & Hin).
  apply mergePrompts_entries in Hin as [Hid Hv]. simpl. rewrite Hid.
  destruct (latest imported k); [done|]. by apply latest_Some in Hv as [_ Hv].
Qed.

Lemma mergePrompts_overwritten current imported prompt :
  In prompt (mergePrompts current imported) ->
  overwrittenBy imported prompt = prompt.
Proof.
  intros Hin. apply mergePrompts_imported_wins in Hin. unfold overwrittenBy.
  destruct (latest imported (id prompt)); simpl; congruence.
Qed.

Lemma mergePrompts_has_imported current imported prompt :
  In prompt imported -> In (id prompt) (map id (mergePrompts current imported)).
Proof.
  intros Hin. rewrite mergePrompts_ids. apply setAll_keys. right.
  by apply in_map.
Qed.

(** Merging into a collection with distinct ids that has every imported
    id already overwrites in place. *)
Lemma mergePrompts_in_place current imported :
  List.NoDup (map id current) ->
  (forall prompt, In prompt imported -> In (id prompt) (map id current)) ->
  mergePrompts current imported = map (overwrittenBy imported) current.
Proof.
  intros Hnd Hin. unfold mergePrompts.
  rewrite (setAll_fresh current []) by done. simpl.
  assert (map fst (map entryOf current) = map id current) as Hkeys
    by (by rewrite map_map).
  rewrite setAll_present.
  - rewrite !map_map. done.
  - by rewrite Hkeys.
  - intros p Hp. rewrite Hkeys. by apply Hin.
Qed.

End MergeProperties.

(** ** Loading what savePrompts stored *)

Lemma filter_idem {A} (f : A -> bool) l :
  List.filter f (List.filter f l) = List.filter f l.
Proof.
  apply forallb_filter_id, forallb_forall. intros a Ha.
  by apply List.filter_In in Ha as [_ Ha].
Qed.

Lemma filter_disjoint {A} (f g : A -> bool) l :
  (forall a, g a = true -> f a = false) ->
  List.filter f (List.filter g l) = [].
Proof.
  intros Hfg. induction l as [|a l IH]; simpl; [done|].
  destruct (g a) eqn:Hg; [|done]. simpl. by rewrite (Hfg a Hg).
Qed.

Lemma NoDup_map_filter {A B} (key : A -> B) (f : A -> bool) l :
  List.NoDup (map key l) -> List.NoDup (map key (List.filter f l)).
Proof.
  induction l as [|a l IH]; simpl; intros Hnd; [done|].
  apply List.NoDup_cons_iff in Hnd as [Ha Hnd].
  destruct (f a); [|by apply IH]. simpl. constructor; [|by apply IH].
  rewrite in_map_iff in Ha |- *. intros (b & Hb & Hin). apply Ha.
  exists b. split; [done|]. by apply List.filter_In in Hin as [Hin _].
Qed.

Lemma NoDup_map_eq {A B} (key : A -> B) l a b :
  List.NoDup (map key l) -> In a l -> In b l -> key a = key b -> a = b.
Proof.
  induction l as [|c l IH]; simpl; intros Hnd Ha Hb Hkey; [done|].
  apply List.NoDup_cons_iff in Hnd as [Hc Hnd].
  destruct Ha as [->|Ha], Hb as [->|Hb]; [done| | |by apply IH].
  - exfalso. apply Hc. rewrite Hkey. by apply in_map.
  - exfalso. apply Hc. rewrite <- Hkey. by apply in_map.
Qed.

Section LoadAfterSave.
Context {platform : Platform}.

Lemma loadEntry_id chunks entry : id (loadEntry chunks entry) = id entry.
Proof.
  destruct (loadEntry_cases chunks entry)
    as [[_ ->]|[(fragments & _ & _ & _ & ->)|(_ & _ & ->)]]; done.
Qed.

(** Under a key other than [__proto__] the fragment map holds the
    fragments of the last prompt of that id; under [__proto__] it holds
    what it held before. *)
Lemma insertChunks_latest prompts : forall chunks k,
  k <> PROTO ->
  foldl insertChunks chunks prompts !! k
  = match latest prompts k with
    | Some prompt => Some (splitContent (contentOf prompt))
    | None => chunks !! k
    end.
Proof.
  induction prompts as [|prompt prompts IH]; intros chunks k Hk; [done|].
  simpl. rewrite IH by done. destruct (latest prompts k); [done|].
  unfold insertChunks. rewrite lookup_assignChunks.
  destruct (decide (id prompt = k)) as [<-|Hne].
  - by rewrite decide_False.
  - by destruct (decide (id prompt = PROTO)).
Qed.

Lemma insertChunks_proto prompts : forall chunks,
  foldl insertChunks chunks prompts !! PROTO = chunks !! PROTO.
Proof.
  induction prompts as [|prompt prompts IH]; intros chunks; [done|].
  simpl. rewrite IH. unfold insertChunks. rewrite lookup_assignChunks.
  by destruct (decide (id prompt = PROTO)).
Qed.

Lemma isRegular_isChunked prompt :
  isChunked prompt = true -> isRegular prompt = false.
Proof.
  unfold isChunked, isRegular. rewrite andb_true_iff. by intros [-> _].
Qed.

Lemma hasChunkCount_shellOf prompt :
  isChunked prompt = true -> hasChunkCount (shellOf prompt) = true.
Proof.
  unfold isChunked. rewrite andb_true_iff, Nat.ltb_lt. intros [_ Hlen].
  apply hasChunkCount_true. eexists. split; [done|]. lia.
Qed.

(** The shell of a chunked prompt finds its own fragments when the ids of
    the chunked prompts are distinct. *)
Lemma loadEntry_shellOf chunked prompt :
  List.NoDup (map id chunked) -> In prompt chunked ->
  isChunked prompt = true -> id prompt <> PROTO ->
  loadEntry (foldl insertChunks ∅ chunked) (shellOf prompt) = rebuilt prompt.
Proof.
  intros Hnd Hin Hc Hid. apply loadEntry_reconstruct.
  - by apply hasChunkCount_shellOf.
  - rewrite insertChunks_latest by done. simpl. by rewrite latest_NoDup.
  - done.
Qed.

Lemma rebuilt_record prompt : isRecord prompt -> rebuilt prompt = prompt.
Proof.
  intros (Hc & Hn & Hs & _). unfold rebuilt, reconstructPrompt, shellOf.
  simpl. rewrite splitContent_join. unfold contentOf.
  destruct prompt as [i t [c|] ts ca ua n s]; simpl in *; [|done]. by subst.
Qed.

Lemma isRecord_not_chunked prompt :
  isRecord prompt -> hasChunkCount prompt = false.
Proof. intros (_ & Hn & _). unfold hasChunkCount. by rewrite Hn. Qed.

(** A prompt with a non-empty content is stored, whole or in fragments. *)
Lemma stored_cases prompt :
  contentOf prompt <> [] ->
  isRegular prompt = true \/ isChunked prompt = true.
Proof.
  intros Hc. unfold isRegular, isChunked.
  destruct (exceedsLimit prompt); simpl; [right|by left].
  apply Nat.ltb_lt. destruct (splitContent (contentOf prompt)) eqn:Hs.
  - by apply splitContent_nil in Hs.
  - simpl. lia.
Qed.

End LoadAfterSave.

(** ** Importing the same array twice *)

Section Idempotence.
Context {platform : Platform}.

Lemma dataToSave_storedItems prompts storageType :
  Forall (fun prompt => content prompt <> None) prompts ->
  dataToSave prompts storageType = Return (storedItems prompts storageType).
Proof. apply dataToSave_spec. Qed.

Lemma loadedAfter_ids prompts :
  map id (loadedAfter prompts)
  = map id (List.filter isRegular prompts ++ List.filter isChunked prompts).
Proof.
  unfold loadedAfter, storedPrompts. rewrite !map_map, !map_app, !map_map.
  f_equal; apply map_ext; intros p; by rewrite loadEntry_id.
Qed.

Lemma stored_NoDup prompts :
  List.NoDup (map id prompts) ->
  List.NoDup
    (map id (List.filter isRegular prompts ++ List.filter isChunked prompts)).
Proof.
  intros Hnd. rewrite map_app. apply List.NoDup_app.
  - by apply NoDup_map_filter.
  - by apply NoDup_map_filter.
  - intros k. rewrite !in_map_iff.
    intros (r & Hr & Hrin) (c & Hc & Hcin).
    apply List.filter_In in Hrin as [Hrin Hreg].
    apply List.filter_In in Hcin as [Hcin Hchunked].
    assert (r = c) as -> by (apply (NoDup_map_eq id prompts); congruence).
    apply isRegular_isChunked in Hchunked. congruence.
Qed.

(** Merging the import again into what was stored and loaded gives the
    merged prompts back, the regular ones before the chunked ones. *)
Lemma mergePrompts_again current imported :
  Forall isRecord current ->
  Forall (fun prompt => id prompt <> PROTO) current ->
  Forall (fun prompt => content prompt <> None /\ contentOf prompt <> [])
    imported ->
  let merged := mergePrompts current imported in
  mergePrompts (loadedAfter merged) imported
  = List.filter isRegular merged ++ List.filter isChunked merged.
Proof.
  intros Hcur Hids Himp merged.
  rewrite Forall_forall in Hcur. rewrite Forall_forall in Himp.
  rewrite Forall_forall in Hids.
  pose proof (mergePrompts_NoDup current imported) as Hnd. fold merged in Hnd.
  rewrite mergePrompts_in_place.
  - unfold loadedAfter, storedPrompts. rewrite !map_app, !map_map.
    f_equal.
    + rewrite <- (map_id (List.filter isRegular merged)) at 2.
      apply map_ext_in. intros r Hr. apply List.filter_In in Hr as [Hr _].
      unfold overwrittenBy. rewrite loadEntry_id.
      pose proof (mergePrompts_imported_wins _ _ _ Hr) as Hwin.
      destruct (latest imported (id r)); simpl; [done|].
      apply loadEntry_whole, isRecord_not_chunked, Hcur.
      by apply list_elem_of_In.
    + rewrite <- (map_id (List.filter isChunked merged)) at 2.
      apply map_ext_in. intros c Hc.
      pose proof Hc as Hc'. apply List.filter_In in Hc' as [Hin Hchunked].
      unfold overwrittenBy. rewrite loadEntry_id. simpl.
      pose proof (mergePrompts_imported_wins _ _ _ Hin) as Hwin.
      destruct (latest imported (id c)); simpl; [done|].
      unfold storedChunks.
      rewrite loadEntry_shellOf;
        [|by apply NoDup_map_filter|done|done
         |by apply Hids, list_elem_of_In].
      apply rebuilt_record, Hcur. by apply list_elem_of_In.
  - rewrite loadedAfter_ids. by apply stored_NoDup.
  - intros i Hi. rewrite loadedAfter_ids.
    pose proof (mergePrompts_has_imported current imported i Hi) as Hid.
    apply in_map_iff in Hid as (e & He & Hin). fold merged in Hin.
    pose proof (mergePrompts_imported_wins _ _ _ Hin) as Hwin.
    rewrite He in Hwin.
    destruct (latest imported (id i)) as [winner|] eqn:Hl.
    + subst e. apply latest_Some in Hl as [_ Hl].
      apply list_elem_of_In, Himp in Hl as [_ Hne].
      rewrite <- He. apply in_map. apply in_app_iff.
      destruct (stored_cases winner Hne); [left|right];
        by apply List.filter_In.
    + apply latest_None in Hl. exfalso. apply Hl. by apply in_map.
Qed.

(** The imported record wins, so merging the same import once more into
    the merged prompts changes nothing. *)
Lemma mergePrompts_idempotent current imported :
  mergePrompts (mergePrompts current imported) imported
  = mergePrompts current imported.
Proof.
  rewrite mergePrompts_in_place.
  - rewrite <- (map_id (mergePrompts current imported)) at 2.
    apply map_ext_in. intros p Hp.
    by apply (mergePrompts_overwritten current).
  - apply mergePrompts_NoDup.
  - intros p Hp. by apply mergePrompts_has_imported.
Qed.

Lemma Permutation_filter_split {A} (f : A -> bool) l :
  Permutation l (List.filter f l ++ List.filter (fun a => negb (f a)) l).
Proof.
  induction l as [|a l IH]; simpl; [constructor|].
  destruct (f a); simpl.
  - by constructor.
  - by apply Permutation_cons_app.
Qed.

(** What [getPrompts] returns always has the error text as content where
    it has a positive [chunkCount]. *)
Lemma loadEntry_settled chunks entry :
  hasChunkCount (loadEntry chunks entry) = true ->
  chunksMissing (loadEntry chunks entry) = loadEntry chunks entry.
Proof.
  destruct (loadEntry_cases chunks entry)
    as [[Hc ->]|[(fragments & _ & _ & _ & ->)|(_ & _ & ->)]]; [congruence|done..].
Qed.

Lemma loadedAfter_reloaded prompts :
  List.NoDup (map id prompts) ->
  (forall prompt, In prompt prompts -> isChunked prompt = true ->
                  id prompt <> PROTO) ->
  loadedAfter prompts
  = map reloaded (List.filter isRegular prompts ++ List.filter isChunked prompts).
Proof.
  intros Hnd Hproto.
  unfold loadedAfter, storedPrompts. rewrite !map_app, map_map.
  f_equal; apply map_ext_in.
  - intros r Hr. apply List.filter_In in Hr as [Hin Hreg].
    unfold reloaded. rewrite Hreg.
    destruct (hasChunkCount r) eqn:Hc; [|by apply loadEntry_whole].
    apply hasChunkCount_true in Hc as (n & Hn & Hpos).
    apply (loadEntry_missing _ _ n); [done..|].
    intros fragments Hf. unfold storedChunks in Hf.
    destruct (decide (id r = PROTO)) as [Hr|Hr];
      [by rewrite Hr, insertChunks_proto in Hf|].
    rewrite insertChunks_latest in Hf by done. simpl in Hf.
    destruct (latest (List.filter isChunked prompts) (id r)) as [c|] eqn:Hl;
      [|done].
    apply latest_Some in Hl as [Hid Hl].
    apply List.filter_In in Hl as [Hl Hchunked].
    assert (c = r) as -> by (by apply (NoDup_map_eq id prompts)).
    apply isRegular_isChunked in Hchunked. congruence.
  - intros c Hc. pose proof Hc as Hc'.
    apply List.filter_In in Hc' as [Hin Hchunked].
    unfold reloaded. rewrite (isRegular_isChunked _ Hchunked).
    unfold storedChunks.
    apply loadEntry_shellOf; [by apply NoDup_map_filter|done|done|].
    by apply Hproto.
Qed.

Lemma rebuilt_content prompt : contentOf (rebuilt prompt) = contentOf prompt.
Proof. unfold rebuilt, contentOf. simpl. apply splitContent_join. Qed.

Lemma rebuilt_rebuilt prompt : rebuilt (rebuilt prompt) = rebuilt prompt.
Proof.
  unfold rebuilt at 1 3. unfold reconstructPrompt. simpl.
  by rewrite rebuilt_content.
Qed.

Lemma isChunked_contentOf prompt :
  isChunked prompt = true -> contentOf prompt <> [].
Proof.
  intros Hc Hnil. apply isChunked_nonempty in Hc.
  by rewrite splitContent_join in Hc.
Qed.

(** Storing and loading a loaded prompt once more gives the same prompt. *)
Lemma reloaded_reloaded prompt :
  (hasChunkCount prompt = true -> chunksMissing prompt = prompt) ->
  isRegular prompt = true \/ isChunked prompt = true ->
  reloaded (reloaded prompt) = reloaded prompt
  /\ (isRegular (reloaded prompt) = true \/ isChunked (reloaded prompt) = true).
Proof.
  intros Hsettled Hstored.
  destruct (isRegular prompt) eqn:Hreg.
  - assert (reloaded prompt = prompt) as Hsame.
    { unfold reloaded. rewrite Hreg.
      destruct (hasChunkCount prompt); [by apply Hsettled|done]. }
    rewrite !Hsame. split; [done|by left].
  - assert (reloaded prompt = rebuilt prompt) as ->
      by (unfold reloaded; by rewrite Hreg).
    destruct Hstored as [?|Hchunked]; [done|]. split.
    + unfold reloaded. destruct (isRegular (rebuilt prompt)); [done|].
      apply rebuilt_rebuilt.
    + apply stored_cases. rewrite rebuilt_content.
      by apply isChunked_contentOf.
Qed.

Lemma reloaded_id prompt : id (reloaded prompt) = id prompt.
Proof.
  unfold reloaded.
  destruct (isRegular prompt); [by destruct (hasChunkCount prompt)|done].
Qed.

Lemma reloaded_content prompt :
  content prompt <> None -> content (reloaded prompt) <> None.
Proof.
  intros Hc. unfold reloaded.
  destruct (isRegular prompt); [by destruct (hasChunkCount prompt)|done].
Qed.

(** A merged prompt, stored, loaded and overwritten by the import a second
    time, is the merged prompt again if its id is an imported one, and the
    loaded prompt if it comes from the current collection. *)
Lemma overwrittenBy_reloaded current imported prompt :
  In prompt (mergePrompts current imported) ->
  overwrittenBy imported (reloaded prompt) = prompt
  \/ (overwrittenBy imported (reloaded prompt) = reloaded prompt
      /\ In prompt current).
Proof.
  intros Hin. unfold overwrittenBy. rewrite reloaded_id.
  pose proof (mergePrompts_imported_wins _ _ _ Hin) as Hwin.
  destruct (latest imported (id prompt)); simpl; [left; congruence|by right].
Qed.

Lemma stored_merged (merged : list Prompt) prompt :
  In prompt (List.filter isRegular merged ++ List.filter isChunked merged) ->
  In prompt merged /\ (isRegular prompt = true \/ isChunked prompt = true).
Proof.
  intros Hin. apply in_app_iff in Hin as [Hin|Hin];
    apply List.filter_In in Hin as [Hin Hclass]; auto.
Qed.

Lemma not_proto (prompts : list Prompt) prompt :
  ~ In PROTO (map id prompts) -> In prompt prompts -> id prompt <> PROTO.
Proof. intros Hno Hin Hid. apply Hno. rewrite <- Hid. by apply in_map. Qed.

(** The second merge, on what was stored and loaded after the first. *)
Lemma mergePrompts_loadedAfter current imported :
  Forall (fun prompt => content prompt <> None /\ contentOf prompt <> [])
    imported ->
  let merged := mergePrompts current imported in
  ~ In PROTO (map id merged) ->
  mergePrompts (loadedAfter merged) imported
  = map (fun prompt => overwrittenBy imported (reloaded prompt))
      (List.filter isRegular merged ++ List.filter isChunked merged).
Proof.
  intros Himp merged Hproto. rewrite Forall_forall in Himp.
  pose proof (mergePrompts_NoDup current imported) as Hnd. fold merged in Hnd.
  rewrite mergePrompts_in_place.
  - rewrite loadedAfter_reloaded, map_map; [done..|].
    intros p Hp _. by apply (not_proto merged).
  - rewrite loadedAfter_ids. by apply stored_NoDup.
  - intros i Hi. rewrite loadedAfter_ids.
    pose proof (mergePrompts_has_imported current imported i Hi) as Hid.
    apply in_map_iff in Hid as (e & He & Hin). fold merged in Hin.
    pose proof (mergePrompts_imported_wins _ _ _ Hin) as Hwin.
    rewrite He in Hwin.
    destruct (latest imported (id i)) as [winner|] eqn:Hl.
    + subst e. apply latest_Some in Hl as [_ Hl].
      apply list_elem_of_In, Himp in Hl as [_ Hne].
      rewrite <- He. apply in_map. apply in_app_iff.
      destruct (stored_cases winner Hne); [left|right];
        by apply List.filter_In.
    + apply latest_None in Hl. exfalso. apply Hl. by apply in_map.
Qed.

Lemma mergePrompts_loadedAfter_content current imported :
  Forall (fun prompt => content prompt <> None /\ contentOf prompt <> [])
    imported ->
  let merged := mergePrompts current imported in
  ~ In PROTO (map id merged) ->
  Forall (fun prompt => content prompt <> None) merged ->
  Forall (fun prompt => content prompt <> None)
    (mergePrompts (loadedAfter merged) imported).
Proof.
  intros Himp merged Hproto Hcontent. subst merged.
  rewrite Forall_forall in Hcontent.
  rewrite mergePrompts_loadedAfter by done.
  apply Forall_forall. intros p Hp.
  apply list_elem_of_In, in_map_iff in Hp as (e & <- & He).
  apply stored_merged in He as [He _].
  destruct (overwrittenBy_reloaded _ _ _ He) as [->|[-> _]].
  - by apply Hcontent, list_elem_of_In.
  - by apply reloaded_content, Hcontent, list_elem_of_In.
Qed.

(** The records [getPrompts] returns after the second import are those it
    returns after the first one, whatever the current collection that
    [getPrompts] returned. *)
Lemma loadedAfter_again current imported :
  Forall (fun prompt => hasChunkCount prompt = true ->
                        chunksMissing prompt = prompt) current ->
  Forall (fun prompt => content prompt <> None /\ contentOf prompt <> [])
    imported ->
  let merged := mergePrompts current imported in
  ~ In PROTO (map id merged) ->
  Permutation (loadedAfter merged)
    (loadedAfter (mergePrompts (loadedAfter merged) imported)).
Proof.
  intros Hcur Himp merged Hproto. rewrite Forall_forall in Hcur.
  pose proof (mergePrompts_NoDup current imported) as Hnd. fold merged in Hnd.
  pose proof (mergePrompts_loadedAfter current imported Himp Hproto) as Hagain.
  fold merged in Hagain. simpl in Hagain.
  assert (forall p, In p merged -> isChunked p = true -> id p <> PROTO)
    as Hmerged by (intros p Hp _; by apply (not_proto merged)).
  set (stored := List.filter isRegular merged ++ List.filter isChunked merged)
    in *.
  assert (forall e, In e stored ->
            let e' := overwrittenBy imported (reloaded e) in
            reloaded e' = reloaded e
            /\ isChunked e' = negb (isRegular e')) as Hsame.
  { intros e He e'. subst e'. apply stored_merged in He as [He Hclass].
    assert (forall p, isRegular p = true \/ isChunked p = true ->
              isChunked p = negb (isRegular p)) as Hneg.
    { intros p [Hr|Hc].
      - rewrite Hr. destruct (isChunked p) eqn:Hc; [|done].
        apply isRegular_isChunked in Hc. congruence.
      - by rewrite Hc, (isRegular_isChunked _ Hc). }
    destruct (overwrittenBy_reloaded _ _ _ He) as [->|[-> Hin]].
    - split; [done|]. by apply Hneg.
    - destruct (reloaded_reloaded e) as [Hrr Hclass'];
        [by apply Hcur, list_elem_of_In|done|].
      split; [done|]. by apply Hneg. }
  rewrite (loadedAfter_reloaded (mergePrompts (loadedAfter merged) imported)).
  - rewrite Hagain, (loadedAfter_reloaded merged) by done. fold stored.
    rewrite !filter_map_swap, <- map_app, map_map.
    rewrite (map_ext_in
               (fun e => reloaded (overwrittenBy imported (reloaded e)))
               reloaded).
    + apply Permutation_map.
      rewrite (filter_ext_in
                 (fun a => isChunked (overwrittenBy imported (reloaded a)))
                 (fun a => negb (isRegular (overwrittenBy imported (reloaded a))))).
      * apply Permutation_filter_split.
      * intros e He. by apply Hsame.
    + intros e He. apply Hsame. apply in_app_iff in He as [He|He];
        by apply List.filter_In in He as [He _].
  - rewrite Hagain, map_map.
    rewrite (map_ext_in _ id); [by apply stored_NoDup|].
    intros e He. apply stored_merged in He as [He _].
    destruct (overwrittenBy_reloaded _ _ _ He) as [->|[-> _]]; [done|].
    apply reloaded_id.
  - rewrite Hagain. intros p Hp _.
    apply in_map_iff in Hp as (e & <- & He).
    apply stored_merged in He as [He _].
    destruct (overwrittenBy_reloaded _ _ _ He) as [->|[-> _]];
      [|rewrite reloaded_id]; by apply (not_proto merged).
Qed.

Lemma stored_again prompts :
  storedPrompts
    (List.filter isRegular prompts ++ List.filter isChunked prompts)
  = storedPrompts prompts
  /\ storedChunks
       (List.filter isRegular prompts ++ List.filter isChunked prompts)
     = storedChunks prompts.
Proof.
  unfold storedPrompts, storedChunks. rewrite !List.filter_app, !filter_idem.
  rewrite (filter_disjoint isRegular isChunked)
    by apply isRegular_isChunked.
  rewrite (filter_disjoint isChunked isRegular).
  - by rewrite app_nil_r.
  - intros p Hp. destruct (isChunked p) eqn:Hc; [|done].
    apply isRegular_isChunked in Hc. congruence.
Qed.

Lemma addTag_In allTags ts tag :
  In tag (foldl addTag allTags ts) <-> In tag allTags \/ In tag ts.
Proof.
  revert allTags. induction ts as [|t ts IH]; intros allTags; simpl; [tauto|].
  rewrite IH. unfold addTag. destruct (bool_decide (t ∈ allTags)) eqn:Ht.
  - apply bool_decide_eq_true, list_elem_of_In in Ht.
    split; [tauto|]. intros [?|[<-|?]]; auto.
  - rewrite in_app_iff. simpl. tauto.
Qed.

Lemma collectTags_In prompts tag :
  In tag (collectTags prompts)
  <-> exists prompt ts,
        In prompt prompts /\ tags prompt = Some ts /\ In tag ts.
Proof.
  unfold collectTags.
  assert (forall allTags,
    In tag (foldl (fun allTags prompt =>
                     match tags prompt with
                     | Some ts => foldl addTag allTags ts
                     | None => allTags
                     end) allTags prompts)
    <-> In tag allTags
        \/ exists prompt ts,
             In prompt prompts /\ tags prompt = Some ts /\ In tag ts) as Hgen.
  { induction prompts as [|p prompts IH]; intros allTags; simpl.
    - split; [tauto|]. intros [?|(p & ts & [] & _)]; done.
    - rewrite IH. destruct (tags p) as [ts|] eqn:Hp.
      + rewrite addTag_In. split.
        * intros [[?|?]|(q & ts' & ? & ? & ?)]; [tauto| |].
          -- right. exists p, ts. auto.
          -- right. exists q, ts'. auto.
        * intros [?|(q & ts' & [<-|?] & Hq & ?)]; [tauto| |].
          -- left. right. congruence.
          -- right. exists q, ts'. auto.
      + split.
        * intros [?|(q & ts' & ? & ? & ?)]; [tauto|].
          right. exists q, ts'. auto.
        * intros [?|(q & ts' & [<-|?] & Hq & ?)]; [tauto|congruence|].
          right. exists q, ts'. auto. }
  rewrite Hgen. simpl. tauto.
Qed.

Lemma validateFrom_valid elements : forall index,
  Forall (fun element => ~ lacksRequiredField element) elements ->
  exists imported,
    validateFrom index elements = Return imported
    /\ Forall (fun prompt => content prompt <> None /\ contentOf prompt <> [])
         imported.
Proof.
  induction elements as [|element elements IH]; intros index Hvalid.
  - exists []. split; [done|constructor].
  - apply Forall_cons in Hvalid as [Helement Hvalid].
    destruct (IH (S index) Hvalid) as (imported & Hrest & Himported).
    destruct element as [| |r]; simpl in Helement; [tauto..|].
    assert (nonEmpty (raw_id r) = true /\ nonEmpty (raw_title r) = true
            /\ nonEmpty (raw_content r) = true) as (Hi & Ht & Hc).
    { rewrite <- !nonEmpty_false in Helement.
      destruct (nonEmpty (raw_id r)), (nonEmpty (raw_title r)),
        (nonEmpty (raw_content r)); tauto. }
    simpl. rewrite Hi, Ht, Hc. simpl. rewrite Hrest.
    eexists. split; [done|]. constructor; [|done]. simpl.
    unfold contentOf. simpl. by destruct (raw_content r) as [[|]|].
Qed.

Lemma validateFrom_returns elements : forall index imported,
  validateFrom index elements = Return imported ->
  Forall (fun prompt => content prompt <> None /\ contentOf prompt <> [])
    imported.
Proof.
  induction elements as [|element elements IH]; intros index imported Hval;
    simpl in Hval.
  - injection Hval as <-. constructor.
  - destruct element as [| |r]; simpl in Hval; [done..|].
    destruct (negb (nonEmpty (raw_id r)) || negb (nonEmpty (raw_title r))
              || negb (nonEmpty (raw_content r))) eqn:Hlacks; [done|].
    destruct (validateFrom (S index) elements) as [prompts|] eqn:Hrest;
      [|done].
    injection Hval as <-. constructor; [|by eapply IH].
    apply orb_false_iff in Hlacks as [_ Hc]. apply negb_false_iff in Hc.
    unfold contentOf. simpl. by destruct (raw_content r) as [[|]|].
Qed.

(** The ids of the merged prompts are ids of current or of imported
    prompts. *)
Lemma mergePrompts_Forall_id (P : jsstring -> Prop) current imported :
  Forall (fun prompt => P (id prompt)) current ->
  Forall (fun prompt => P (id prompt)) imported ->
  Forall (fun prompt => P (id prompt)) (mergePrompts current imported).
Proof.
  intros Hcur Himp. rewrite Forall_forall in Hcur. rewrite Forall_forall in Himp.
  apply Forall_forall. intros p Hp. apply list_elem_of_In in Hp.
  pose proof (mergePrompts_imported_wins _ _ _ Hp) as Hwin.
  destruct (latest imported (id p)) as [winner|] eqn:Hl.
  - subst winner. apply latest_Some in Hl as [_ Hl].
    by apply Himp, list_elem_of_In.
  - by apply Hcur, list_elem_of_In.
Qed.

Lemma ownKey_not_proto (prompts : list Prompt) :
  Forall (fun prompt => ownKey (id prompt)) prompts ->
  ~ In PROTO (map id prompts).
Proof.
  intros Hkeys Hin. apply in_map_iff in Hin as (p & Hid & Hp).
  rewrite Forall_forall in Hkeys.
  apply list_elem_of_In, Hkeys in Hp as [Hne _]. done.
Qed.

Lemma loadsOwn_stored prompts storageType items :
  Forall (fun prompt => ownKey (id prompt)) prompts ->
  loadsOwn (writeItems (storedItems prompts storageType) items).
Proof.
  intros Hkeys. apply loadsOwn_ownKey. simpl. unfold storedPrompts.
  rewrite Forall_forall in Hkeys.
  apply Forall_forall. intros entry Hentry.
  apply list_elem_of_In, in_app_iff in Hentry as [Hentry|Hentry].
  - apply List.filter_In in Hentry as [Hentry _].
    by apply Hkeys, list_elem_of_In.
  - apply in_map_iff in Hentry as (p & <- & Hp).
    apply List.filter_In in Hp as [Hp _]. simpl.
    by apply Hkeys, list_elem_of_In.
Qed.

End Idempotence.

Section ImportTwice.
Context {platform : Platform} {environment : Environment}.
Hypothesis writes_succeed : forall a items w, setError a items w = None.

Lemma sameTags_refl stored : sameTags stored stored.
Proof. by destruct stored. Qed.

Lemma merged_content current imported :
  Forall isRecord current ->
  Forall (fun prompt => content prompt <> None /\ contentOf prompt <> [])
    imported ->
  Forall (fun prompt => content prompt <> None /\ contentOf prompt <> []
                        \/ isRecord prompt)
    (mergePrompts current imported).
Proof.
  intros Hcur Himp. rewrite Forall_forall in Hcur. rewrite Forall_forall in Himp.
  apply Forall_forall. intros p Hp. apply list_elem_of_In in Hp.
  apply mergePrompts_imported_wins in Hp.
  destruct (latest imported (id p)) as [winner|] eqn:Hl.
  - subst winner. apply latest_Some in Hl as [_ Hl]. left.
    by apply Himp, list_elem_of_In.
  - right. by apply Hcur, list_elem_of_In.
Qed.

Lemma importPromptsFromJson_run json elements imported w :
  JSON_parse json = ParsedArray elements ->
  validateFrom 0 elements = Return imported ->
  Forall (fun prompt => content prompt <> None)
    (mergePrompts (loaded w) imported) ->
  importPromptsFromJson json w
  = (Return (mergePrompts (loaded w) imported),
     store (selectedStorage (processPrompts (consulted w)).2)
       (storedItems (mergePrompts (loaded w) imported)
          (processPrompts (consulted w)).2)
       (afterCalls
          (readsOf w
           ++ [StorageSet (selectedStorage (processPrompts (consulted w)).2)
                 (storedItems (mergePrompts (loaded w) imported)
                    (processPrompts (consulted w)).2)]) w)).
Proof.
  intros Hparse Hvalid Hcontent. unfold importPromptsFromJson.
  rewrite Hparse, Hvalid. unfold mbind, Async_bind, await.
  rewrite getPrompts_run. unfold loaded in *.
  destruct (processPrompts (consulted w)) as [current st].
  cbn [fst snd] in *.
  unfold savePrompts. rewrite dataToSave_storedItems by done.
  unfold mbind, Async_bind, await, storageSet. rewrite writes_succeed.
  unfold afterCalls, record, store, resolve. simpl. rewrite <- app_assoc.
  by destruct (selectedStorage st).
Qed.

Lemma processPrompts_stored prompts storageType items :
  processPrompts (writeItems (storedItems prompts storageType) items)
  = (loadedAfter prompts, storageType).
Proof. done. Qed.

(** After the save, [getPrompts] reads what was saved, unless the save
    went to the local area while the sync area has a collection: then it
    reads what it read before. The next save is read in the same way. *)
Lemma after_save_reads w events prompts :
  let storageType := (processPrompts (consulted w)).2 in
  let w1 :=
    store (selectedStorage storageType) (storedItems prompts storageType)
      (afterCalls events w) in
  (processPrompts (consulted w1) = (loadedAfter prompts, storageType)
   /\ forall events' prompts',
        processPrompts
          (consulted
             (store (selectedStorage storageType)
                (storedItems prompts' storageType) (afterCalls events' w1)))
        = (loadedAfter prompts', storageType))
  \/ (processPrompts (consulted w1) = processPrompts (consulted w)
      /\ forall events' prompts',
           processPrompts
             (consulted
                (store (selectedStorage storageType)
                   (storedItems prompts' storageType) (afterCalls events' w1)))
           = processPrompts (consulted w)).
Proof.
  intros storageType w1. subst w1. unfold selectedStorage.
  destruct storageType eqn:Hst; simpl.
  - unfold consulted. simpl.
    destruct (negb _ && negb _); [by left|by right].
  - left. done.
Qed.

Lemma consulted_afterCalls events w :
  consulted (afterCalls events w) = consulted w.
Proof. done. Qed.

Lemma readsOf_afterCalls events w : readsOf (afterCalls events w) = readsOf w.
Proof. done. Qed.

Lemma loaded_settled w :
  Forall (fun prompt => hasChunkCount prompt = true ->
                        chunksMissing prompt = prompt) (loaded w).
Proof.
  unfold loaded, processPrompts. simpl. apply Forall_forall. intros p Hp.
  apply list_elem_of_In, in_map_iff in Hp as (entry & <- & _).
  apply loadEntry_settled.
Qed.

Lemma loadsOwn_loaded w :
  Forall (fun prompt => ownKey (id prompt)) (loaded w) ->
  loadsOwn (consulted w).
Proof.
  intros Hkeys. apply loadsOwn_ownKey.
  unfold loaded, processPrompts in Hkeys. simpl in Hkeys.
  rewrite Forall_forall in Hkeys. apply Forall_forall. intros entry Hentry.
  rewrite <- (loadEntry_id (default ∅ (PROMPT_CHUNKS (consulted w)))).
  apply Hkeys, list_elem_of_In, in_map. by apply list_elem_of_In.
Qed.

Lemma loadsOwn_after_store a prompts storageType events w :
  loadsOwn (consulted w) ->
  Forall (fun prompt => ownKey (id prompt)) prompts ->
  loadsOwn
    (consulted (store a (storedItems prompts storageType) (afterCalls events w))).
Proof.
  intros Hown Hkeys. destruct a; unfold consulted; simpl.
  - by apply loadsOwn_stored.
  - unfold consulted in Hown. destruct (negb _ && negb _); [|done].
    by apply loadsOwn_stored.
Qed.

Lemma dataToSave_throws prompts storageType :
  ~ Forall (fun prompt => content prompt <> None) prompts ->
  exists e, dataToSave prompts storageType = Throw e.
Proof.
  intros Hno. unfold dataToSave.
  destruct (partitionPrompts emptyPartition prompts) as [acc|e] eqn:Hp;
    [|by eexists].
  exfalso. apply Hno. by eapply partitionPrompts_content.
Qed.

(** When a merged prompt has no content, [savePrompts] throws before any
    write, and the import is rejected after its reads. *)
Lemma importPromptsFromJson_run_throws json elements imported w :
  JSON_parse json = ParsedArray elements ->
  validateFrom 0 elements = Return imported ->
  ~ Forall (fun prompt => content prompt <> None)
      (mergePrompts (loaded w) imported) ->
  exists e,
    importPromptsFromJson json w = (Throw e, afterCalls (readsOf w) w).
Proof.
  intros Hparse Hvalid Hno. unfold importPromptsFromJson.
  rewrite Hparse, Hvalid. unfold mbind, Async_bind, await.
  rewrite getPrompts_run. unfold loaded in *.
  destruct (processPrompts (consulted w)) as [current st].
  cbn [fst snd] in *.
  destruct (dataToSave_throws _ st Hno) as [e He].
  exists e. unfold savePrompts. by rewrite He.
Qed.

Lemma store_again a prompts prompts' storageType events events' w :
  storedPrompts prompts' = storedPrompts prompts ->
  storedChunks prompts' = storedChunks prompts ->
  (forall tag, In tag (collectTags prompts) <-> In tag (collectTags prompts')) ->
  let w1 := store a (storedItems prompts storageType) (afterCalls events w) in
  sameCollection w1
    (store a (storedItems prompts' storageType) (afterCalls events' w1)).
Proof.
  intros Hp Hc Ht w1 b. subst w1.
  destruct a, b; simpl; rewrite ?Hp, ?Hc;
    repeat split; try done; try apply sameTags_refl; apply Ht.
Qed.

Lemma sameCollection_loaded w w' :
  sameCollection w w' -> processPrompts (consulted w) = processPrompts (consulted w').
Proof.
  intros Hsame.
  destruct (Hsame SyncArea) as (Hp & Hc & Hs & _).
  destruct (Hsame LocalArea) as (Hp' & Hc' & Hs' & _). simpl in *.
  unfold consulted. rewrite <- Hp, <- Hs.
  destruct (negb _ && negb _); unfold processPrompts; congruence.
Qed.

(** C9, as the code has it: when the writes to chrome.storage go through
    and no id of a current or of an imported prompt is [__proto__] or the
    name of a method of [Object.prototype], importing a valid array a
    second time changes what the store holds only in the ways that follow.
    The loads of both imports complete. For every current collection, the
    records [getPrompts] returns after the second import are those it
    returns after the first one (in some order), and each merged prompt
    whose id occurs in the import is the last imported prompt with that id:
    the imported record always wins. When the current collection is made
    of records of the data model, both imports resolve, [getPrompts]
    returns the same list, and both areas hold the same stored entries,
    fragments and storage type after the second import as after the first,
    and a tag index with the same members. *)
Theorem importPromptsFromJson_twice json elements imported w :
  JSON_parse json = ParsedArray elements ->
  validateFrom 0 elements = Return imported ->
  Forall (fun prompt => ownKey (id prompt)) imported ->
  Forall (fun prompt => ownKey (id prompt)) (loaded w) ->
  exists outcome outcome' w1 w2,
    importPromptsFromJson json w = (outcome, w1)
    /\ importPromptsFromJson json w1 = (outcome', w2)
    /\ processCallback (consulted w) = Return (processPrompts (consulted w))
    /\ processCallback (consulted w1) = Return (processPrompts (consulted w1))
    /\ Permutation (loaded w1) (loaded w2)
    /\ (forall merged prompt,
          outcome = Return merged -> In prompt merged ->
          match latest imported (id prompt) with
          | Some winner => prompt = winner
          | None => In prompt (loaded w)
          end)
    /\ (Forall isRecord (loaded w) ->
        (exists merged merged',
           outcome = Return merged /\ outcome' = Return merged')
        /\ sameCollection w1 w2
        /\ loaded w2 = loaded w1).
Proof.
  intros Hparse Hval Hkeys Hcurrent.
  pose proof (validateFrom_returns elements 0 imported Hval) as Himp.
  set (merged := mergePrompts (loaded w) imported).
  set (st := (processPrompts (consulted w)).2).
  pose proof (mergePrompts_Forall_id ownKey _ _ Hcurrent Hkeys) as Hmerged.
  fold merged in Hmerged.
  pose proof (ownKey_not_proto merged Hmerged) as Hproto.
  pose proof (loadsOwn_loaded w Hcurrent) as Hown.
  destruct (decide (Forall (fun prompt => content prompt <> None) merged))
    as [Hcontent|Hno].
  - pose proof (importPromptsFromJson_run json elements imported w
                  Hparse Hval Hcontent) as Hrun1.
    fold merged st in Hrun1.
    set (a := selectedStorage st) in *.
    set (events := readsOf w ++ [StorageSet a (storedItems merged st)]) in *.
    set (w1 := store a (storedItems merged st) (afterCalls events w)) in *.
    assert (processCallback (consulted w1)
            = Return (processPrompts (consulted w1))) as Hown1.
    { apply processCallback_own. by apply loadsOwn_after_store. }
    destruct (after_save_reads w events merged) as [[Hfresh Hnext]|[Hstale Hnext]];
      fold st a w1 in Hfresh, Hnext || fold st a w1 in Hstale, Hnext.
    + assert (loaded w1 = loadedAfter merged) as Hloaded
        by (unfold loaded; by rewrite Hfresh).
      pose proof (mergePrompts_loadedAfter_content (loaded w) imported
                    Himp Hproto Hcontent) as Hcontent'.
      fold merged in Hcontent'. simpl in Hcontent'. rewrite <- Hloaded in Hcontent'.
      pose proof (importPromptsFromJson_run json elements imported w1
                    Hparse Hval Hcontent') as Hrun2.
      rewrite Hfresh, Hloaded in Hrun2. cbn [snd] in Hrun2. fold a in Hrun2.
      eexists _, _, w1, _.
      split; [done|]. split; [exact Hrun2|].
      split; [by apply processCallback_own|]. split; [done|]. split; [|split].
      * unfold loaded at 2. rewrite Hnext, Hloaded. simpl.
        apply loadedAfter_again; [apply loaded_settled|done..].
      * intros merged0 p [= <-] Hp. by apply mergePrompts_imported_wins.
      * intros Hcur. split; [by eexists _, _|].
        assert (Forall (fun prompt => id prompt <> PROTO) (loaded w)) as Hids.
        { eapply Forall_impl; [exact Hcurrent|]. by intros p [? _]. }
        pose proof (mergePrompts_again _ _ Hcur Hids Himp) as Hagain.
        fold merged in Hagain. simpl in Hagain. rewrite Hagain.
        pose proof (merged_content _ _ Hcur Himp) as Hmerged'.
        fold merged in Hmerged'.
        assert (forall p, In p merged <->
                  In p (List.filter isRegular merged
                        ++ List.filter isChunked merged)) as Hall.
        { intros p. rewrite in_app_iff, !List.filter_In. split; [|tauto].
          intros Hp. rewrite Forall_forall in Hmerged'.
          assert (isRegular p = true \/ isChunked p = true); [|tauto].
          destruct (Hmerged' p) as [[_ Hne]|(Hc & _ & _ & Hbig)];
            [by apply list_elem_of_In|by apply stored_cases|].
          destruct (exceedsLimit p) eqn:Hex.
          - apply stored_cases. unfold contentOf.
            destruct (content p) as [[|]|]; simpl; try done.
            by exfalso; apply Hbig.
          - left. unfold isRegular. by rewrite Hex. }
        assert (sameCollection w1
                  (store a
                     (storedItems
                        (List.filter isRegular merged
                         ++ List.filter isChunked merged) st)
                     (afterCalls
                        (readsOf w1
                         ++ [StorageSet a
                               (storedItems
                                  (List.filter isRegular merged
                                   ++ List.filter isChunked merged) st)]) w1)))
          as Hsame.
        { apply store_again; [apply stored_again..|].
          intros tag. rewrite !collectTags_In.
          split; intros (p & ts & Hp & Hts); exists p, ts;
            (split; [by apply Hall|done]). }
        split; [done|].
        unfold loaded. by rewrite (sameCollection_loaded _ _ Hsame).
    + assert (loaded w1 = loaded w) as Hloaded
        by (unfold loaded; by rewrite Hstale).
      assert (Forall (fun prompt => content prompt <> None)
                (mergePrompts (loaded w1) imported)) as Hcontent'
        by (by rewrite Hloaded).
      pose proof (importPromptsFromJson_run json elements imported w1
                    Hparse Hval Hcontent') as Hrun2.
      rewrite Hstale, Hloaded in Hrun2. fold merged st a in Hrun2.
      eexists _, _, w1, _.
      split; [done|]. split; [exact Hrun2|].
      split; [by apply processCallback_own|]. split; [done|].
      assert (sameCollection w1
                (store a (storedItems merged st)
                   (afterCalls
                      (readsOf w1 ++ [StorageSet a (storedItems merged st)])
                      w1)))
        as Hsame by (by apply store_again).
      split; [|split].
      * unfold loaded. by rewrite (sameCollection_loaded _ _ Hsame).
      * intros merged0 p [= <-] Hp. by apply mergePrompts_imported_wins.
      * intros _. split; [by eexists _, _|]. split; [done|].
        unfold loaded. by rewrite (sameCollection_loaded _ _ Hsame).
  - destruct (importPromptsFromJson_run_throws json elements imported w
                Hparse Hval Hno) as [e Hrun1].
    assert (~ Forall (fun prompt => content prompt <> None)
              (mergePrompts (loaded (afterCalls (readsOf w) w)) imported))
      as Hno' by done.
    destruct (importPromptsFromJson_run_throws json elements imported _
                Hparse Hval Hno') as [e' Hrun2].
    eexists _, _, _, _.
    split; [exact Hrun1|]. split; [exact Hrun2|].
    split; [by apply processCallback_own|].
    split; [by apply processCallback_own|].
    split; [done|]. split; [done|].
    intros Hcur. exfalso. apply Hno.
    eapply Forall_impl; [exact (merged_content _ _ Hcur Himp)|].
    intros p [[Hc _]|[Hc _]]; done.
Qed.

End ImportTwice.

Lemma importPromptsFromJson_twice_witness :
  exists outcome outcome' w1 w2,
    importPromptsFromJson (platform := examplePlatform importTexts)
      (environment := storageWorks) importText shortWorld
    = (outcome, w1)
    /\ importPromptsFromJson (platform := examplePlatform importTexts)
         (environment := storageWorks) importText w1
       = (outcome', w2)
    /\ Permutation (loaded w1) (loaded w2)
    /\ (exists merged merged',
          outcome = Return merged /\ outcome' = Return merged')
    /\ sameCollection w1 w2
    /\ loaded w2 = loaded w1.
Proof.
  assert (forall k : jsstring,
            k <> PROTO -> inheritedLength k = None -> ownKey k) as Hkey
    by (by intros k ? ?).
  destruct (importPromptsFromJson_twice (platform := examplePlatform importTexts)
               (environment := storageWorks) (fun _ _ _ => eq_refl)
               importText [ElObject importedShort; ElObject importedNew]
               importedPrompts shortWorld)
    as (outcome & outcome' & w1 & w2
        & Hrun1 & Hrun2 & _ & _ & Hperm & _ & Hrecords).
  - reflexivity.
  - reflexivity.
  - repeat constructor; apply Hkey; vm_compute; (discriminate || reflexivity).
  - repeat constructor; apply Hkey; vm_compute; (discriminate || reflexivity).
  - exists outcome, outcome', w1, w2.
    split; [exact Hrun1|]. split; [exact Hrun2|].
    split; [exact Hperm|]. apply Hrecords.
    repeat constructor; try discriminate.
Defined.

(** C9 as stated fails on a store whose shell has lost its fragments. The
    first import reads the shell as a record with the error text as
    content, which still carries [chunkCount] and [originalSize], and
    stores it in fragments, its title being above the threshold. The second
    import reads that record back without the two fields: the shell it
    stores has another [originalSize]. *)
Lemma importPromptsFromJson_twice_differs :
  let run := importPromptsFromJson (platform := examplePlatform importTexts)
               (environment := storageWorks) importText in
  let w1 := (run staleWorld).2 in
  let w2 := (run w1).2 in
  ~ (PROMPTS (syncArea w2) = PROMPTS (syncArea w1)
     /\ PROMPTS (localArea w2) = PROMPTS (localArea w1)).
Proof.
  intros run w1 w2 [Hsame _].
  apply (f_equal (fun stored => map originalSize (default [] stored))) in Hsame.
  vm_compute in Hsame. discriminate.
Qed.

Example import_twice_staleWorld :
  let run := importPromptsFromJson (platform := examplePlatform importTexts)
               (environment := storageWorks) importText in
  let w1 := (run staleWorld).2 in
  let w2 := (run w1).2 in
  map id (default [] (PROMPTS (syncArea w1))) = [js "p2"; js "p4"; js "p5"]
  /\ map originalSize (default [] (PROMPTS (syncArea w1)))
     = [None; None; Some (8169 # 1024)]
  /\ map originalSize (default [] (PROMPTS (syncArea w2)))
     = [None; None; Some (8137 # 1024)]
  /\ map id (loaded w2) = map id (loaded w1)
  /\ map content (loaded w2) = map content (loaded w1).
Proof. vm_compute. repeat split; reflexivity. Qed.

(** On a store that holds a chunked prompt, a second import of the same
    array stores the same entries and fragments; the tag list comes in
    another order, the regular prompts being read back before the chunked
    ones. *)
Example import_twice_chunkedWorld :
  let run := importPromptsFromJson (platform := examplePlatform importTexts)
               (environment := storageWorks) importText in
  let w1 := (run chunkedWorld).2 in
  let w2 := (run w1).2 in
  PROMPTS (syncArea w2) = PROMPTS (syncArea w1)
  /\ PROMPT_CHUNKS (syncArea w2) = PROMPT_CHUNKS (syncArea w1)
  /\ TAGS (syncArea w1)
     = Some [js "test"; js "large"; js "chunking"; js "Imported"; js "Writing"]
  /\ TAGS (syncArea w2)
     = Some [js "Imported"; js "Writing"; js "test"; js "large"; js "chunking"].
Proof. vm_compute. repeat split; reflexivity. Qed.

(** * Further properties of the storage layer *)

(** ** The fragments of chunkPrompt *)

Lemma chunkLoop_lookup size fuel content : forall i k,
  0 < size ->
  length content - i <= fuel ->
  i + k * size < length content ->
  chunkLoop size fuel content i [] !! k
  = Some (slice content (i + k * size) (i + k * size + size)).
Proof.
  induction fuel as [|fuel IH]; intros i k Hsize Hfuel Hk; [lia|].
  rewrite chunkLoop_step by (done || lia).
  destruct k as [|k]; simpl.
  - by rewrite Nat.add_0_r.
  - rewrite IH by (done || lia). do 2 f_equal; lia.
Qed.

(** ** The bytes of the JSON text *)

Lemma utf8Length_ascii (c : N) (s : jsstring) :
  (c < 128)%N -> utf8Length (c :: s) = (1 + utf8Length s)%N.
Proof. intros Hc. simpl. by rewrite (proj2 (N.ltb_lt _ _) Hc). Qed.

Lemma utf8Length_cons_bounds (c : N) (s : jsstring) :
  (utf8Length s <= utf8Length (c :: s) + 2)%N
  /\ (1 <= utf8Length (c :: s))%N.
Proof.
  simpl. destruct (c <? 128)%N; [lia|]. destruct (c <? 2048)%N; [lia|].
  destruct (isLeadSurrogate c); [|lia].
  destruct s as [|d s']; [simpl; lia|].
  destruct (isTrailSurrogate d) eqn:Hd; [|lia].
  simpl. unfold isTrailSurrogate in Hd.
  apply andb_true_iff in Hd as [Hd1 Hd2].
  apply N.leb_le in Hd1. apply N.leb_le in Hd2.
  rewrite (proj2 (N.ltb_ge d 128)) by lia.
  rewrite (proj2 (N.ltb_ge d 2048)) by lia.
  unfold isLeadSurrogate.
  rewrite (proj2 (N.leb_gt d 56319)) by lia. rewrite andb_false_r.
  lia.
Qed.

Lemma utf8Length_cons (c : N) (s : jsstring) :
  utf8Length (c :: s)
  = (if (c <? 128)%N then 1 + utf8Length s
     else if (c <? 2048)%N then 2 + utf8Length s
     else if isLeadSurrogate c then
       match s with
       | d :: s'' =>
           if isTrailSurrogate d then 4 + utf8Length s''
           else 3 + utf8Length s
       | [] => 3
       end
     else 3 + utf8Length s)%N.
Proof. done. Qed.

(** A string that ends before a code unit that is no trail surrogate is
    encoded on its own. *)
Lemma utf8Length_app (n : nat) : forall (x : jsstring) (a : N) (b : jsstring),
  length x <= n -> isTrailSurrogate a = false ->
  utf8Length (x ++ a :: b) = (utf8Length x + utf8Length (a :: b))%N.
Proof.
  induction n as [|n IH]; intros x a b Hlen Ha.
  - destruct x; [done|simpl in Hlen; lia].
  - destruct x as [|c x']; [done|]. simpl in Hlen.
    change ((c :: x') ++ a :: b) with (c :: (x' ++ a :: b)).
    rewrite !(utf8Length_cons c).
    destruct (c <? 128)%N; [rewrite IH by (lia || done); lia|].
    destruct (c <? 2048)%N; [rewrite IH by (lia || done); lia|].
    destruct (isLeadSurrogate c); [|rewrite IH by (lia || done); lia].
    destruct x' as [|d x'']; cbn [app].
    + rewrite Ha. lia.
    + destruct (isTrailSurrogate d).
      * simpl in Hlen. rewrite IH by (lia || done). lia.
      * change (d :: x'' ++ a :: b) with ((d :: x'') ++ a :: b).
        rewrite IH by (lia || done). lia.
Qed.

Lemma hexDigit_ascii (n : N) : (n < 16)%N -> (hexDigit n < 128)%N.
Proof. intros Hn. unfold hexDigit. destruct (n <? 10)%N; lia. Qed.

Lemma utf8Length_unicodeEscape (c : N) (s : jsstring) :
  utf8Length (unicodeEscape c ++ s) = (6 + utf8Length s)%N.
Proof.
  unfold unicodeEscape. simpl app.
  rewrite !utf8Length_ascii;
    try (apply hexDigit_ascii, N.mod_lt; lia); try lia.
Qed.

(** [JSON.stringify] writes at least one byte for each code unit of a
    string. *)
Lemma quoteChars_bytes (n : nat) : forall s : jsstring,
  length s <= n -> (N.of_nat (length s) <= utf8Length (quoteChars s))%N.
Proof.
  induction n as [|n IH]; intros s Hlen.
  - destruct s; [done|simpl in Hlen; lia].
  - destruct s as [|c s']; [done|]. simpl in Hlen.
    assert (N.of_nat (length s') <= utf8Length (quoteChars s'))%N as Hs'
      by (apply IH; lia).
    change (length (c :: s')) with (S (length s')).
    cbn [quoteChars].
    do 7 (destruct (_ =? _)%N; [simpl; lia|]).
    destruct (c <? 32)%N; [rewrite utf8Length_unicodeEscape; lia|].
    destruct (isLeadSurrogate c) eqn:Hlead.
    + destruct s' as [|d s'']; [simpl; lia|].
      destruct (isTrailSurrogate d) eqn:Hd.
      * simpl in Hlen. rewrite utf8Length_cons.
        unfold isLeadSurrogate in Hlead.
        apply andb_true_iff in Hlead as [H1 H2]. apply N.leb_le in H1.
        rewrite (proj2 (N.ltb_ge c 128)) by lia.
        rewrite (proj2 (N.ltb_ge c 2048)) by lia.
        unfold isLeadSurrogate. rewrite (proj2 (N.leb_le _ _) H1), H2, Hd.
        cbn [andb].
        assert (N.of_nat (length s'') <= utf8Length (quoteChars s''))%N
          by (apply IH; lia).
        change (length (d :: s'')) with (S (length s'')). lia.
      * rewrite utf8Length_unicodeEscape. lia.
    + destruct (isTrailSurrogate c);
        [rewrite utf8Length_unicodeEscape; lia|].
      rewrite utf8Length_cons, Hlead.
      destruct (c <? 128)%N; [lia|]. destruct (c <? 2048)%N; lia.
Qed.

Lemma joinWith_cons (sep part : jsstring) rest :
  exists after, joinWith sep (part :: rest) = part ++ after.
Proof.
  destruct rest as [|next rest].
  - exists []. simpl. by rewrite app_nil_r.
  - by eexists.
Qed.

Lemma joinWith_cons_cons (sep part next : jsstring) rest :
  joinWith sep (part :: next :: rest)
  = part ++ sep ++ joinWith sep (next :: rest).
Proof. done. Qed.

Section FragmentProperties.
Context {platform : Platform}.

(** The JSON text of a prompt holds the quoted content between two
    quotation marks. *)
Lemma JSON_stringify_prompt_content prompt c :
  content prompt = Some c ->
  exists before after,
    JSON_stringify_prompt prompt
    = before ++ 34%N :: (quoteChars c ++ 34%N :: after).
Proof.
  intros Hc. unfold JSON_stringify_prompt. rewrite Hc.
  cbn [optMember app].
  destruct (joinWith_cons (js ",") (member "content" (JSON_quote c))
              (optMember "tags" JSON_stringify_strings (tags prompt)
               ++ optMember "createdAt" integerToJSON (createdAt prompt)
               ++ optMember "updatedAt" integerToJSON (updatedAt prompt)
               ++ optMember "chunkCount" integerToJSON (chunkCount prompt)
               ++ optMember "originalSize" Number_toString
                    (originalSize prompt)))
    as [rest Hrest].
  rewrite !joinWith_cons_cons, Hrest.
  change (member "content" (JSON_quote c))
    with (JSON_quote (js "content") ++ js ":"
          ++ [34%N] ++ quoteChars c ++ [34%N]).
  eexists (js "{" ++ member "id" (JSON_quote (id prompt)) ++ js ","
           ++ member "title" (JSON_quote (title prompt)) ++ js ","
           ++ JSON_quote (js "content") ++ js ":"), (rest ++ js "}").
  rewrite <- !app_assoc. reflexivity.
Qed.

Lemma promptSize_content prompt c :
  content prompt = Some c ->
  (N.of_nat (length c) < promptSize prompt)%N.
Proof.
  intros Hc. unfold promptSize.
  destruct (JSON_stringify_prompt_content prompt c Hc)
    as (before & after & ->).
  rewrite (utf8Length_app (length before)) by done.
  rewrite utf8Length_ascii by lia.
  rewrite (utf8Length_app (length (quoteChars c))) by done.
  pose proof (quoteChars_bytes (length c) c (le_n _)). lia.
Qed.

(** X1: the fragments of a prompt above the threshold are never empty, and
    their number is the length of the content divided by 3000, rounded
    up. *)
Theorem chunkPrompt_fragment_count prompt c :
  content prompt = Some c ->
  (MAX_PROMPT_SIZE_KB < promptSizeKB prompt)%Q ->
  exists metadata chunks,
    chunkPrompt prompt = Return (Some metadata, chunks)
    /\ length chunks = (length c + 2999) / 3000
    /\ chunkCount metadata = Some (Z.of_nat ((length c + 2999) / 3000))
    /\ Forall (fun chunk => chunk <> []) chunks.
Proof.
  intros Hc Hbig. apply exceedsLimit_true in Hbig.
  assert (length (splitContent c) = (length c + 2999) / 3000) as Hlen.
  { unfold splitContent. rewrite chunkLoop_length by (unfold CHUNK_SIZE_CHARS; lia).
    unfold CHUNK_SIZE_CHARS. f_equal. lia. }
  eexists _, _. split; [by apply chunkPrompt_large|].
  split; [done|]. split; [simpl; by rewrite Hlen|].
  eapply Forall_impl; [apply splitContent_bounds|].
  intros chunk [Hpos _] ->. simpl in Hpos. lia.
Qed.

(** X2: the fragment of index [k] is the slice of the content from
    [3000 * k] to [3000 * k + 3000], and there is a fragment of index [k]
    exactly when [3000 * k] is below the length of the content. *)
Theorem chunkPrompt_fragment_position prompt c :
  content prompt = Some c ->
  (MAX_PROMPT_SIZE_KB < promptSizeKB prompt)%Q ->
  exists metadata chunks,
    chunkPrompt prompt = Return (Some metadata, chunks)
    /\ forall k,
         chunks !! k
         = if 3000 * k <? length c
           then Some (slice c (3000 * k) (3000 * k + 3000))
           else None.
Proof.
  intros Hc Hbig. apply exceedsLimit_true in Hbig.
  eexists _, _. split; [by apply chunkPrompt_large|].
  intros k. destruct (3000 * k <? length c) eqn:Hk.
  - apply Nat.ltb_lt in Hk. unfold splitContent.
    rewrite chunkLoop_lookup; unfold CHUNK_SIZE_CHARS; try lia.
    do 2 f_equal; lia.
  - apply Nat.ltb_ge in Hk. apply lookup_ge_None.
    unfold splitContent.
    rewrite chunkLoop_length by (unfold CHUNK_SIZE_CHARS; lia).
    unfold CHUNK_SIZE_CHARS.
    apply Nat.lt_succ_r, Nat.Div0.div_lt_upper_bound. lia.
Qed.

(** X3: a prompt is chunked exactly when its serialised form has more than
    7168 bytes; at 7168 bytes and below [chunkPrompt] returns no metadata
    and no fragment. [JSON.stringify] writes at least one byte for each
    code unit of the content, so that a prompt whose content has 7168 code
    units or more is chunked whatever its characters and its other
    properties are. *)
Theorem chunkPrompt_threshold prompt :
  (exceedsLimit prompt = true <-> (7168 < promptSize prompt)%N)
  /\ ((promptSize prompt <= 7168)%N -> chunkPrompt prompt = Return (None, []))
  /\ (forall c,
        content prompt = Some c -> (7168 <= N.of_nat (length c))%N ->
        exists metadata,
          chunkPrompt prompt = Return (Some metadata, splitContent c)).
Proof.
  assert (exceedsLimit prompt = true <-> (7168 < promptSize prompt)%N) as Hiff.
  { rewrite <- exceedsLimit_true. unfold promptSizeKB, MAX_PROMPT_SIZE_KB, Qlt.
    simpl. lia. }
  split; [done|]. split.
  - intros Hle. apply chunkPrompt_small.
    destruct (exceedsLimit prompt); [|done].
    assert (7168 < promptSize prompt)%N by by apply Hiff. lia.
  - intros c Hc Hlen. eexists. apply chunkPrompt_large; [done|].
    apply Hiff. pose proof (promptSize_content prompt c Hc). lia.
Qed.

End FragmentProperties.

Lemma chunkPrompt_fragment_count_witness :
  exists metadata chunks,
    chunkPrompt (platform := examplePlatform []) largePrompt
    = Return (Some metadata, chunks)
    /\ length chunks = (length (default [] (content largePrompt)) + 2999) / 3000
    /\ chunkCount metadata
       = Some (Z.of_nat
                 ((length (default [] (content largePrompt)) + 2999) / 3000))
    /\ Forall (fun chunk => chunk <> []) chunks.
Proof.
  apply (chunkPrompt_fragment_count (platform := examplePlatform []) largePrompt).
  - reflexivity.
  - vm_compute. reflexivity.
Defined.

Lemma chunkPrompt_fragment_position_witness :
  exists metadata chunks,
    chunkPrompt (platform := examplePlatform []) largePrompt
    = Return (Some metadata, chunks)
    /\ forall k,
         chunks !! k
         = if 3000 * k <? length (default [] (content largePrompt))
           then Some (slice (default [] (content largePrompt))
                        (3000 * k) (3000 * k + 3000))
           else None.
Proof.
  apply (chunkPrompt_fragment_position (platform := examplePlatform [])
           largePrompt).
  - reflexivity.
  - vm_compute. reflexivity.
Defined.

Lemma chunkPrompt_threshold_witness :
  chunkPrompt (platform := examplePlatform []) smallPrompt = Return (None, [])
  /\ exists metadata,
       chunkPrompt (platform := examplePlatform []) largePrompt
       = Return (Some metadata,
                 splitContent (default [] (content largePrompt))).
Proof.
  split.
  - apply (chunkPrompt_threshold (platform := examplePlatform []) smallPrompt).
    vm_compute. discriminate.
  - apply (chunkPrompt_threshold (platform := examplePlatform []) largePrompt).
    + reflexivity.
    + vm_compute. discriminate.
Defined.

(** ** What savePrompts writes *)

Section SaveEffects.
Context {platform : Platform} {environment : Environment}.

Lemma dataToSave_keys prompts storageType data :
  dataToSave prompts storageType = Return data ->
  STORAGE_TYPE data = Some storageType
  /\ NOTION_CONFIG data = None /\ SYNC_STATUS data = None
  /\ TAGS data = Some (collectTags prompts)
  /\ is_Some (PROMPTS data) /\ is_Some (PROMPT_CHUNKS data).
Proof.
  unfold dataToSave.
  destruct (partitionPrompts emptyPartition prompts); [|done].
  intros [= <-]. simpl. by repeat split.
Qed.

Lemma store_area a items w b :
  area b (store a items w)
  = if decide (b = a) then writeItems items (area a w) else area b w.
Proof. by destruct a, b. Qed.

Lemma record_area e w b : area b (record e w) = area b w.
Proof. by destruct b. Qed.

Lemma afterCalls_area events w b : area b (afterCalls events w) = area b w.
Proof. by destruct b. Qed.

(** The outcomes of [savePrompts], by what Chrome answers to its writes. *)
Lemma savePrompts_outcomes prompts storageType w :
  (exists e, dataToSave prompts storageType = Throw e
             /\ savePrompts prompts storageType w = (Throw e, w))
  \/ exists data,
       dataToSave prompts storageType = Return data
       /\ ((exists events a,
              savePrompts prompts storageType w
              = (Return tt, store a data (afterCalls events w))
              /\ (a = selectedStorage storageType
                    /\ setError (selectedStorage storageType) data w = None
                  \/ storageType <> local /\ a = LocalArea
                     /\ setError SyncArea data w <> None))
           \/ exists e events,
                savePrompts prompts storageType w = (Throw e, afterCalls events w)).
Proof.
  destruct (dataToSave prompts storageType) as [data|e] eqn:Hdata.
  - right. exists data. split; [done|].
    destruct (setError (selectedStorage storageType) data w) as [message|] eqn:H1.
    + destruct (bool_decide (storageType = local)) eqn:Hlocal.
      * right. eexists _, _.
        unfold savePrompts. rewrite Hdata. run.
        rewrite (storageSet_failed _ _ _ _ H1), Hlocal. simpl. done.
      * apply bool_decide_eq_false in Hlocal.
        destruct (isQuotaError message) eqn:Hquota.
        -- assert (selectedStorage storageType = SyncArea) as Hsel.
           { unfold selectedStorage. by rewrite bool_decide_eq_false_2. }
           rewrite Hsel in H1.
           destruct (setError LocalArea data (afterCalls [StorageSet SyncArea data] w))
             as [message'|] eqn:H2.
           ++ right. eexists _, _.
              eapply savePrompts_fallback_fails; eauto. by rewrite Hsel.
           ++ left. eexists _, LocalArea.
              split; [|right; by rewrite H1].
              unfold savePrompts. rewrite Hdata, Hsel. run.
              rewrite (storageSet_failed _ _ _ _ H1).
              rewrite bool_decide_eq_false_2 by done. rewrite Hquota. simpl.
              rewrite (storageSet_ok _ _ _ H2). simpl.
              rewrite <- app_assoc. reflexivity.
        -- right. eexists _, _.
           unfold savePrompts. rewrite Hdata. run.
           rewrite (storageSet_failed _ _ _ _ H1).
           rewrite bool_decide_eq_false_2 by done. rewrite Hquota. simpl. done.
    + left. eexists _, _. split; [|by left].
      by apply savePrompts_ok.
  - left. exists e. split; [done|]. by apply savePrompts_throws.
Qed.

(** X4: a rejected [savePrompts] leaves both storage areas as they were.
    A resolved one has written the data to one area, the selected one or,
    for a storage type other than local, the local area; the other
    area, and the Notion configuration and the sync status of the written
    area, are as before. *)
Theorem savePrompts_effect prompts storageType w :
  let '(outcome, w') := savePrompts prompts storageType w in
  match outcome with
  | Throw _ => syncArea w' = syncArea w /\ localArea w' = localArea w
  | Return _ =>
      exists data a,
        dataToSave prompts storageType = Return data
        /\ (a = selectedStorage storageType
            \/ storageType <> local /\ a = LocalArea)
        /\ area a w' = writeItems data (area a w)
        /\ (forall b, b <> a -> area b w' = area b w)
        /\ NOTION_CONFIG (area a w') = NOTION_CONFIG (area a w)
        /\ SYNC_STATUS (area a w') = SYNC_STATUS (area a w)
  end.
Proof.
  destruct (savePrompts_outcomes prompts storageType w)
    as [(e & _ & ->)|(data & Hdata & [(events & a & -> & Ha)|(e & events & ->)])];
    [done| |done].
  destruct (dataToSave_keys _ _ _ Hdata) as (_ & Hconfig & Hstatus & _).
  exists data, a. split; [done|].
  split; [destruct Ha as [[? _]|(? & ? & _)]; auto|].
  rewrite !store_area, !afterCalls_area.
  rewrite decide_True by done.
  split; [done|]. split.
  - intros b Hb. rewrite store_area, afterCalls_area. by rewrite decide_False.
  - simpl. by rewrite Hconfig, Hstatus.
Qed.

(** X5: when the sync area holds prompts or a storage type, and the storage
    type is local or Chrome refuses the write to the sync area, what
    [getPrompts] returns after [savePrompts] is what it returned before:
    the sync area is as it was, and [getPrompts] reads the local area only
    when the sync area holds neither. *)
Theorem savePrompts_outside_sync_not_loaded prompts storageType w outcome w' :
  is_Some (PROMPTS (syncArea w)) \/ is_Some (STORAGE_TYPE (syncArea w)) ->
  storageType = local
  \/ (forall data, dataToSave prompts storageType = Return data ->
                   setError SyncArea data w <> None) ->
  savePrompts prompts storageType w = (outcome, w') ->
  syncArea w' = syncArea w /\ fst (getPrompts w') = fst (getPrompts w).
Proof.
  intros Hsync Hlocal Hsave.
  assert (syncArea w' = syncArea w) as Hsame.
  { destruct (savePrompts_outcomes prompts storageType w)
      as [(e & _ & Hrun)
         |(data & Hdata & [(events & a & Hrun & Ha)|(e & events & Hrun)])];
      rewrite Hrun in Hsave; injection Hsave as <- <-; [done| |done].
    assert (a = LocalArea) as ->; [|done].
    destruct Ha as [[-> Hok]|(_ & -> & _)]; [|done].
    destruct Hlocal as [->|Hrefused]; [done|].
    specialize (Hrefused data Hdata).
    unfold selectedStorage in *. by destruct (bool_decide _). }
  split; [done|]. rewrite !getPrompts_run. simpl. f_equal. f_equal.
  unfold consulted. rewrite Hsame.
  destruct Hsync as [H|H]; rewrite (bool_decide_eq_true_2 _ H); simpl;
    [done|by rewrite andb_false_r].
Qed.

(** X6: a list of records with distinct ids that [savePrompts] writes to
    the selected area is what [getPrompts] returns afterwards, the records
    stored whole first and the chunked ones after them, provided that no
    record above the threshold has the id [__proto__] (its fragments would
    not be stored) and that the sync area is the written one or holds
    neither prompts nor a storage type. The callback of the load returns
    on the store that is written. When no record is above the threshold
    the order is kept as well. *)
Theorem savePrompts_getPrompts_roundtrip prompts storageType w :
  Forall isRecord prompts ->
  List.NoDup (map id prompts) ->
  (forall prompt, In prompt prompts -> isChunked prompt = true ->
                  id prompt <> PROTO) ->
  setError (selectedStorage storageType) (storedItems prompts storageType) w
  = None ->
  (storageType = local ->
   PROMPTS (syncArea w) = None /\ STORAGE_TYPE (syncArea w) = None) ->
  exists w1 w2 loaded,
    savePrompts prompts storageType w = (Return tt, w1)
    /\ processCallback (consulted w1) = Return (loaded, storageType)
    /\ getPrompts w1 = (Return (loaded, storageType), w2)
    /\ loaded = List.filter isRegular prompts ++ List.filter isChunked prompts
    /\ Permutation prompts loaded
    /\ (Forall (fun prompt => isRegular prompt = true) prompts ->
        loaded = prompts).
Proof.
  intros Hrecords Hids Hproto Hwrite Hsync.
  assert (Forall (fun prompt => content prompt <> None) prompts) as Hcontent.
  { eapply Forall_impl; [exact Hrecords|]. by intros p [? _]. }
  pose proof (savePrompts_ok prompts storageType _ w
                (dataToSave_storedItems prompts storageType Hcontent) Hwrite)
    as Hsave.
  eexists _, _, _. split; [exact Hsave|].
  rewrite getPrompts_run.
  assert (loadsOwn
            (writeItems (storedItems prompts storageType)
               (area (selectedStorage storageType) w))) as Hown.
  { unfold loadsOwn. simpl. unfold storedPrompts.
    rewrite List.Forall_forall in Hrecords.
    apply Forall_forall. intros entry Hentry Hc Hnone.
    apply list_elem_of_In, in_app_iff in Hentry as [Hentry|Hentry].
    - apply List.filter_In in Hentry as [Hentry _].
      by rewrite (isRecord_not_chunked entry (Hrecords entry Hentry)) in Hc.
    - apply in_map_iff in Hentry as (p & <- & Hp).
      pose proof Hp as Hp'. apply List.filter_In in Hp' as [Hin Hchunked].
      simpl in Hnone. unfold storedChunks in Hnone.
      rewrite insertChunks_latest in Hnone by by apply Hproto.
      rewrite lookup_empty in Hnone.
      destruct (latest (List.filter isChunked prompts) (id p)) eqn:Hl;
        [done|].
      apply latest_None in Hl. exfalso. apply Hl. by apply in_map. }
  assert (consulted
            (store (selectedStorage storageType)
               (storedItems prompts storageType)
               (afterCalls
                  [StorageSet (selectedStorage storageType)
                     (storedItems prompts storageType)] w))
          = writeItems (storedItems prompts storageType)
              (area (selectedStorage storageType) w)) as ->.
  { unfold selectedStorage, consulted.
    destruct storageType; simpl; [|done].
    destruct (Hsync eq_refl) as [-> ->]. done. }
  rewrite (processCallback_own _ Hown), processPrompts_stored.
  assert (loadedAfter prompts
          = List.filter isRegular prompts ++ List.filter isChunked prompts)
    as Hloaded.
  { rewrite loadedAfter_reloaded by done.
    rewrite <- (List.map_id (_ ++ _)) at 2.
    apply List.map_ext_in. intros p Hp.
    assert (isRecord p) as Hrecord.
    { rewrite List.Forall_forall in Hrecords. apply Hrecords.
      apply List.in_app_or in Hp as [Hp|Hp];
        by apply List.filter_In in Hp as [? _]. }
    unfold reloaded.
    rewrite (isRecord_not_chunked p Hrecord), (rebuilt_record p Hrecord).
    by destruct (isRegular p). }
  rewrite Hloaded. split; [done|]. split; [done|]. split; [done|]. split.
  - rewrite (List.filter_ext_in isChunked (fun p => negb (isRegular p))).
    + apply Permutation_filter_split.
    + intros p Hp. rewrite List.Forall_forall in Hrecords.
      destruct (Hrecords p Hp) as (Hc & _ & _ & Hnonempty).
      unfold isChunked, isRegular. rewrite negb_involutive.
      destruct (exceedsLimit p); [|done]. simpl.
      apply Nat.ltb_lt.
      destruct (splitContent (contentOf p)) eqn:Hsplit; [|simpl; lia].
      apply splitContent_nil in Hsplit. unfold contentOf in Hsplit.
      destruct (content p); [|done]. simpl in Hsplit. subst.
      by destruct Hnonempty.
  - intros Hregular.
    rewrite (List.forallb_filter_id isRegular prompts)
      by (apply forallb_forall; by rewrite <- List.Forall_forall).
    rewrite (List.filter_ext_in isChunked (fun _ => false));
      [by rewrite List.filter_false, app_nil_r|].
    intros p Hp. rewrite List.Forall_forall in Hregular.
    destruct (isChunked p) eqn:Hchunked; [|done].
    apply isRegular_isChunked in Hchunked. by rewrite (Hregular p Hp) in Hchunked.
Qed.

(** X7: the tag index [savePrompts] writes has no tag twice, and its tags
    are those of the prompts that have tags. *)
Theorem collectTags_index prompts :
  List.NoDup (collectTags prompts)
  /\ forall tag,
       In tag (collectTags prompts)
       <-> exists prompt ts,
             In prompt prompts /\ tags prompt = Some ts /\ In tag ts.
Proof.
  split; [|apply collectTags_In].
  unfold collectTags.
  assert (forall ts allTags,
            List.NoDup allTags -> List.NoDup (foldl addTag allTags ts)) as Hadd.
  { induction ts as [|t ts IH]; intros allTags Hnd; [done|]. simpl.
    apply IH. unfold addTag. destruct (bool_decide (t ∈ allTags)) eqn:Hin; [done|].
    apply bool_decide_eq_false in Hin.
    apply NoDup_ListNoDup, NoDup_app. apply NoDup_ListNoDup in Hnd.
    split; [done|]. split; [|apply NoDup_singleton].
    intros x Hx ->%list_elem_of_singleton. done. }
  assert (forall allTags,
            List.NoDup allTags ->
            List.NoDup
              (foldl (fun allTags prompt =>
                        match tags prompt with
                        | Some ts => foldl addTag allTags ts
                        | None => allTags
                        end) allTags prompts)) as Hall.
  { induction prompts as [|p prompts IH]; intros allTags Hnd; [done|]. simpl.
    apply IH. destruct (tags p); [by apply Hadd|done]. }
  apply Hall. constructor.
Qed.

(** X8: [savePrompts] writes the shell of every prompt that it splits,
    after the prompts stored whole. The fragment map it writes holds, under
    an id other than [__proto__], the fragments of the last split prompt of
    that id, and nothing under the other ids. Under [__proto__] it holds
    nothing: the fragments of a prompt with that id are not stored. *)
Theorem dataToSave_fragments prompts storageType data :
  dataToSave prompts storageType = Return data ->
  exists chunks,
    PROMPT_CHUNKS data = Some chunks
    /\ PROMPTS data
       = Some (List.filter isRegular prompts
               ++ map shellOf (List.filter isChunked prompts))
    /\ forall k,
         chunks !! k
         = if decide (k = PROTO) then None
           else match latest (List.filter isChunked prompts) k with
                | Some prompt => Some (splitContent (contentOf prompt))
                | None => None
                end.
Proof.
  intros Hdata.
  pose proof (dataToSave_content _ _ _ Hdata) as Hcontent.
  rewrite (dataToSave_spec _ storageType Hcontent) in Hdata.
  injection Hdata as <-. eexists. split; [done|]. split; [done|].
  intros k. destruct (decide (k = PROTO)) as [->|Hk].
  - by rewrite insertChunks_proto.
  - by rewrite insertChunks_latest, lookup_empty.
Qed.

End SaveEffects.

Lemma savePrompts_outside_sync_not_loaded_witness :
  let w' :=
    (savePrompts (platform := examplePlatform []) (environment := syncQuotaFull)
       [smallPrompt] notion shortWorld).2 in
  syncArea w' = syncArea shortWorld
  /\ fst (getPrompts w') = fst (getPrompts shortWorld).
Proof.
  apply (savePrompts_outside_sync_not_loaded
           (platform := examplePlatform []) (environment := syncQuotaFull)
           [smallPrompt] notion shortWorld
           (savePrompts (platform := examplePlatform [])
              (environment := syncQuotaFull) [smallPrompt] notion shortWorld).1).
  - left. eexists. reflexivity.
  - right. intros data _. simpl. discriminate.
  - apply surjective_pairing.
Defined.

(** After the fallback of the example the local area holds the saved
    prompt, and [getPrompts] returns the record of the sync area. *)
Example savePrompts_fallback_hidden :
  let w' :=
    (savePrompts (platform := examplePlatform []) (environment := syncQuotaFull)
       [smallPrompt] notion shortWorld).2 in
  PROMPTS (localArea w') = Some [smallPrompt]
  /\ fst (getPrompts w') = Return ([shortPrompt], notion).
Proof. vm_compute. done. Qed.

Lemma savePrompts_getPrompts_roundtrip_witness :
  exists w1 w2 loaded,
    savePrompts (platform := examplePlatform []) (environment := storageWorks)
      [largePrompt; smallPrompt] notion emptyWorld = (Return tt, w1)
    /\ processCallback (consulted w1) = Return (loaded, notion)
    /\ getPrompts w1 = (Return (loaded, notion), w2)
    /\ loaded
       = List.filter (isRegular (platform := examplePlatform []))
           [largePrompt; smallPrompt]
         ++ List.filter (isChunked (platform := examplePlatform []))
              [largePrompt; smallPrompt]
    /\ Permutation [largePrompt; smallPrompt] loaded
    /\ (Forall (fun prompt =>
                  isRegular (platform := examplePlatform []) prompt = true)
          [largePrompt; smallPrompt] ->
        loaded = [largePrompt; smallPrompt]).
Proof.
  apply (savePrompts_getPrompts_roundtrip
           (platform := examplePlatform []) (environment := storageWorks)
           [largePrompt; smallPrompt] notion emptyWorld).
  - repeat constructor; discriminate.
  - repeat constructor; simpl.
    + intros [H|[]]. vm_compute in H. discriminate.
    + intros [].
  - intros prompt [<-|[<-|[]]] _; discriminate.
  - reflexivity.
  - discriminate.
Defined.

(** The large prompt of the example comes back after the small one. *)
Example savePrompts_getPrompts_order :
  fst (getPrompts
         (savePrompts (platform := examplePlatform [])
            (environment := storageWorks)
            [largePrompt; smallPrompt] notion emptyWorld).2)
  = Return ([smallPrompt; largePrompt], notion).
Proof. vm_compute. reflexivity. Qed.

Lemma dataToSave_fragments_witness :
  exists chunks,
    PROMPT_CHUNKS (storedItems (platform := examplePlatform [])
                     [largePrompt; protoPrompt] notion) = Some chunks
    /\ PROMPTS (storedItems (platform := examplePlatform [])
                  [largePrompt; protoPrompt] notion)
       = Some (List.filter (isRegular (platform := examplePlatform []))
                 [largePrompt; protoPrompt]
               ++ map (shellOf (platform := examplePlatform []))
                    (List.filter (isChunked (platform := examplePlatform []))
                       [largePrompt; protoPrompt]))
    /\ forall k,
         chunks !! k
         = if decide (k = PROTO) then None
           else match latest
                        (List.filter (isChunked (platform := examplePlatform []))
                           [largePrompt; protoPrompt]) k with
                | Some prompt => Some (splitContent (contentOf prompt))
                | None => None
                end.
Proof.
  apply (dataToSave_fragments (platform := examplePlatform [])
           [largePrompt; protoPrompt] notion).
  apply dataToSave_storedItems. repeat constructor; discriminate.
Defined.

(** The shell of the prompt with the id [__proto__] is stored without its
    fragments, and the load that follows returns it with the error text
    as content. *)
Example savePrompts_proto_fragments_lost :
  let w :=
    (savePrompts (platform := examplePlatform []) (environment := storageWorks)
       [largePrompt; protoPrompt] notion emptyWorld).2 in
  map id (default [] (PROMPTS (syncArea w)))
  = [js "test-large-prompt"; js "__proto__"]
  /\ map fst (map_to_list (default ∅ (PROMPT_CHUNKS (syncArea w))))
     = [js "test-large-prompt"]
  /\ map content (processPrompts (syncArea w)).1
     = [content largePrompt; Some CHUNKS_MISSING]
  /\ processCallback (syncArea w) = Return (processPrompts (syncArea w)).
Proof. vm_compute. repeat split; reflexivity. Qed.

(** ** The merge of an import *)

Section MergeOrder.

Lemma mapSet_app_present k v m1 m2 :
  In k (map fst m1) -> mapSet k v (m1 ++ m2) = mapSet k v m1 ++ m2.
Proof.
  induction m1 as [|[k' v'] m1 IH]; intros Hin; [done|]. simpl in *.
  destruct (decide (k = k')); [done|].
  rewrite IH; [done|]. destruct Hin as [->|Hin]; done.
Qed.

Lemma mapSet_app_fresh k v m1 m2 :
  ~ In k (map fst m1) -> mapSet k v (m1 ++ m2) = m1 ++ mapSet k v m2.
Proof.
  induction m1 as [|[k' v'] m1 IH]; intros Hin; [done|]. simpl in *.
  destruct (decide (k = k')) as [->|]; [tauto|].
  rewrite IH; [done|]. tauto.
Qed.

Lemma setAll_snoc m prompts prompt :
  setAll m (prompts ++ [prompt]) = mapSet (id prompt) prompt (setAll m prompts).
Proof. unfold setAll. by rewrite foldl_app. Qed.

(** The test of [filter] for the prompts whose id is not a key of [m]. *)
Lemma setAll_split prompts : forall m,
  List.NoDup (map fst m) ->
  setAll m prompts
  = map (fun entry => (entry.1, default entry.2 (latest prompts entry.1))) m
    ++ setAll []
         (List.filter (fun prompt => negb (bool_decide (id prompt ∈ map fst m)))
            prompts).
Proof.
  induction prompts as [|prompt prompts IH] using rev_ind; intros m Hnd.
  - simpl. rewrite app_nil_r. rewrite <- (map_id m) at 1.
    apply map_ext. by intros [k v].
  - rewrite setAll_snoc, (IH m Hnd), List.filter_app. simpl.
    destruct (bool_decide (id prompt ∈ map fst m)) eqn:Hin; simpl.
    + apply bool_decide_eq_true in Hin. apply list_elem_of_In in Hin.
      rewrite app_nil_r.
      rewrite mapSet_app_present
        by (rewrite map_map; simpl; by rewrite (map_ext _ fst)).
      f_equal.
      rewrite mapSet_present;
        [|rewrite map_map; simpl; by rewrite (map_ext _ fst)
         |rewrite map_map; simpl; by rewrite (map_ext _ fst)].
      rewrite map_map. apply map_ext. intros [k v]. simpl.
      f_equal. rewrite latest_app. simpl.
      destruct (decide (k = id prompt)) as [->|Hne].
      * by rewrite decide_True.
      * rewrite decide_False by done. by destruct (latest prompts k).
    + apply bool_decide_eq_false in Hin. rewrite list_elem_of_In in Hin.
      rewrite mapSet_app_fresh
        by (rewrite map_map; simpl; by rewrite (map_ext _ fst)).
      rewrite setAll_snoc. f_equal.
      apply List.map_ext_in. intros [k v] Hkv. simpl. f_equal.
      rewrite latest_app. simpl.
      destruct (decide (id prompt = k)) as [<-|Hne]; [|by destruct (latest prompts k)].
      exfalso. apply Hin. apply (in_map fst) in Hkv. done.
Qed.

(** X9: the merged list of an import has no id twice; its ids are those
    of the current and of the imported prompts; and under each id it holds
    the last imported prompt of that id or, when none is imported, the
    last current prompt of that id. *)
Theorem mergePrompts_membership current imported :
  let merged := mergePrompts current imported in
  List.NoDup (map id merged)
  /\ (forall k, In k (map id merged)
                <-> In k (map id current) \/ In k (map id imported))
  /\ (forall prompt,
        In prompt merged
        <-> latest imported (id prompt) = Some prompt
            \/ (latest imported (id prompt) = None
                /\ latest current (id prompt) = Some prompt)).
Proof.
  intros merged. subst merged.
  assert (forall k, In k (map id (mergePrompts current imported))
                    <-> In k (map id current) \/ In k (map id imported)) as Hids.
  { intros k. rewrite mergePrompts_ids, setAll_keys, setAll_keys. simpl. tauto. }
  split; [apply mergePrompts_NoDup|]. split; [exact Hids|].
  intros prompt. split.
  - intros Hin. unfold mergePrompts in Hin. apply in_map_iff in Hin.
    destruct Hin as ([k v] & <- & Hin). simpl.
    apply mergePrompts_entries in Hin as [<- Hlatest].
    destruct (latest imported (id v)); [left; by subst|by right].
  - intros Hlatest.
    assert (In (id prompt) (map id (mergePrompts current imported))) as Hid.
    { apply Hids. destruct Hlatest as [H|[_ H]];
        apply latest_Some in H as [_ H]; [right|left]; by apply in_map. }
    apply in_map_iff in Hid as (winner & Hwinner & Hin).
    pose proof Hin as Hin'. unfold mergePrompts in Hin'.
    apply in_map_iff in Hin' as ([k v] & Hv & Hentry). simpl in Hv. subst v.
    apply mergePrompts_entries in Hentry as [Hk Hentry].
    rewrite <- Hk, Hwinner in Hentry.
    destruct Hlatest as [H|[H1 H2]].
    + rewrite H in Hentry. by subst.
    + rewrite H1 in Hentry. rewrite H2 in Hentry. injection Hentry as <-. done.
Qed.

(** X10: when the current prompts have distinct ids, the merged list is
    the current list, each prompt in its place and replaced by the last
    imported prompt of its id if there is one, followed by the merge of
    the imported prompts whose id is new. An empty import gives the
    current list. *)
Theorem mergePrompts_keeps_order current imported :
  List.NoDup (map id current) ->
  mergePrompts current imported
  = map (overwrittenBy imported) current
    ++ mergePrompts []
         (List.filter
            (fun prompt => negb (bool_decide (id prompt ∈ map id current)))
            imported)
  /\ mergePrompts current [] = current.
Proof.
  intros Hnd.
  assert (setAll [] current = map entryOf current) as Hcurrent.
  { by rewrite setAll_fresh. }
  assert (map fst (map entryOf current) = map id current) as Hkeys.
  { rewrite map_map. by apply map_ext. }
  assert (forall imported,
            mergePrompts current imported
            = map (overwrittenBy imported) current
              ++ mergePrompts []
                   (List.filter
                      (fun prompt =>
                         negb (bool_decide (id prompt ∈ map id current)))
                      imported)) as Hmerge.
  { intros l. unfold mergePrompts. rewrite Hcurrent.
    rewrite setAll_split by by rewrite Hkeys.
    rewrite Hkeys, List.map_app. f_equal.
    rewrite !map_map. by apply map_ext. }
  split; [apply Hmerge|].
  rewrite Hmerge. simpl. rewrite app_nil_r.
  rewrite <- (map_id current) at 2. by apply map_ext.
Qed.

End MergeOrder.

Lemma mergePrompts_keeps_order_witness :
  mergePrompts [smallPrompt; shortPrompt] [largePrompt; shortPrompt]
  = map (overwrittenBy [largePrompt; shortPrompt]) [smallPrompt; shortPrompt]
    ++ mergePrompts []
         (List.filter
            (fun prompt =>
               negb (bool_decide
                       (id prompt ∈ map id [smallPrompt; shortPrompt])))
            [largePrompt; shortPrompt])
  /\ mergePrompts [smallPrompt; shortPrompt] [] = [smallPrompt; shortPrompt].
Proof.
  apply (mergePrompts_keeps_order [smallPrompt; shortPrompt]
           [largePrompt; shortPrompt]).
  repeat constructor; simpl.
  - intros [H|[]]. vm_compute in H. discriminate.
  - intros [].
Defined.

(** ** Validation and outcome of an import *)

Section ImportOutcome.
Context {platform : Platform} {environment : Environment}.

Lemma validateFrom_app valid : forall index imported elements,
  validateFrom index valid = Return imported ->
  validateFrom index (valid ++ elements)
  = match validateFrom (index + length valid) elements with
    | Return prompts => Return (imported ++ prompts)
    | Throw e => Throw e
    end.
Proof.
  induction valid as [|element valid IH]; intros index imported elements Hvalid.
  - injection Hvalid as <-. simpl. rewrite Nat.add_0_r.
    by destruct (validateFrom index elements).
  - simpl in *. destruct (validateElement index element) as [prompt|]; [|done].
    destruct (validateFrom (S index) valid) as [prompts|] eqn:Hrest; [|done].
    injection Hvalid as <-.
    rewrite (IH (S index) prompts elements Hrest).
    replace (S index + length valid) with (index + S (length valid)) by lia.
    by destruct (validateFrom _ elements).
Qed.

(** X11: the validation of an imported array stops at the first element
    that is not an object with a non-empty id, title and content: the
    error names the index of that element, or is the error of reading a
    property of null when the element is null. The elements after it play
    no part, and the import is rejected with that error before storage is
    read. *)
Theorem importPromptsFromJson_first_invalid json valid element rest w :
  JSON_parse json = ParsedArray (valid ++ element :: rest) ->
  Forall (fun element => ~ lacksRequiredField element) valid ->
  lacksRequiredField element ->
  let e := match element with
           | ElNull => cannotReadId
           | _ => invalidPrompt (length valid)
           end in
  validateFrom 0 (valid ++ element :: rest) = Throw e
  /\ importPromptsFromJson json w = (Throw e, w).
Proof.
  intros Hparse Hvalid Hlacks e.
  assert (validateFrom 0 (valid ++ element :: rest) = Throw e) as Hthrow.
  { destruct (validateFrom_valid valid 0 Hvalid) as (imported & Himported & _).
    rewrite (validateFrom_app _ _ _ _ Himported). simpl.
    destruct element as [| |r]; [done..|]. simpl in *.
    assert (negb (nonEmpty (raw_id r)) || negb (nonEmpty (raw_title r))
            || negb (nonEmpty (raw_content r)) = true) as ->; [|done].
    rewrite <- !nonEmpty_false in Hlacks.
    destruct Hlacks as [->|[->| ->]]; simpl; by rewrite ?orb_true_r. }
  split; [done|].
  unfold importPromptsFromJson. by rewrite Hparse, Hthrow.
Qed.

(** X12: a rejected import leaves both storage areas as they were. A
    resolved one returns the merge of the records [getPrompts] returns
    with the validated array, and has written it to one storage area,
    under the storage type that [getPrompts] returned. *)
Theorem importPromptsFromJson_outcome json w :
  let '(outcome, w') := importPromptsFromJson json w in
  match outcome with
  | Throw _ => syncArea w' = syncArea w /\ localArea w' = localArea w
  | Return merged =>
      exists elements imported data a,
        JSON_parse json = ParsedArray elements
        /\ validateFrom 0 elements = Return imported
        /\ merged = mergePrompts (loaded w) imported
        /\ dataToSave merged (processPrompts (consulted w)).2 = Return data
        /\ area a w' = writeItems data (area a w)
        /\ (forall b, b <> a -> area b w' = area b w)
  end.
Proof.
  unfold importPromptsFromJson.
  destruct (JSON_parse json) as [message| |elements] eqn:Hparse; [done..|].
  destruct (validateFrom 0 elements) as [imported|e] eqn:Hvalid; [|done].
  unfold mbind, Async_bind, await. rewrite getPrompts_run.
  unfold loaded. destruct (processPrompts (consulted w)) as [current st].
  cbn [fst snd].
  destruct (savePrompts_outcomes (mergePrompts current imported) st
              (afterCalls (readsOf w) w))
    as [(e & _ & ->)
       |(data & Hdata & [(events & a & -> & Ha)|(e & events & ->)])];
    [done| |done].
  unfold resolve. exists elements, imported, data, a.
  repeat split; try done.
  - by rewrite store_area, decide_True, !afterCalls_area.
  - intros b Hb. by rewrite store_area, decide_False, !afterCalls_area.
Qed.

End ImportOutcome.

Lemma importPromptsFromJson_first_invalid_witness :
  validateFrom 0 ([ElObject importedShort] ++ ElObject titleOnly :: [ElNull])
  = Throw (invalidPrompt 1)
  /\ importPromptsFromJson (platform := examplePlatform invalidSecondTexts)
       (environment := storageWorks) invalidSecondText shortWorld
     = (Throw (invalidPrompt 1), shortWorld).
Proof.
  apply (importPromptsFromJson_first_invalid
           (platform := examplePlatform invalidSecondTexts)
           (environment := storageWorks)
           invalidSecondText [ElObject importedShort] (ElObject titleOnly)
           [ElNull]
           shortWorld).
  - reflexivity.
  - repeat constructor. simpl. unfold missingOrEmpty.
    intros [[H|H]|[[H|H]|[H|H]]]; discriminate H.
  - simpl. left. by left.
Defined.

(** ** What getPrompts and searchPrompts leave alone *)

Section ReadOnly.
Context {platform : Platform}.

Lemma loadEntry_fields chunks entry :
  id (loadEntry chunks entry) = id entry
  /\ title (loadEntry chunks entry) = title entry
  /\ tags (loadEntry chunks entry) = tags entry
  /\ createdAt (loadEntry chunks entry) = createdAt entry
  /\ updatedAt (loadEntry chunks entry) = updatedAt entry.
Proof.
  destruct (loadEntry_cases chunks entry)
    as [[_ ->]|[(fragments & _ & _ & _ & ->)|(_ & _ & ->)]]; done.
Qed.

(** X13: when the callback of the load returns, [getPrompts] resolves; it
    has changed neither storage area and has called [get] on the sync
    area, and on the local area after it when the sync area holds neither
    prompts nor a storage type. It returns one record for each stored
    entry, in the order of the entries, with the id, title, tags and time
    stamps of the entry, and the stored storage type, local when none is
    stored. The callback throws, and the promise stays pending, exactly
    when an entry with a positive [chunkCount] has no fragments of its own
    and an id that names a method of [Object.prototype] whose [length] is
    that [chunkCount]. *)
Theorem getPrompts_reads_only w :
  match processCallback (consulted w) with
  | Return (loaded, storageType) =>
      loadsOwn (consulted w)
      /\ exists w',
           getPrompts w = (Return (loaded, storageType), w')
           /\ syncArea w' = syncArea w /\ localArea w' = localArea w
           /\ (calls w' = calls w ++ [StorageGet SyncArea]
               \/ PROMPTS (syncArea w) = None
                  /\ STORAGE_TYPE (syncArea w) = None
                  /\ calls w'
                     = calls w ++ [StorageGet SyncArea; StorageGet LocalArea])
           /\ storageType = default local (STORAGE_TYPE (consulted w))
           /\ Forall2
                (fun entry prompt =>
                   id prompt = id entry /\ title prompt = title entry
                   /\ tags prompt = tags entry
                   /\ createdAt prompt = createdAt entry
                   /\ updatedAt prompt = updatedAt entry)
                (default [] (PROMPTS (consulted w))) loaded
  | Throw e =>
      e = joinIsNotAFunction
      /\ ~ loadsOwn (consulted w)
      /\ exists entry,
           In entry (default [] (PROMPTS (consulted w)))
           /\ hasChunkCount entry = true
           /\ default ∅ (PROMPT_CHUNKS (consulted w)) !! id entry = None
           /\ inheritedLength (id entry) = chunkCount entry
  end.
Proof.
  destruct (processCallback_cases (consulted w)) as [[Hown Hr]|[Hno Hr]].
  - rewrite Hr.
    destruct (processPrompts (consulted w)) as [loaded storageType] eqn:Hp.
    split; [done|]. eexists. rewrite getPrompts_run, Hp.
    split; [reflexivity|]. unfold processPrompts in Hp.
    injection Hp as <- <-.
    split; [done|]. split; [done|]. split; [|split; [done|]].
    + simpl. unfold readsOf.
      destruct (PROMPTS (syncArea w)), (STORAGE_TYPE (syncArea w)); simpl; auto.
    + clear. induction (default [] (PROMPTS (consulted w)))
        as [|entry entries IH]; simpl; [constructor|].
      constructor; [apply loadEntry_fields|done].
  - rewrite Hr. destruct (processCallback_throws _ _ Hr) as [_ Hentry].
    done.
Qed.

Lemma filterThrowing_sublist {A} (callback : A -> Completion bool) l :
  match filterThrowing callback l with
  | Return kept => sublist kept l
  | Throw e => exists a, In a l /\ callback a = Throw e
  end.
Proof.
  induction l as [|a l IH]; simpl; [constructor|].
  destruct (callback a) as [keep|e] eqn:Ha; [|exists a; auto].
  destruct (filterThrowing callback l) as [kept|e].
  - destruct keep; by constructor.
  - destruct IH as (b & Hb & Hthrow). exists b. auto.
Qed.

(** X14: [searchPrompts] changes neither storage area. When it resolves,
    the records it returns are records that [getPrompts] returns, each
    once and in their order. It is rejected only when the trimmed query
    is not empty and a loaded record has no content, with the error of
    reading [toLowerCase] of undefined. *)
Theorem searchPrompts_outcome query required w :
  let '(outcome, w') := searchPrompts query required w in
  syncArea w' = syncArea w /\ localArea w' = localArea w
  /\ match outcome with
     | Return found => sublist found (loaded w)
     | Throw e =>
         e = cannotReadToLowerCase
         /\ trim (String_toLowerCase query) <> []
         /\ exists prompt, In prompt (loaded w) /\ content prompt = None
     end.
Proof.
  unfold searchPrompts, mbind, Async_bind, await. rewrite getPrompts_run.
  unfold loaded. destruct (processPrompts (consulted w)) as [prompts st].
  cbn [fst snd].
  destruct (negb (0 <? length query) && (length required =? 0)).
  { simpl. by repeat split. }
  pose proof (filterThrowing_sublist
                (searchMatches (trim (String_toLowerCase query)) required)
                prompts) as Hfilter.
  destruct (filterThrowing _ prompts) as [found|e]; simpl;
    (split; [done|]); (split; [done|]); [done|].
  destruct Hfilter as (prompt & Hin & Hthrow).
  unfold searchMatches in Hthrow.
  destruct (_ && _) in Hthrow; [done|].
  destruct (trim (String_toLowerCase query)) as [|c needle] eqn:Hneedle;
    [done|]. simpl in Hthrow.
  destruct (content prompt) eqn:Hcontent; [done|].
  injection Hthrow as <-. repeat split; [done|]. by exists prompt.
Qed.

(** X15: [savePrompts] takes a failed write for a quota failure exactly
    when the message of the error contains QUOTA_BYTES: the second test,
    for QUOTA_BYTES_PER_ITEM, adds no case. An error without a message is
    no quota failure. *)
Theorem isQuotaError_spec message :
  isQuotaError message = true
  <-> exists m, message = Some m /\ isSubstringOf (js "QUOTA_BYTES") m.
Proof.
  unfold isQuotaError. destruct message as [m|].
  - rewrite orb_true_iff, !includes_spec. split.
    + intros [H|(before & after & Hm)]; exists m; split; try done.
      exists before, (js "_PER_ITEM" ++ after).
      by rewrite (app_assoc (js "QUOTA_BYTES") (js "_PER_ITEM") after).
    + intros (m' & [= <-] & H). by left.
  - split; [done|]. by intros (m & ? & _).
Qed.

End ReadOnly.

(** ** Tags, Notion configuration and sync status *)

Section TagsConfigStatus.
Context {platform : Platform} {environment : Environment}.

Lemma getAllTags_run w :
  getAllTags w
  = (Return (if noTags (TAGS (syncArea w)) then DEFAULT_TAGS
             else default [] (TAGS (syncArea w))),
     afterCalls [StorageGet SyncArea] w).
Proof.
  unfold getAllTags. run. by destruct (noTags (TAGS (syncArea w))).
Qed.

(** X16: [getAllTags] always resolves, with a list that is not empty: the
    tags stored in the sync area, or the eight default tags when none or
    an empty list is stored. It changes neither storage area. *)
Theorem getAllTags_never_empty w :
  exists allTags w',
    getAllTags w = (Return allTags, w')
    /\ allTags <> []
    /\ length DEFAULT_TAGS = 8
    /\ (TAGS (syncArea w) = Some allTags
        \/ allTags = DEFAULT_TAGS
           /\ (TAGS (syncArea w) = None \/ TAGS (syncArea w) = Some []))
    /\ syncArea w' = syncArea w /\ localArea w' = localArea w.
Proof.
  eexists _, _. rewrite getAllTags_run. split; [reflexivity|].
  destruct (TAGS (syncArea w)) as [[|tag ts]|]; simpl; repeat split; auto.
  all: done.
Qed.

(** X17: [initializeDefaultTags] does not change what [getAllTags]
    returns, whether it resolves or is rejected. It writes only when the
    sync area holds no tag, and then only the tags; after it has
    resolved the sync area holds a list of tags that is not empty. *)
Theorem initializeDefaultTags_effect w :
  let '(outcome, w') := initializeDefaultTags w in
  fst (getAllTags w') = fst (getAllTags w)
  /\ localArea w' = localArea w
  /\ sameButTags (syncArea w) (syncArea w')
  /\ (noTags (TAGS (syncArea w)) = false ->
      w' = afterCalls [StorageGet SyncArea] w)
  /\ match outcome with
     | Return _ => noTags (TAGS (syncArea w')) = false
     | Throw _ => syncArea w' = syncArea w
     end.
Proof.
  unfold initializeDefaultTags. run.
  destruct (noTags (TAGS (syncArea w))) eqn:Hno; simpl.
  - unfold storageSet.
    destruct (setError SyncArea _ (record (StorageGet SyncArea) w))
      as [lastError|]; simpl; rewrite !getAllTags_run; simpl.
    + rewrite Hno. by repeat split.
    + rewrite Hno. by repeat split.
  - rewrite !getAllTags_run. simpl. rewrite Hno. by repeat split.
Qed.

(** X18: the tags [getAllTags] returns after [savePrompts]. With the
    storage type local they are those it returned before, whatever the
    prompts are tagged with. With another storage type, when Chrome
    accepts the write to the sync area, they are the tags of the saved
    prompts, or the default tags when the saved prompts have none. *)
Theorem getAllTags_after_savePrompts prompts storageType w outcome w' :
  savePrompts prompts storageType w = (outcome, w') ->
  (storageType = local -> fst (getAllTags w') = fst (getAllTags w))
  /\ (storageType <> local ->
      outcome = Return tt ->
      (forall data, dataToSave prompts storageType = Return data ->
                    setError SyncArea data w = None) ->
      fst (getAllTags w')
      = Return (if length (collectTags prompts) =? 0 then DEFAULT_TAGS
                else collectTags prompts)).
Proof.
  intros Hsave. rewrite !getAllTags_run. simpl.
  destruct (savePrompts_outcomes prompts storageType w)
    as [(e & _ & Hrun)
       |(data & Hdata & [(events & a & Hrun & Ha)|(e & events & Hrun)])];
    rewrite Hrun in Hsave; injection Hsave as <- <-.
  - split; [done|]. intros _ [=].
  - split.
    + intros ->. destruct Ha as [[-> _]|(? & _)]; done.
    + intros Hnotion _ Haccepted. specialize (Haccepted data Hdata).
      destruct Ha as [[-> _]|(_ & _ & ?)]; [|done].
      unfold selectedStorage. rewrite bool_decide_eq_false_2 by done. simpl.
      destruct (dataToSave_keys _ _ _ Hdata) as (_ & _ & _ & -> & _). done.
  - split; [done|]. intros _ [=].
Qed.

(** X19: after [saveNotionConfig] has resolved, [getNotionConfig] returns
    the saved configuration; when it is rejected the sync area is as
    before. In both cases the local area and the other keys of the sync
    area are unchanged. *)
Theorem saveNotionConfig_effect config w :
  let '(outcome, w') := saveNotionConfig config w in
  localArea w' = localArea w
  /\ sameButConfig (syncArea w) (syncArea w')
  /\ match outcome with
     | Return _ => fst (getNotionConfig w') = Return (Some config)
     | Throw _ => syncArea w' = syncArea w
     end.
Proof.
  unfold saveNotionConfig. run. unfold storageSet.
  destruct (setError SyncArea _ w) as [lastError|]; simpl; by repeat split.
Qed.

(** X20: after [updateSyncStatus] has resolved, [getSyncStatus] returns
    the status it returned before with the properties of the argument
    written over it; when it is rejected the sync area is as before. In
    both cases the local area and the other keys of the sync area are
    unchanged. *)
Theorem updateSyncStatus_effect status w :
  let '(outcome, w') := updateSyncStatus status w in
  localArea w' = localArea w
  /\ sameButStatus (syncArea w) (syncArea w')
  /\ match outcome with
     | Return _ =>
         fst (getSyncStatus w')
         = Return (patchStatus (currentStatus w) status)
     | Throw _ => syncArea w' = syncArea w
     end.
Proof.
  unfold updateSyncStatus. run. unfold storageSet.
  destruct (setError SyncArea _ _) as [lastError|]; simpl; by repeat split.
Qed.

End TagsConfigStatus.

(** ** A sync that succeeds *)

Section SyncSucceeds.
Context {platform : Platform} {environment : Environment}.
Hypothesis writes_succeed : forall a items w, setError a items w = None.

Lemma updateSyncStatus_ok status w :
  updateSyncStatus status w
  = (Return tt,
     store SyncArea (statusItems (patchStatus (currentStatus w) status))
       (afterCalls
          [StorageGet SyncArea;
           StorageSet SyncArea
             (statusItems (patchStatus (currentStatus w) status))] w)).
Proof.
  unfold updateSyncStatus, mbind, Async_bind, await.
  rewrite getSyncStatus_run.
  rewrite storageSet_ok by apply writes_succeed.
  unfold resolve, afterCalls. simpl. by rewrite <- app_assoc.
Qed.

(** X21: with a Notion configuration stored, on a store on which the
    callback of the load returns, when Chrome accepts every write and the
    Notion client resolves with prompts that all have a content,
    [syncWithNotion] resolves with these prompts. The sync area then holds
    what [savePrompts] stores for them under the storage type notion, and
    a status that is not in progress and whose time of the last sync is
    the time read after the save. The client is called with the loaded
    records, in a state whose status is in progress and without error. *)
Theorem syncWithNotion_success w config synced w2 :
  NOTION_CONFIG (syncArea w) = Some config ->
  loadsOwn (consulted w) ->
  notionSync (loaded w) (syncStarted w) = (Return synced, w2) ->
  Forall (fun prompt => content prompt <> None) synced ->
  exists w3 w',
    processCallback (consulted w) = Return (processPrompts (consulted w))
    /\ savePrompts synced notion w2 = (Return tt, w3)
    /\ syncWithNotion w = (Return synced, w')
    /\ SYNC_STATUS (syncArea w')
       = Some {| lastSynced := Some (now w3); inProgress := false;
                 error := error (currentStatus w2) |}
    /\ PROMPTS (syncArea w') = Some (storedPrompts synced)
    /\ PROMPT_CHUNKS (syncArea w') = Some (storedChunks synced)
    /\ STORAGE_TYPE (syncArea w') = Some notion
    /\ TAGS (syncArea w') = Some (collectTags synced)
    /\ NOTION_CONFIG (syncArea w') = NOTION_CONFIG (syncArea w2)
    /\ localArea w' = localArea w2
    /\ currentStatus (syncStarted w)
       = {| lastSynced := lastSynced (currentStatus w); inProgress := true;
            error := None |}.
Proof.
  intros Hconfig Hown Hclient Hcontent.
  pose proof (savePrompts_ok synced notion _ w2
                (dataToSave_storedItems synced notion Hcontent)
                (writes_succeed _ _ _)) as Hsave.
  eexists _, _. split; [by apply processCallback_own|].
  split; [exact Hsave|].
  rewrite syncWithNotion_start, Hconfig.
  unfold tryCatch, syncBody, mbind, Async_bind, await.
  rewrite updateSyncStatus_ok.
  change (store SyncArea _ _) with (syncStarted w).
  rewrite Hclient, Hsave.
  unfold Date_now. rewrite updateSyncStatus_ok.
  unfold resolve. split; [reflexivity|].
  simpl. unfold currentStatus. simpl.
  by repeat split.
Qed.

End SyncSucceeds.

Lemma syncWithNotion_success_witness :
  exists w',
    syncWithNotion (platform := examplePlatform []) (environment := storageWorks)
      configuredWorld = (Return [shortPrompt], w')
    /\ SYNC_STATUS (syncArea w')
       = Some {| lastSynced := Some 1700000000005%Z; inProgress := false;
                 error := None |}
    /\ PROMPTS (syncArea w') = Some [shortPrompt].
Proof.
  destruct (syncWithNotion_success
              (platform := examplePlatform []) (environment := storageWorks)
              (fun _ _ _ => eq_refl)
              configuredWorld {| apiKey := js "secret"; pageId := js "page" |}
              [shortPrompt] (syncStarted configuredWorld))
    as (w3 & w' & _ & Hsave & Hrun & Hstatus & Hprompts & _).
  - reflexivity.
  - apply loadsOwn_ownKey. repeat constructor; vm_compute; discriminate.
  - reflexivity.
  - repeat constructor. discriminate.
  - exists w'. split; [exact Hrun|]. split.
    + rewrite Hstatus. vm_compute in Hsave. injection Hsave as <-.
      vm_compute. reflexivity.
    + rewrite Hprompts. vm_compute. reflexivity.
Defined.

(** ** The time of the last sync, as the settings show it *)

Section LastSyncTimeProperties.
Variable toLocaleString : Z -> jsstring.

(** X22: a time stamp that is null or zero is shown as Never, and one
    less than a minute before the current time, or after it, as
    Just now. *)
Theorem formatLastSyncTime_never_or_just_now now :
  formatLastSyncTime toLocaleString now None = js "Never"
  /\ formatLastSyncTime toLocaleString now (Some 0%Z) = js "Never"
  /\ forall t, t <> 0%Z -> (now - t < 60000)%Z ->
               formatLastSyncTime toLocaleString now (Some t) = js "Just now".
Proof.
  split; [done|]. split; [done|]. intros t Ht Hdiff.
  unfold formatLastSyncTime.
  rewrite (proj2 (Z.eqb_neq t 0) Ht).
  assert ((now - t) / (1000 * 60) < 1)%Z as Hlt.
  { apply Z.div_lt_upper_bound; lia. }
  by rewrite (proj2 (Z.ltb_lt _ _) Hlt).
Qed.

(** X23: a time stamp between one minute and twenty-four hours before the
    current time is shown as a number of whole minutes, from 1 to 59, or
    of whole hours, from 1 to 23, followed by the unit and ago. The unit
    is in the singular exactly when the number shown is 1, and the
    date formatter is not used. *)
Theorem formatLastSyncTime_units now t :
  t <> 0%Z -> (60000 <= now - t < 86400000)%Z ->
  exists n unit,
    formatLastSyncTime toLocaleString now (Some t)
    = integerToString n ++ js " " ++ unit
      ++ (if (n =? 1)%Z then [] else js "s") ++ js " ago"
    /\ ((unit = js "minute" /\ n = ((now - t) / 60000)%Z /\ (1 <= n < 60)%Z)
        \/ (unit = js "hour" /\ n = ((now - t) / 3600000)%Z
            /\ (1 <= n < 24)%Z)).
Proof.
  intros Ht [Hlow Hhigh]. unfold formatLastSyncTime.
  rewrite (proj2 (Z.eqb_neq t 0) Ht).
  change (1000 * 60)%Z with 60000%Z. change (24 * 60)%Z with 1440%Z.
  set (d := ((now - t) / 60000)%Z).
  assert (1 <= d < 1440)%Z as [Hd1 Hd2].
  { subst d. split.
    - apply Z.div_le_lower_bound; lia.
    - apply Z.div_lt_upper_bound; lia. }
  rewrite (proj2 (Z.ltb_ge _ _) Hd1).
  destruct (d <? 60)%Z eqn:Hminutes.
  - apply Z.ltb_lt in Hminutes.
    exists d, (js "minute"). split; [reflexivity|left; by repeat split].
  - apply Z.ltb_ge in Hminutes.
    rewrite (proj2 (Z.ltb_lt _ _) Hd2).
    exists (d / 60)%Z, (js "hour"). split.
    + assert (negb (Qle_bool (2 # 1) (d # 60)) = (d / 60 =? 1)%Z) as ->.
      { destruct (Qle_bool (2 # 1) (d # 60)) eqn:Hq; simpl; symmetry.
        - apply Qle_bool_iff in Hq. unfold Qle in Hq. simpl in Hq.
          apply Z.eqb_neq.
          assert (2 <= d / 60)%Z by (apply Z.div_le_lower_bound; lia). lia.
        - apply Z.eqb_eq.
          assert (~ (2 # 1 <= d # 60)%Q) as Hq'.
          { intros H. apply Qle_bool_iff in H. congruence. }
          unfold Qle in Hq'. simpl in Hq'.
          assert (d / 60 < 2)%Z by (apply Z.div_lt_upper_bound; lia).
          assert (1 <= d / 60)%Z by (apply Z.div_le_lower_bound; lia).
          lia. }
      reflexivity.
    + right. split; [done|]. split.
      * subst d. by rewrite Z.div_div by lia.
      * split; [apply Z.div_le_lower_bound; lia
               |apply Z.div_lt_upper_bound; lia].
Qed.

End LastSyncTimeProperties.

Lemma formatLastSyncTime_never_or_just_now_witness :
  formatLastSyncTime (fun _ => []) 1700000000000%Z (Some 1700000030000%Z)
  = js "Just now".
Proof.
  apply (formatLastSyncTime_never_or_just_now (fun _ => []) 1700000000000%Z);
    [discriminate|reflexivity].
Defined.

Lemma formatLastSyncTime_units_witness :
  exists n unit,
    formatLastSyncTime (fun _ => []) 1700003600000%Z (Some 1700000000000%Z)
    = integerToString n ++ js " " ++ unit
      ++ (if (n =? 1)%Z then [] else js "s") ++ js " ago"
    /\ ((unit = js "minute"
         /\ n = ((1700003600000 - 1700000000000) / 60000)%Z
         /\ (1 <= n < 60)%Z)
        \/ (unit = js "hour"
            /\ n = ((1700003600000 - 1700000000000) / 3600000)%Z
            /\ (1 <= n < 24)%Z)).
Proof.
  apply (formatLastSyncTime_units (fun _ => []) 1700003600000%Z
           1700000000000%Z); [discriminate|split; [discriminate|reflexivity]].
Defined.

Example formatLastSyncTime_one_hour :
  formatLastSyncTime (fun _ => []) 1700003600000%Z (Some 1700000000000%Z)
  = js "1 hour ago"
  /\ formatLastSyncTime (fun _ => []) 1700007200000%Z (Some 1700000000000%Z)
     = js "2 hours ago"
  /\ formatLastSyncTime (fun _ => []) 1700000060000%Z (Some 1700000000000%Z)
     = js "1 minute ago".
Proof. vm_compute. done. Qed.

(** ** A prompt without content *)

Section MissingContent.
Context {platform : Platform} {environment : Environment}.

Lemma partitionStep_throws acc prompt e :
  partitionStep acc prompt = Throw e ->
  e = cannotReadLength /\ content prompt = None.
Proof.
  unfold partitionStep, chunkPrompt.
  destruct (content prompt) as [c|]; [|by intros [= <-]].
  destruct (exceedsLimit prompt); [|done].
  destruct (Qle_bool _ _); [done|]. simpl.
  by destruct (0 <? length (splitContent c)).
Qed.

Lemma partitionPrompts_throws prompts : forall acc e,
  partitionPrompts acc prompts = Throw e -> e = cannotReadLength.
Proof.
  induction prompts as [|prompt prompts IH]; intros acc e; simpl; [done|].
  destruct (partitionStep acc prompt) as [acc'|e'] eqn:Hstep.
  - apply IH.
  - intros [= <-]. by apply partitionStep_throws in Hstep as [-> _].
Qed.

(** X24: when one of the prompts has no content, [savePrompts] is
    rejected with the error of reading [length] of undefined, whatever
    the other prompts are, and calls neither storage area. *)
Theorem savePrompts_missing_content prompts prompt storageType w :
  In prompt prompts -> content prompt = None ->
  savePrompts prompts storageType w = (Throw cannotReadLength, w).
Proof.
  intros Hin Hnone.
  destruct (dataToSave_throws prompts storageType) as [e He].
  { rewrite List.Forall_forall. intros Hall. by apply (Hall prompt Hin). }
  assert (e = cannotReadLength) as ->.
  { unfold dataToSave in He.
    destruct (partitionPrompts emptyPartition prompts) as [acc|e'] eqn:Hp;
      [done|].
    injection He as <-. by eapply partitionPrompts_throws. }
  by apply savePrompts_throws.
Qed.

End MissingContent.

Lemma savePrompts_missing_content_witness :
  savePrompts (platform := examplePlatform []) (environment := storageWorks)
    [smallPrompt; damagedShell; largePrompt] notion emptyWorld
  = (Throw cannotReadLength, emptyWorld).
Proof.
  apply (savePrompts_missing_content
           (platform := examplePlatform []) (environment := storageWorks)
           [smallPrompt; damagedShell; largePrompt] damagedShell).
  - right. by left.
  - reflexivity.
Defined.

Lemma isQuotaError_spec_witness :
  isQuotaError (Some (js "QUOTA_BYTES_PER_ITEM quota exceeded")) = true.
Proof.
  apply (isQuotaError_spec (Some (js "QUOTA_BYTES_PER_ITEM quota exceeded"))).
  exists (js "QUOTA_BYTES_PER_ITEM quota exceeded"). split; [reflexivity|].
  exists [], (js "_PER_ITEM quota exceeded"). reflexivity.
Defined.

Lemma initializeDefaultTags_effect_witness :
  (initializeDefaultTags (environment := storageWorks) damagedWorld).2
  = afterCalls [StorageGet SyncArea] damagedWorld.
Proof.
  pose proof (initializeDefaultTags_effect (environment := storageWorks)
                damagedWorld) as H.
  destruct (initializeDefaultTags (environment := storageWorks) damagedWorld)
    as [outcome w'].
  apply H. reflexivity.
Defined.

Lemma getAllTags_after_savePrompts_witness :
  let w' :=
    (savePrompts (platform := examplePlatform []) (environment := storageWorks)
       [smallPrompt; shortPrompt] notion damagedWorld).2 in
  fst (getAllTags w') = Return [js "test"; js "small"].
Proof.
  apply (getAllTags_after_savePrompts
           (platform := examplePlatform []) (environment := storageWorks)
           [smallPrompt; shortPrompt] notion damagedWorld (Return tt)).
  - reflexivity.
  - discriminate.
  - reflexivity.
  - reflexivity.
Defined.

(** Tags saved under the storage type local are not among those
    [getAllTags] returns. *)
Example getAllTags_after_local_save :
  fst (getAllTags
         (savePrompts (platform := examplePlatform [])
            (environment := storageWorks) [smallPrompt] local emptyWorld).2)
  = Return DEFAULT_TAGS.
Proof. vm_compute. reflexivity. Qed.
